(** * Crosstalk experiments mediated by dynamical decoupling

    A shallow embedding of [src/ExperimentClass.py] (class [Experiment]) and
    the properties of its circuit-generation and fidelity-scoring pipeline.

    Conventions of the embedding:
    - Python [int] is [Z]; [//] and [%] are [Z.div] and [Z.modulo] (both
      floor, as in Python).
    - The idle-delay values ([slots]) are the exact rationals denoted by the
      source literals ([Q], compared with [Qeq]); halving is exact on them.
    - Fidelities are real numbers ([R]) in the pipeline and in the
      properties of the scoring formula: the value the formula denotes
      before rounding. Module [Double] gives the same scoring function as
      the interpreter computes it, on binary64 doubles with the exceptions
      the arithmetic can raise; the properties that depend on rounding or on
      raising are stated there.
    - A Python [dict] of counts is a [gmap string Z]; in [Double], where the
      order of a float sum matters, it is an association list in insertion
      order.
    - A method of the class is a function from the object's state to an
      outcome and the state it leaves behind; a raised exception keeps the
      mutations made before it.
    - The backend and the qiskit passes that the class merely invokes
      (transpile, scheduling + decoupling padding, basis translation,
      sampling) are the fields of the class [Collaborators]; every theorem
      holds for all of them, including ones that raise. *)

From Stdlib Require Import ZArith QArith Reals Lra Lia.
From Stdlib Require Floats.
From stdpp Require Import base gmap strings list fin_maps.

Local Open Scope Z_scope.

(** ** Python values and control *)

Module Py.

Inductive exn :=
| IndexError
| KeyError
| TypeError
| ZeroDivisionError
| ValueError
| OverflowError
| CircuitError
| ExternalError (msg : string).

Inductive outcome (A : Type) :=
| Ok (a : A)
| Raise (e : exn).
Arguments Ok {A} a.
Arguments Raise {A} e.

Definition obind {A B} (o : outcome A) (k : A -> outcome B) : outcome B :=
  match o with
  | Ok a => k a
  | Raise e => Raise e
  end.

Definition is_ok {A} (o : outcome A) : bool :=
  match o with Ok _ => true | Raise _ => false end.

(** Truth value of an [int]: [if n:] *)
Definition truthy (n : Z) : bool := negb (n =? 0).

(** [range(start, stop, step)] for a positive [step]. *)
Definition range (start stop step : Z) : list Z :=
  map (fun j => start + step * Z.of_nat j)
      (seq 0 (Z.to_nat ((stop - start + step - 1) / step))).

(** [for x in xs: acc = body(x, acc)], stopping at the first exception. *)
Fixpoint for_each {A S} (xs : list A) (body : A -> S -> outcome S) (s : S)
  : outcome S :=
  match xs with
  | [] => Ok s
  | x :: rest => obind (body x s) (for_each rest body)
  end.

(** [seq[k]] on a sequence of length [size] holding its own indices: the
    index that is read, or [IndexError]. Negative indices count from the
    end. *)
Definition index (size k : Z) : outcome Z :=
  if (0 <=? k) && (k <? size) then Ok k
  else if (- size <=? k) && (k <? 0) then Ok (size + k)
  else Raise IndexError.

(** [key[-3:]]: the last three characters, the whole string when it is
    shorter. *)
Definition last3 (key : string) : string :=
  String.substring (String.length key - 3) 3 key.

(** [xs[:3]] *)
Definition first3 {A} (xs : list A) : list A := take 3 xs.

End Py.
Import Py.

#[global] Instance outcome_ret : MRet outcome := fun A a => Ok a.
#[global] Instance outcome_bind : MBind outcome := fun A B k o => obind o k.

(** ** Circuits *)

(** The library gates the class uses. *)
Inductive StandardGate :=
| HGate
| XGate
| YGate
| CCZGate
| CXGate.

(** An operation of a circuit under construction. [Delay] carries its
    duration and unit as given to [qc.delay]; [Composite] is an instruction
    made from a sub-circuit by [to_instruction]. *)
Inductive Gate :=
| Std (g : StandardGate)
| Delay (duration : Q) (unit : string)
| Measure
| Composite (definition : list (StandardGate * list Z)).

(** One entry of [qc.data]: the operation and the qubits and classical bits
    it acts on (register positions). *)
Record CircuitInstruction := {
  operation : Gate;
  qubits : list Z;
  clbits : list Z
}.

(** [QuantumCircuit(q, c)] with [q = QuantumRegister(n)] and
    [c = ClassicalRegister(m)]. *)
Record QuantumCircuit := {
  num_qubits : Z;
  num_clbits : Z;
  data : list CircuitInstruction
}.

Definition new_circuit (nq nc : Z) : outcome QuantumCircuit :=
  if (nq <? 0) || (nc <? 0) then Raise CircuitError
  else Ok {| num_qubits := nq; num_clbits := nc; data := [] |}.

(** The circuit with more instructions at the end of [qc.data]. *)
Definition extend (qc : QuantumCircuit) (more : list CircuitInstruction)
  : QuantumCircuit :=
  {| num_qubits := num_qubits qc;
     num_clbits := num_clbits qc;
     data := data qc ++ more |}.

Definition append_op (g : Gate) (qs cs : list Z) (qc : QuantumCircuit)
  : QuantumCircuit :=
  extend qc [{| operation := g; qubits := qs; clbits := cs |}].

(** [q[k]] *)
Definition qubit (qc : QuantumCircuit) (k : Z) : outcome Z :=
  index (num_qubits qc) k.

(** [qc.h(q[k])], [qc.x(q[k])] *)
Definition h (k : Z) (qc : QuantumCircuit) : outcome QuantumCircuit :=
  (a ← qubit qc k; Ok (append_op (Std HGate) [a] [] qc)).

Definition x (k : Z) (qc : QuantumCircuit) : outcome QuantumCircuit :=
  (a ← qubit qc k; Ok (append_op (Std XGate) [a] [] qc)).

(** [qc.cx(q[c], q[t])] *)
Definition cx (c t : Z) (qc : QuantumCircuit) : outcome QuantumCircuit :=
  (a ← qubit qc c; b ← qubit qc t;
   Ok (append_op (Std CXGate) [a; b] [] qc)).

(** [qc.delay(slots, unit="us", qarg=q[k])] *)
Definition delay (slots : Q) (k : Z) (qc : QuantumCircuit)
  : outcome QuantumCircuit :=
  (a ← qubit qc k; Ok (append_op (Delay slots "us") [a] [] qc)).

(** [qc.append(op, [q[0], q[1], q[2]])] *)
Definition append3 (op : Gate) (qc : QuantumCircuit) : outcome QuantumCircuit :=
  (a ← qubit qc 0; b ← qubit qc 1; c ← qubit qc 2;
   Ok (append_op op [a; b; c] [] qc)).

(** One measurement: qubit [k] into classical bit [k]. *)
Definition measure_instr (k : Z) : CircuitInstruction :=
  {| operation := Measure; qubits := [k]; clbits := [k] |}.

(** The measurements of a whole register of [size] qubits, in register
    order. *)
Definition measurements (size : Z) : list CircuitInstruction :=
  map measure_instr (range 0 size 1).

(** [qc.measure(q, c)] on the two whole registers, which must have the same
    size: the library broadcasts the call over the registers and appends
    one measurement per qubit to [qc.data]. *)
Definition measure_all (qc : QuantumCircuit) : outcome QuantumCircuit :=
  if num_qubits qc =? num_clbits qc
  then Ok (extend qc (measurements (num_qubits qc)))
  else Raise CircuitError.

(** A scheduled (transpiled) circuit, as the backend hands it back: each
    instruction has a name, its physical qubits and a [duration] attribute
    ([None] when the instruction carries none). *)
Record Scheduled := {
  s_name : string;
  s_qubits : list Z;
  s_duration : option Z
}.

Definition ScheduledCircuit := list Scheduled.

(** ** The backend and the passes the experiment invokes *)

Section Target.
Context {Props : Type}.

(** [backend.target]: the number of physical qubits and, per operation
    name, the properties of the operation on each tuple of qubits. *)
Record Target := {
  t_num_qubits : Z;
  t_gate_map : list (string * gmap (list Z) Props)
}.

Record Backend := {
  target : Target;
  basis_gates : list string
}.

(** [target.instructions]: one entry per operation and tuple of qubits. *)
Definition instructions (t : Target) : list (string * list Z) :=
  flat_map (fun e => map (fun kv => (fst e, fst kv)) (map_to_list (snd e)))
           (t_gate_map t).

(** [target[name]] *)
Fixpoint gate_props (name : string) (gm : list (string * gmap (list Z) Props))
  : outcome (gmap (list Z) Props) :=
  match gm with
  | [] => Raise KeyError
  | (n, ps) :: rest => if String.eqb n name then Ok ps else gate_props name rest
  end.

(** [target.add_instruction(gate, properties)] *)
Definition add_instruction (name : string) (ps : gmap (list Z) Props)
           (t : Target) : outcome Target :=
  if is_ok (gate_props name (t_gate_map t))
  then Raise (ExternalError "instruction is already in the target")
  else Ok {| t_num_qubits := t_num_qubits t;
             t_gate_map := t_gate_map t ++ [(name, ps)] |}.

(** [Experiment.addYGateToTargetBackend] *)
Definition addYGateToTargetBackend (b : Backend) : outcome Backend :=
  let tg := target b in
  let yPresent := existsb (fun i => String.eqb (fst i) "y") (instructions tg) in
  if negb yPresent then
    (y_gate_properties ←
       for_each (range 0 (t_num_qubits tg) 1)
         (fun qubit props =>
            xs ← gate_props "x" (t_gate_map tg);
            match xs !! [qubit] with
            | Some p => Ok (<[ [qubit] := p ]> props)
            | None => Raise KeyError
            end)
         ∅;
     tg' ← add_instruction "y" y_gate_properties tg;
     Ok {| target := tg'; basis_gates := basis_gates b |})
  else Ok b.

End Target.
Arguments Target : clear implicits.
Arguments Backend : clear implicits.

(** The capabilities of qiskit and of the backend that the class calls and
    does not implement. Each may raise. [sampler_run] stands for
    [SamplerV2(mode=backend).run(pubs).result()] followed, per entry, by
    [.join_data().get_counts()]: the list it returns is [jobResult] with
    each entry already turned into its counts. *)
Class Collaborators (Props : Type) := {
  transpile :
    QuantumCircuit -> Backend Props -> list Z -> outcome ScheduledCircuit;
  dd_pm_run :
    Target Props -> list StandardGate -> list Z -> ScheduledCircuit ->
    outcome ScheduledCircuit;
  basis_translate : list string -> ScheduledCircuit -> outcome ScheduledCircuit;
  sampler_run :
    Backend Props -> list (list ScheduledCircuit) ->
    outcome (list (gmap string Z))
}.

(** ** The experiment object *)

Record Experiment (Props : Type) := {
  numQubits : Z;
  initialLayout : list Z;
  initialLayoutWithBuffer : list Z;
  initialState : Z;
  ddSequenceType : Z;
  groverOperator : Gate;
  backend : Backend Props;
  circuits : list ScheduledCircuit;
  result : list (gmap string Z);
  fidelities : list R
}.
Arguments numQubits {Props} _.
Arguments initialLayout {Props} _.
Arguments initialLayoutWithBuffer {Props} _.
Arguments initialState {Props} _.
Arguments ddSequenceType {Props} _.
Arguments groverOperator {Props} _.
Arguments backend {Props} _.
Arguments circuits {Props} _.
Arguments result {Props} _.
Arguments fidelities {Props} _.

(** A method: the outcome and the object as the call leaves it. *)
Definition M (Props A : Type) : Type :=
  Experiment Props -> outcome A * Experiment Props.

#[global] Instance M_ret {Props} : MRet (M Props) := fun A a self => (Ok a, self).
#[global] Instance M_bind {Props} : MBind (M Props) := fun A B k m self =>
  match m self with
  | (Ok a, self') => k a self'
  | (Raise e, self') => (Raise e, self')
  end.

Definition get {Props} : M Props (Experiment Props) := fun self => (Ok self, self).

Definition lift {Props A} (o : outcome A) : M Props A := fun self => (o, self).

(** [for x in xs: ...] with a local variable threaded through the body. *)
Fixpoint forM {Props A S} (xs : list A) (body : A -> S -> M Props S) (s : S)
  : M Props S :=
  match xs with
  | [] => mret s
  | x :: rest => s' ← body x s; forM rest body s'
  end.

(** The object with its circuit list replaced. *)
Definition with_circuits {Props} (self : Experiment Props)
           (cs : list ScheduledCircuit) : Experiment Props :=
  {| numQubits := numQubits self;
     initialLayout := initialLayout self;
     initialLayoutWithBuffer := initialLayoutWithBuffer self;
     initialState := initialState self;
     ddSequenceType := ddSequenceType self;
     groverOperator := groverOperator self;
     backend := backend self;
     circuits := cs;
     result := result self;
     fidelities := fidelities self |}.

(** [self.circuits.append(c)] *)
Definition append_circuit {Props} (c : ScheduledCircuit) : M Props unit :=
  fun self => (Ok tt, with_circuits self (circuits self ++ [c])).

(** The object with its result list replaced. *)
Definition with_result {Props} (self : Experiment Props)
           (r : list (gmap string Z)) : Experiment Props :=
  {| numQubits := numQubits self;
     initialLayout := initialLayout self;
     initialLayoutWithBuffer := initialLayoutWithBuffer self;
     initialState := initialState self;
     ddSequenceType := ddSequenceType self;
     groverOperator := groverOperator self;
     backend := backend self;
     circuits := circuits self;
     result := r;
     fidelities := fidelities self |}.

(** [self.result = r] *)
Definition set_result {Props} (r : list (gmap string Z)) : M Props unit :=
  fun self => (Ok tt, with_result self r).

(** The object with its fidelity list replaced. *)
Definition with_fidelities {Props} (self : Experiment Props) (f : list R)
  : Experiment Props :=
  {| numQubits := numQubits self;
     initialLayout := initialLayout self;
     initialLayoutWithBuffer := initialLayoutWithBuffer self;
     initialState := initialState self;
     ddSequenceType := ddSequenceType self;
     groverOperator := groverOperator self;
     backend := backend self;
     circuits := circuits self;
     result := result self;
     fidelities := f |}.

(** [self.fidelities = f] *)
Definition set_fidelities {Props} (f : list R) : M Props unit :=
  fun self => (Ok tt, with_fidelities self f).

(** [Experiment.createGroverOperator] *)
Definition createGroverOperator : Gate :=
  let ccz := (CCZGate, [0; 1; 2]) in
  Composite
    ([ccz] ++
     [(HGate, [0]); (HGate, [1]); (HGate, [2])] ++
     [(XGate, [0]); (XGate, [1]); (XGate, [2])] ++
     [ccz] ++
     [(XGate, [0]); (XGate, [1]); (XGate, [2])] ++
     [(HGate, [0]); (HGate, [1]); (HGate, [2])]).

(** [len(xs)] *)
Definition len {A} (xs : list A) : Z := Z.of_nat (length xs).

(** [Experiment.__init__] *)
Definition __init__ {Props} (numQubits : Z)
           (initialLayout initialLayoutWithBuffer : list Z)
           (backend : Backend Props) (initialState ddSequenceType : Z)
  : outcome (Experiment Props) :=
  backend' ← addYGateToTargetBackend backend;
  Ok {| numQubits := if truthy numQubits then numQubits else 9;
        initialLayout :=
          if truthy (len initialLayout) then initialLayout
          else [4; 3; 5; 15; 22; 2; 1; 6; 7];
        initialLayoutWithBuffer :=
          if truthy (len initialLayoutWithBuffer) then initialLayoutWithBuffer
          else [4; 3; 5; 22; 23; 1; 0; 7; 8];
        initialState := initialState;
        ddSequenceType := ddSequenceType;
        groverOperator := createGroverOperator;
        backend := backend';
        circuits := [];
        result := [];
        fidelities := [] |}.

(** ** Building the circuits *)

(** Preparation of the redundancy qubits 3, 5, 7, ... *)
Definition prepare (initialState numQubits : Z) (qc : QuantumCircuit)
  : outcome QuantumCircuit :=
  if initialState =? 1 then for_each (range 3 numQubits 2) x qc
  else if initialState =? 2 then for_each (range 3 numQubits 2) h qc
  else Ok qc.

(** Superposition on the three data qubits, then the Grover operator twice. *)
Definition grover_twice (groverOperator : Gate) (qc : QuantumCircuit)
  : outcome QuantumCircuit :=
  qc ← h 0 qc;
  qc ← h 1 qc;
  qc ← h 2 qc;
  qc ← append3 groverOperator qc;
  append3 groverOperator qc.

(** The [if]/[elif] chain that updates [slots] at sweep index [i]. *)
Definition next_slots (i : Z) (slots : Q) : Q :=
  if (i <? 20) && (i mod 5 =? 0) then (slots / 2)%Q
  else if (i >=? 20) && (i <? 25) then 0.75%Q
  else if (i >=? 25) && (i <? 30) then 0.5%Q
  else if (i >=? 30) && (i <? 35) then 0.05%Q
  else if (i >=? 35) && (i <? 40) then 0.025%Q
  else slots.

(** The attack rounds without spacing:
    [for j in range(i): for k in range(3, numQubits, 2): cx; delay]. *)
Definition attack (i numQubits : Z) (slots : Q) (qc : QuantumCircuit)
  : outcome QuantumCircuit :=
  for_each (range 0 i 1)
    (fun j qc =>
       for_each (range 3 numQubits 2)
         (fun k qc => qc ← cx k (k + 1) qc; delay slots k qc)
         qc)
    qc.

(** The attack rounds with spacing:
    [for j in range(i): for k in range(3, numQubits, 3): cx; delay]. *)
Definition attack_spacing (i numQubits : Z) (slots : Q) (qc : QuantumCircuit)
  : outcome QuantumCircuit :=
  for_each (range 0 i 1)
    (fun j qc =>
       for_each (range 3 numQubits 3)
         (fun k qc => qc ← cx (k + 1) (k + 2) qc; delay slots (k + 1) qc)
         qc)
    qc.

(** The circuit of the no-attack methods, before transpilation. *)
Definition no_attack_qc (numQubits initialState : Z) (groverOperator : Gate)
  : outcome QuantumCircuit :=
  qc ← new_circuit numQubits numQubits;
  qc ← prepare initialState numQubits qc;
  qc ← grover_twice groverOperator qc;
  measure_all qc.

(** The circuit of sweep index [i] of the attack methods without spacing,
    before transpilation, with the value of [slots] it leaves. *)
Definition attack_qc (numQubits initialState : Z) (groverOperator : Gate)
           (i : Z) (slots : Q) : outcome (Q * QuantumCircuit) :=
  qc ← new_circuit numQubits numQubits;
  qc ← prepare initialState numQubits qc;
  qc ← grover_twice groverOperator qc;
  let slots := next_slots i slots in
  qc ← attack i numQubits slots qc;
  qc ← measure_all qc;
  Ok (slots, qc).

(** The same for the methods with spacing, on the widened register. *)
Definition attack_spacing_qc (numQubits initialState : Z) (groverOperator : Gate)
           (i : Z) (slots : Q) : outcome (Q * QuantumCircuit) :=
  qc ← new_circuit (numQubits + (numQubits - 3) / 2)
                   (numQubits + (numQubits - 3) / 2);
  qc ← prepare initialState numQubits qc;
  qc ← grover_twice groverOperator qc;
  let slots := next_slots i slots in
  qc ← attack_spacing i numQubits slots qc;
  qc ← measure_all qc;
  Ok (slots, qc).

(** ** Dynamical decoupling and duration rounding *)

Definition dd_sequence (ddSequenceType : Z) : list StandardGate :=
  if ddSequenceType =? 1 then [XGate; YGate; XGate; YGate]
  else [XGate; XGate].

(** The assignment of the rounding loop, on one duration:
    [if d % 8: d = ((d // 8) + 1) * 8]. *)
Definition round_duration (d : Z) : Z :=
  if truthy (d mod 8) then (d / 8 + 1) * 8 else d.

Definition round_item (item : Scheduled) : outcome Scheduled :=
  match s_duration item with
  | None => Raise TypeError
  | Some d =>
      Ok {| s_name := s_name item;
            s_qubits := s_qubits item;
            s_duration := Some (round_duration d) |}
  end.

(** [for item in circ_dd.data: ...] *)
Fixpoint round_durations (circ_dd : ScheduledCircuit) : outcome ScheduledCircuit :=
  match circ_dd with
  | [] => Ok []
  | item :: rest =>
      item' ← round_item item;
      rest' ← round_durations rest;
      Ok (item' :: rest')
  end.

(** Padding, rounding and basis translation of a transpiled circuit. *)
Definition apply_dd {Props} {collaborators : Collaborators Props} (b : Backend Props)
           (ddSequenceType : Z) (layout : list Z) (tr_circuit : ScheduledCircuit)
  : outcome ScheduledCircuit :=
  circ_dd ← dd_pm_run (target b) (dd_sequence ddSequenceType) (first3 layout)
                      tr_circuit;
  circ_dd ← round_durations circ_dd;
  basis_translate (basis_gates b) circ_dd.

(** ** The circuit-adding methods *)

Section Methods.
Context {Props : Type} {collaborators : Collaborators Props}.

(** [Experiment.addNoAttackCircuit] *)
Definition addNoAttackCircuit : M Props unit :=
  self ← get;
  tr_circuit ← lift (
    qc ← no_attack_qc (numQubits self) (initialState self) (groverOperator self);
    transpile qc (backend self) (initialLayout self));
  append_circuit tr_circuit.

(** [Experiment.addNoAttackPlusDDCircuit] *)
Definition addNoAttackPlusDDCircuit : M Props unit :=
  self ← get;
  qc_dd ← lift (
    qc ← no_attack_qc (numQubits self) (initialState self) (groverOperator self);
    tr_circuit ← transpile qc (backend self) (initialLayout self);
    apply_dd (backend self) (ddSequenceType self) (initialLayout self) tr_circuit);
  append_circuit qc_dd.

(** [Experiment.addAttackWithoutMitigationCircuits] *)
Definition addAttackWithoutMitigationCircuits : M Props unit :=
  _ ← forM (range 0 45 1)
        (fun i slots =>
           self ← get;
           '(slots, tr_circuit) ← lift (
             '(slots, qc) ← attack_qc (numQubits self) (initialState self)
                                      (groverOperator self) i slots;
             tr_circuit ← transpile qc (backend self) (initialLayout self);
             Ok (slots, tr_circuit));
           _ ← append_circuit tr_circuit;
           mret slots)
        8%Q;
  mret tt.

(** [Experiment.addAttackWithDDCircuits] *)
Definition addAttackWithDDCircuits : M Props unit :=
  _ ← forM (range 0 45 1)
        (fun i slots =>
           self ← get;
           '(slots, qc_dd) ← lift (
             '(slots, qc) ← attack_qc (numQubits self) (initialState self)
                                      (groverOperator self) i slots;
             tr_circuit ← transpile qc (backend self) (initialLayout self);
             qc_dd ← apply_dd (backend self) (ddSequenceType self)
                              (initialLayout self) tr_circuit;
             Ok (slots, qc_dd));
           _ ← append_circuit qc_dd;
           mret slots)
        8%Q;
  mret tt.

(** [Experiment.addAttackWithSpacingCircuits] *)
Definition addAttackWithSpacingCircuits : M Props unit :=
  _ ← forM (range 0 45 1)
        (fun i slots =>
           self ← get;
           '(slots, tr_circuit) ← lift (
             '(slots, qc) ← attack_spacing_qc (numQubits self) (initialState self)
                                              (groverOperator self) i slots;
             tr_circuit ← transpile qc (backend self)
                                    (initialLayoutWithBuffer self);
             Ok (slots, tr_circuit));
           _ ← append_circuit tr_circuit;
           mret slots)
        8%Q;
  mret tt.

(** [Experiment.addAttackWithDDAndSpacingCircuits] *)
Definition addAttackWithDDAndSpacingCircuits : M Props unit :=
  _ ← forM (range 0 45 1)
        (fun i slots =>
           self ← get;
           '(slots, qc_dd) ← lift (
             '(slots, qc) ← attack_spacing_qc (numQubits self) (initialState self)
                                              (groverOperator self) i slots;
             tr_circuit ← transpile qc (backend self)
                                    (initialLayoutWithBuffer self);
             qc_dd ← apply_dd (backend self) (ddSequenceType self)
                              (initialLayoutWithBuffer self) tr_circuit;
             Ok (slots, qc_dd));
           _ ← append_circuit qc_dd;
           mret slots)
        8%Q;
  mret tt.

(** ** Running the circuits *)

(** [xs[i]] on a list *)
Definition getitem {A} (xs : list A) (i : Z) : outcome A :=
  k ← index (len xs) i;
  match xs !! Z.to_nat k with
  | Some a => Ok a
  | None => Raise IndexError
  end.

(** [Experiment.runAllCircuits] *)
Definition runAllCircuits : M Props unit :=
  self ← get;
  let circuitarray := map (fun circuit => [circuit]) (circuits self) in
  jobResult ← lift (sampler_run (backend self) circuitarray);
  _ ← set_result [];
  _ ← forM (range 0 (len (circuits self)) 1)
        (fun i (_ : unit) =>
           self ← get;
           counts ← lift (getitem jobResult i);
           set_result (result self ++ [counts]))
        tt;
  mret tt.

(** [Experiment.getResult]: the lines printed and the value returned. *)
Definition getResult (self : Experiment Props)
  : list string * list (gmap string Z) :=
  (if negb (truthy (len (result self)))
   then ["No results yet, returning an empty array."] else [],
   result self).

End Methods.

(** ** Fidelity of the data qubits *)

(** [sum(d.values())] on integer counts *)
Definition dict_sum (d : gmap string Z) : Z :=
  map_fold (fun _ v acc => acc + v) 0 d.

(** [sum(d.values())] on normalized values *)
Definition sum_values (d : gmap string R) : R :=
  map_fold (fun _ v acc => (acc + v)%R) 0%R d.

(** The normalization loop of [hellinger_distance]:
    [for key, val in dist.items(): normed[key] = val / total]. The division
    is only reached when the dict has an item. *)
Definition normalize (dist : gmap string Z) : outcome (gmap string R) :=
  let total := dict_sum dist in
  if negb (bool_decide (dist = ∅)) && (total =? 0) then Raise ZeroDivisionError
  else Ok ((fun val => (IZR val / IZR total)%R) <$> dist).

(** One round of the main loop of [hellinger_distance], on the running
    total and what is left of [q_normed]. *)
Definition hellinger_step (key : string) (val : R) (st : R * gmap string R)
  : R * gmap string R :=
  let '(total, q_normed) := st in
  match q_normed !! key with
  | Some q => ((total + (sqrt val - sqrt q) ^ 2)%R, delete key q_normed)
  | None => ((total + val)%R, q_normed)
  end.

(** [qiskit.quantum_info.analysis.hellinger_distance], the library function
    behind [hellinger_fidelity] (imported at line 12 of the source and not
    part of the repository): both dicts are normalized by their totals; the
    keys of [dist_p] contribute [(sqrt p - sqrt q) ** 2] when [dist_q] has
    them and [p] otherwise; the keys only [dist_q] has contribute [q]; the
    distance is [sqrt(total) / sqrt(2)]. This is the value of the formula in
    exact arithmetic, on counts that are not negative; what the doubles
    round to, and the square root of a negative value raising, are in
    [Double.hellinger_distance]. *)
Definition hellinger_distance (dist_p dist_q : gmap string Z) : outcome R :=
  p_normed ← normalize dist_p;
  q_normed ← normalize dist_q;
  let '(total, q_normed) := map_fold hellinger_step (0%R, q_normed) p_normed in
  let total := (total + sum_values q_normed)%R in
  Ok (sqrt total / sqrt 2)%R.

(** [qiskit.quantum_info.analysis.hellinger_fidelity]: the library defines
    the fidelity as [(1 - H ** 2) ** 2], [H] being the Hellinger distance.
    The value in exact arithmetic; [Double.hellinger_fidelity] is the double
    the call returns. *)
Definition hellinger_fidelity (dist_p dist_q : gmap string Z) : outcome R :=
  dist ← hellinger_distance dist_p dist_q;
  Ok ((1 - dist ^ 2) ^ 2)%R.

(** The ideal distribution, [initialState] in [find_fidelity]. *)
Definition find_fidelity_initialState : gmap string Z :=
  <["111" := 968]> (<["101" := 8]> (<["011" := 8]> (<["110" := 8]>
  (<["100" := 8]> (<["010" := 8]> (<["001" := 8]> (<["000" := 8]> ∅))))))).

(** One round of the loop of [find_fidelity] over [counts]. *)
Definition reduce_step (key : string) (count : Z) (finalState : gmap string Z)
  : gmap string Z :=
  let key_prefix := last3 key in
  let finalState :=
    match finalState !! key_prefix with
    | None => <[key_prefix := 0]> finalState
    | Some _ => finalState
    end in
  <[key_prefix := finalState !!! key_prefix + count]> finalState.

(** [finalState] at the end of that loop: the distribution over the last
    three bits. *)
Definition reduceToDataQubits (counts : gmap string Z) : gmap string Z :=
  map_fold reduce_step ∅ counts.

(** [find_fidelity], local to [calculateFidelityOfDataQubits] *)
Definition find_fidelity (counts : gmap string Z) : outcome R :=
  let finalState := reduceToDataQubits counts in
  hellinger_fidelity find_fidelity_initialState finalState.

Section Scoring.
Context {Props : Type}.

(** One round of the loop of [calculateFidelityOfDataQubits], with its
    counter [i]. *)
Definition score_round (count : gmap string Z) (i : Z) : M Props Z :=
  f ← lift (find_fidelity count);
  let i := i + 1 in
  self ← get;
  _ ← set_fidelities (fidelities self ++ [f]);
  mret i.

(** [Experiment.calculateFidelityOfDataQubits] *)
Definition calculateFidelityOfDataQubits : M Props unit :=
  _ ← set_fidelities [];
  self ← get;
  _ ← forM (result self) score_round 0;
  mret tt.

(** [Experiment.getFidelities]: the lines printed and the value returned. *)
Definition getFidelities (self : Experiment Props) : list string * list R :=
  (if negb (truthy (len (fidelities self)))
   then ["Fidelities are not yet calculated. Returning an empty array"] else [],
   fidelities self).

End Scoring.

(** ** The score as the interpreter computes it *)

Module Double.
Import PrimFloat SpecFloat FloatOps.

(** A [dict] in insertion order: an association list whose keys are
    distinct. *)
Definition dict (V : Type) : Type := list (string * V).

(** [d.get(key)]; [key in d] when it is not [None] *)
Fixpoint get {V} (d : dict V) (key : string) : option V :=
  match d with
  | [] => None
  | (k, v) :: rest => if String.eqb k key then Some v else get rest key
  end.

(** [d[key] = v]: in place when [d] has the key, at the end when not *)
Fixpoint set {V} (d : dict V) (key : string) (v : V) : dict V :=
  match d with
  | [] => [(key, v)]
  | (k, w) :: rest =>
      if String.eqb k key then (k, v) :: rest else (k, w) :: set rest key v
  end.

(** [del d[key]] *)
Fixpoint del {V} (d : dict V) (key : string) : dict V :=
  match d with
  | [] => []
  | (k, w) :: rest =>
      if String.eqb k key then rest else (k, w) :: del rest key
  end.

(** [sum(d.values())] on integer counts *)
Definition int_sum (d : dict Z) : Z := fold_left (fun acc kv => acc + kv.2) d 0.

(** [float(n)] for an [int] below [2 ** 53] in magnitude, which a double
    holds exactly. *)
Definition of_int (n : Z) : float :=
  if n <? 0 then (- of_uint63 (Uint63.of_Z (- n)))%float
  else of_uint63 (Uint63.of_Z n).

(** An [int] as an unrounded binary number. *)
Definition exact (n : Z) : spec_float :=
  match n with
  | Z0 => S754_zero false
  | Zpos p => S754_finite false p 0
  | Zneg p => S754_finite true p 0
  end.

(** [a / b] on two [int]s (CPython's [long_true_divide]): the double nearest
    to the quotient. Operands below [2 ** 53] in magnitude are converted and
    divided as doubles; larger ones are divided as integers and the quotient
    is rounded once, with [OverflowError] when it is beyond the doubles. *)
Definition long_true_divide (a b : Z) : outcome float :=
  if b =? 0 then Raise ZeroDivisionError
  else if (Z.abs a <? 2 ^ 53) && (Z.abs b <? 2 ^ 53)
  then Ok (of_int a / of_int b)%float
  else match SFdiv prec emax (exact a) (exact b) with
       | S754_infinity _ => Raise OverflowError
       | q => Ok (SF2Prim q)
       end.

(** [math.sqrt(x)]: the C square root, with [ValueError] when it is not a
    number although [x] is one (a negative [x]). *)
Definition math_sqrt (x : float) : outcome float :=
  let r := sqrt x in
  if is_nan r && negb (is_nan x) then Raise ValueError
  else if is_infinity r && is_finite x then Raise ValueError
  else Ok r.

Section Interpreter.

(** The C library's [pow(x, 2.0)] for a finite [x] above 0 other than 1, the
    one case in which CPython's [float_pow] calls it. IEEE 754 does not fix
    its last bit, so it is left open. *)
Variable libm_pow2 : float -> float.

(** Whether the built-in [sum] compensates the rounding errors of a float
    sum (CPython 3.12 and later) or adds from left to right. *)
Variable compensated_sum : bool.

(** [x ** 2] on a float (CPython's [float_pow] with exponent 2). *)
Definition float_pow2 (x : float) : outcome float :=
  if is_nan x then Ok x
  else if is_infinity x then Ok (abs x)
  else if (x =? 0)%float then Ok 0%float
  else
    let iv := abs x in
    if (iv =? 1)%float then Ok 1%float
    else
      let ix := libm_pow2 iv in
      if is_infinity ix then Raise OverflowError else Ok ix.

(** The compensated summation of the floats after the first one. *)
Fixpoint neumaier (f c : float) (xs : list float) : float :=
  match xs with
  | [] => if negb (c =? 0)%float && is_finite c then (f + c)%float else f
  | x :: rest =>
      let t := (f + x)%float in
      let c := if (abs x <=? abs f)%float
               then (c + ((f - t) + x))%float
               else (c + ((x - t) + f))%float in
      neumaier t c rest
  end.

(** [sum(values)] on floats: the integer 0 plus the first value, then the
    others. An empty sum is the integer 0, a zero as a float. *)
Definition builtin_sum (values : list float) : float :=
  match values with
  | [] => 0%float
  | x :: rest =>
      if compensated_sum then neumaier (0 + x)%float 0%float rest
      else fold_left add rest (0 + x)%float
  end.

(** The normalization loops of [hellinger_distance]:
    [for key, val in dist.items(): normed[key] = val / total] *)
Definition normalize (dist : dict Z) : outcome (dict float) :=
  let total := int_sum dist in
  for_each dist
           (fun item normed =>
              quotient ← long_true_divide item.2 total;
              Ok (set normed item.1 quotient))
           [].

(** One round of the main loop of [hellinger_distance], on the running
    total and what is left of [q_normed]. The total starts as the integer
    0, a zero as a float. *)
Definition hellinger_step (item : string * float) (st : float * dict float)
  : outcome (float * dict float) :=
  let '(total, q_normed) := st in
  match get q_normed item.1 with
  | Some q =>
      a ← math_sqrt item.2;
      b ← math_sqrt q;
      square ← float_pow2 (a - b)%float;
      Ok ((total + square)%float, del q_normed item.1)
  | None => Ok ((total + item.2)%float, q_normed)
  end.

(** [qiskit.quantum_info.analysis.hellinger_distance] on doubles. *)
Definition hellinger_distance (dist_p dist_q : dict Z) : outcome float :=
  p_normed ← normalize dist_p;
  q_normed ← normalize dist_q;
  '(total, q_normed) ← for_each p_normed hellinger_step (0%float, q_normed);
  let total := (total + builtin_sum q_normed.*2)%float in
  root ← math_sqrt total;
  root_2 ← math_sqrt 2%float;
  Ok (root / root_2)%float.

(** [qiskit.quantum_info.analysis.hellinger_fidelity]:
    [(1 - dist ** 2) ** 2] *)
Definition hellinger_fidelity (dist_p dist_q : dict Z) : outcome float :=
  dist ← hellinger_distance dist_p dist_q;
  square ← float_pow2 dist;
  float_pow2 (1 - square)%float.

(** [initialState] of [find_fidelity], in the order of the literal *)
Definition initialState : dict Z :=
  [("111", 968); ("101", 8); ("011", 8); ("110", 8);
   ("100", 8); ("010", 8); ("001", 8); ("000", 8)].

(** One round of the loop of [find_fidelity] over [counts] *)
Definition reduce_step (finalState : dict Z) (item : string * Z) : dict Z :=
  let key_prefix := last3 item.1 in
  let finalState :=
    match get finalState key_prefix with
    | None => set finalState key_prefix 0
    | Some _ => finalState
    end in
  set finalState key_prefix (default 0 (get finalState key_prefix) + item.2).

Definition reduceToDataQubits (counts : dict Z) : dict Z :=
  fold_left reduce_step counts [].

(** [find_fidelity] *)
Definition find_fidelity (counts : dict Z) : outcome float :=
  let finalState := reduceToDataQubits counts in
  hellinger_fidelity initialState finalState.

End Interpreter.

(** The correctly rounded square, which the C library's [pow(x, 2.0)]
    returns whenever the square is a double or is not next to the middle of
    two doubles. *)
Definition rounded_square (x : float) : float := (x * x)%float.

(** A valid distribution as the interpreter holds it: a dict (distinct keys)
    that is not empty, with every count positive, and with a total that a
    double holds exactly. *)
Definition valid_distribution (dist : dict Z) : Prop :=
  NoDup dist.*1 /\ dist <> [] /\ Forall (fun item => 0 < item.2) dist /\
  int_sum dist < 2 ^ 53.

(** *** Magnitudes of doubles *)

(** [x] is a zero or a finite double below [2 ** B] in absolute value. *)
Definition below (B : Z) (x : float) : Prop :=
  match Prim2SF x with
  | S754_zero _ => True
  | S754_finite _ m e => Zpos (digits2_pos m) + e <= B
  | _ => False
  end.

(** [x] is a finite double of absolute value [2 ** (L - 1)] or more. *)
Definition above (L : Z) (x : float) : Prop :=
  match Prim2SF x with
  | S754_finite _ m e => L <= Zpos (digits2_pos m) + e
  | _ => False
  end.

(** [x] is a zero or a finite double above zero. *)
Definition nonneg (x : float) : Prop :=
  match Prim2SF x with
  | S754_zero _ => True
  | S754_finite s _ _ => s = false
  | _ => False
  end.

(** A C library whose [pow(x, 2.0)] stays in range: the square of a finite
    double at or above zero and below [2 ** B] is finite, at or above zero
    and below [2 ** (2 * B + 1)]. *)
Definition pow2_in_range (libm_pow2 : float -> float) : Prop :=
  forall (B : Z) (x : float),
    0 <= B <= 500 -> nonneg x -> below B x ->
    nonneg (libm_pow2 x) /\ below (2 * B + 1) (libm_pow2 x).

(** Raw results whose keys all end in three bits, as the bitstrings of three
    or more measured qubits do. *)
Definition bitstring_keys (counts : dict Z) : Prop :=
  Forall (fun item => last3 item.1 ∈ initialState.*1) counts.

End Double.

(** ** The distance and score in the words of the specification *)

(** A count distribution normalized to a probability distribution over its
    key set. *)
Definition probabilities (dist : gmap string Z) : gmap string R :=
  (fun val => (IZR val / IZR (dict_sum dist))%R) <$> dist.

(** The squared difference of square roots at one key, a missing key
    counting as probability zero. *)
Definition sq_diff (p q : option R) : option R :=
  Some ((sqrt (default 0 p) - sqrt (default 0 q)) ^ 2)%R.

(** The Hellinger distance of two probability distributions:
    [sqrt (sum over the keys of (sqrt p - sqrt q)^2) / sqrt 2]. *)
Definition spec_hellinger_distance (p q : gmap string R) : R :=
  (sqrt (sum_values (merge sq_diff p q)) / sqrt 2)%R.

(** The score as the specification words it: one minus the distance. *)
Definition spec_score (dist_p dist_q : gmap string Z) : R :=
  (1 - spec_hellinger_distance (probabilities dist_p) (probabilities dist_q))%R.

(** What one key adds to the total in [hellinger_distance], from its
    normalized values in the two dicts. *)
Definition hellinger_term (p q : option R) : option R :=
  match p, q with
  | Some p, Some q => Some ((sqrt p - sqrt q) ^ 2)%R
  | Some p, None => Some p
  | None, Some q => Some q
  | None, None => None
  end.

(** A valid distribution: not empty, every count positive. *)
Definition valid_distribution (dist : gmap string Z) : Prop :=
  dist <> ∅ /\ map_Forall (fun _ count => 0 < count) dist.

(** Counts that can be normalized: none negative, not all zero. *)
Definition count_distribution (dist : gmap string Z) : Prop :=
  map_Forall (fun _ count => 0 <= count) dist /\ dict_sum dist <> 0.

(** ** The value of [slots] along the sweep *)

(** [slots] on entry to the round of sweep index [i]: 8 after the updates of
    the indices below [i]. *)
Definition slots_before (i : Z) : Q :=
  fold_left (fun slots j => next_slots j slots) (range 0 i 1) 8%Q.

(** [slots] in the attack rounds of sweep index [i]. *)
Definition slots_at (i : Z) : Q := next_slots i (slots_before i).

(** ** Sequences of method calls *)

Inductive call :=
| AddNoAttackCircuit
| AddNoAttackPlusDDCircuit
| AddAttackWithoutMitigationCircuits
| AddAttackWithDDCircuits
| AddAttackWithSpacingCircuits
| AddAttackWithDDAndSpacingCircuits
| RunAllCircuits
| CalculateFidelityOfDataQubits.

Definition is_add (c : call) : bool :=
  match c with
  | RunAllCircuits | CalculateFidelityOfDataQubits => false
  | _ => true
  end.

Definition is_run (c : call) : bool :=
  match c with RunAllCircuits => true | _ => false end.

Definition is_score (c : call) : bool :=
  match c with CalculateFidelityOfDataQubits => true | _ => false end.

Section Calls.
Context {Props : Type} {collaborators : Collaborators Props}.

Definition do_call (c : call) : M Props unit :=
  match c with
  | AddNoAttackCircuit => addNoAttackCircuit
  | AddNoAttackPlusDDCircuit => addNoAttackPlusDDCircuit
  | AddAttackWithoutMitigationCircuits => addAttackWithoutMitigationCircuits
  | AddAttackWithDDCircuits => addAttackWithDDCircuits
  | AddAttackWithSpacingCircuits => addAttackWithSpacingCircuits
  | AddAttackWithDDAndSpacingCircuits => addAttackWithDDAndSpacingCircuits
  | RunAllCircuits => runAllCircuits
  | CalculateFidelityOfDataQubits => calculateFidelityOfDataQubits
  end.

(** A script that calls the methods one after the other; the first
    exception ends it. *)
Fixpoint script (cs : list call) : M Props unit :=
  match cs with
  | [] => mret tt
  | c :: rest => _ ← do_call c; script rest
  end.

(** The object after the calls of a caller that goes on after an
    exception. *)
Fixpoint after (cs : list call) (self : Experiment Props) : Experiment Props :=
  match cs with
  | [] => self
  | c :: rest => after rest (snd (do_call c self))
  end.

(** The loop shared by the four attack methods, on its own: the circuits it
    appends and how it ends, given what one round builds from the sweep
    index and the incoming [slots]. *)
Fixpoint sweep (build : Z -> Q -> outcome (Q * ScheduledCircuit))
         (indices : list Z) (slots : Q) : list ScheduledCircuit * outcome Q :=
  match indices with
  | [] => ([], Ok slots)
  | i :: rest =>
      match build i slots with
      | Ok (slots', c) =>
          let '(cs, o) := sweep build rest slots' in (c :: cs, o)
      | Raise e => ([], Raise e)
      end
  end.

(** What one round of each attack method builds. *)
Definition build_without_mitigation (self : Experiment Props) (i : Z) (slots : Q)
  : outcome (Q * ScheduledCircuit) :=
  '(slots, qc) ← attack_qc (numQubits self) (initialState self)
                           (groverOperator self) i slots;
  tr_circuit ← transpile qc (backend self) (initialLayout self);
  Ok (slots, tr_circuit).

Definition build_with_dd (self : Experiment Props) (i : Z) (slots : Q)
  : outcome (Q * ScheduledCircuit) :=
  '(slots, qc) ← attack_qc (numQubits self) (initialState self)
                           (groverOperator self) i slots;
  tr_circuit ← transpile qc (backend self) (initialLayout self);
  qc_dd ← apply_dd (backend self) (ddSequenceType self)
                   (initialLayout self) tr_circuit;
  Ok (slots, qc_dd).

Definition build_with_spacing (self : Experiment Props) (i : Z) (slots : Q)
  : outcome (Q * ScheduledCircuit) :=
  '(slots, qc) ← attack_spacing_qc (numQubits self) (initialState self)
                                   (groverOperator self) i slots;
  tr_circuit ← transpile qc (backend self) (initialLayoutWithBuffer self);
  Ok (slots, tr_circuit).

Definition build_with_dd_and_spacing (self : Experiment Props) (i : Z) (slots : Q)
  : outcome (Q * ScheduledCircuit) :=
  '(slots, qc) ← attack_spacing_qc (numQubits self) (initialState self)
                                   (groverOperator self) i slots;
  tr_circuit ← transpile qc (backend self) (initialLayoutWithBuffer self);
  qc_dd ← apply_dd (backend self) (ddSequenceType self)
                   (initialLayoutWithBuffer self) tr_circuit;
  Ok (slots, qc_dd).

(** A round that reads the object, builds one circuit and appends it. *)
Definition sweep_round (build : Experiment Props -> Z -> Q -> outcome (Q * ScheduledCircuit))
           (i : Z) (slots : Q) : M Props Q :=
  self ← get;
  '(slots, c) ← lift (build self i slots);
  _ ← append_circuit c;
  mret slots.

(** What the loop of an attack method leaves: only new circuits, the k-th of
    them built at sweep index k from the value of [slots] that the rounds
    before it left, with [slots(k)] as its own. *)
Definition sweeps
           (method : M Props unit)
           (build : Experiment Props -> Z -> Q -> outcome (Q * ScheduledCircuit))
  : Prop :=
  forall self, exists new,
    snd (method self) = with_circuits self (circuits self ++ new) /\
    (length new <= 45)%nat /\
    (is_ok (fst (method self)) = true -> length new = 45%nat) /\
    forall (k : nat) c,
      new !! k = Some c ->
      build self (Z.of_nat k) (slots_before (Z.of_nat k))
      = Ok (slots_at (Z.of_nat k), c).

(** The frame of [runAllCircuits]: nothing but the result list changes. *)
Definition result_replaced (e e' : Experiment Props) : Prop :=
  exists r, e' = with_result e r.

(** The frame of a circuit-adding call: the circuit list has grown at its
    end and nothing else of the object has changed. *)
Definition only_appends (self self' : Experiment Props) : Prop :=
  (exists new, circuits self' = circuits self ++ new) /\
  result self' = result self /\
  fidelities self' = fidelities self /\
  numQubits self' = numQubits self /\
  initialLayout self' = initialLayout self /\
  initialLayoutWithBuffer self' = initialLayoutWithBuffer self /\
  initialState self' = initialState self /\
  ddSequenceType self' = ddSequenceType self /\
  groverOperator self' = groverOperator self /\
  backend self' = backend self.

End Calls.

(** ** The attack sweep *)

(** The schedule in the words of the specification. *)
Definition schedule (i : Z) : Q :=
  if i <? 5 then 4%Q
  else if i <? 10 then 2%Q
  else if i <? 15 then 1%Q
  else if i <? 20 then 0.5%Q
  else if i <? 25 then 0.75%Q
  else if i <? 30 then 0.5%Q
  else if i <? 35 then 0.05%Q
  else 0.025%Q.

(** [slots(j) <= slots(i)] for all [i <= j] of the sweep, except the pairs
    [excluded]: a check by enumeration. *)
Definition nonincreasing_except (excluded : Z -> Z -> bool) : bool :=
  forallb
    (fun i =>
       forallb
         (fun j => excluded i j || Qle_bool (slots_at j) (slots_at i))
         (range i 45 1))
    (range 0 45 1).

(** The step from index 15..19 to index 20..24, where [slots] rises. *)
Definition rise (i j : Z) : bool :=
  (15 <=? i) && (i <? 20) && (20 <=? j) && (j <? 25).

(** The attack pattern of one round in the words of the specification. *)
Definition instr (g : Gate) (qs : list Z) : CircuitInstruction :=
  {| operation := g; qubits := qs; clbits := [] |}.

Definition attack_pattern (numQubits : Z) (slots : Q) : list CircuitInstruction :=
  flat_map
    (fun k => [instr (Std CXGate) [k; k + 1]; instr (Delay slots "us") [k]])
    (range 3 numQubits 2).

Definition attack_pattern_spacing (numQubits : Z) (slots : Q)
  : list CircuitInstruction :=
  flat_map
    (fun k => [instr (Std CXGate) [k + 1; k + 2];
               instr (Delay slots "us") [k + 1]])
    (range 3 numQubits 3).

Definition is_cx (ci : CircuitInstruction) : bool :=
  match operation ci with Std CXGate => true | _ => false end.

Definition is_delay (ci : CircuitInstruction) : bool :=
  match operation ci with Delay _ _ => true | _ => false end.

Definition count_ops (f : CircuitInstruction -> bool) (qc : QuantumCircuit) : Z :=
  len (filter (fun ci => f ci = true) (data qc)).

(** The part of the circuit before the attack rounds. *)
Definition base_qc (size numQubits initialState : Z) (groverOperator : Gate)
  : outcome QuantumCircuit :=
  qc ← new_circuit size size;
  qc ← prepare initialState numQubits qc;
  grover_twice groverOperator qc.

(** The circuit the attack methods build at sweep index [i]. *)
Definition sweep_circuit (spacing : bool) (numQubits initialState : Z)
           (groverOperator : Gate) (i : Z) : outcome QuantumCircuit :=
  '(_, qc) ← (if spacing then attack_spacing_qc else attack_qc)
               numQubits initialState groverOperator i (slots_before i);
  Ok qc.

(** The shape of the circuit of sweep index [i]: it is built, and it is the
    base circuit, then [i] repetitions of the attack pattern with delay
    [slots(i)], then the measurements of the register, so that it has [i]
    times as many controlled-X gates and delays as there are pairs. *)
Definition has_attack_rounds (spacing : bool) (numQubits initialState : Z)
           (groverOperator : Gate) (i : Z) : Prop :=
  let size := if spacing then numQubits + (numQubits - 3) / 2 else numQubits in
  let pattern :=
    (if spacing then attack_pattern_spacing else attack_pattern)
      numQubits (slots_at i) in
  let pairs := len (range 3 numQubits (if spacing then 3 else 2)) in
  exists base qc,
    base_qc size numQubits initialState groverOperator = Ok base /\
    sweep_circuit spacing numQubits initialState groverOperator i = Ok qc /\
    data qc = data base ++ concat (replicate (Z.to_nat i) pattern)
                        ++ measurements size /\
    count_ops is_cx qc = i * pairs /\
    count_ops is_delay qc = i * pairs.

(** The register has room for every pair the attack rounds touch. *)
Definition pairs_fit (spacing : bool) (numQubits : Z) : Prop :=
  if spacing then numQubits <> 4 else numQubits mod 2 = 1.

(** An instruction that is a measurement. *)
Definition is_measure (ci : CircuitInstruction) : bool :=
  match operation ci with Measure => true | _ => false end.

(** A circuit on a register of [size] qubits and [size] classical bits that
    measures only at its end, and there the whole register: [qc.data] is
    some measurement-free instructions followed by one measurement per
    qubit, qubit [k] into classical bit [k], in register order. *)
Definition measured_at_end (size : Z) (qc : QuantumCircuit) : Prop :=
  num_qubits qc = size /\ num_clbits qc = size /\
  exists body,
    data qc = body ++ measurements size /\
    Forall (fun ci => is_measure ci = false) body.

(** The number of circuits a circuit-adding call appends when it returns. *)
Definition added (c : call) : nat :=
  match c with
  | AddNoAttackCircuit | AddNoAttackPlusDDCircuit => 1
  | AddAttackWithoutMitigationCircuits | AddAttackWithDDCircuits
  | AddAttackWithSpacingCircuits | AddAttackWithDDAndSpacingCircuits => 45
  | RunAllCircuits | CalculateFidelityOfDataQubits => 0
  end.

(** The frame of [runAllCircuits]: every field but the result list is as
    it was. *)
Definition only_result_changes {Props} (self self' : Experiment Props) : Prop :=
  circuits self' = circuits self /\
  fidelities self' = fidelities self /\
  numQubits self' = numQubits self /\
  initialLayout self' = initialLayout self /\
  initialLayoutWithBuffer self' = initialLayoutWithBuffer self /\
  initialState self' = initialState self /\
  ddSequenceType self' = ddSequenceType self /\
  groverOperator self' = groverOperator self /\
  backend self' = backend self.

(** The frame of [calculateFidelityOfDataQubits]: every field but the
    fidelity list is as it was. *)
Definition only_fidelities_change {Props} (self self' : Experiment Props) : Prop :=
  circuits self' = circuits self /\
  result self' = result self /\
  numQubits self' = numQubits self /\
  initialLayout self' = initialLayout self /\
  initialLayoutWithBuffer self' = initialLayoutWithBuffer self /\
  initialState self' = initialState self /\
  ddSequenceType self' = ddSequenceType self /\
  groverOperator self' = groverOperator self /\
  backend self' = backend self.

(** A count dict with every count multiplied by [c]: the same proportions
    from [c] times as many shots. *)
Definition scaled (c : Z) (dist : gmap string Z) : gmap string Z :=
  (fun count => c * count) <$> dist.

(** One round of the loop of [addYGateToTargetBackend] that collects the
    properties of Y from those of X. *)
Definition copy_x {Props} (gm : list (string * gmap (list Z) Props))
           (qubit : Z) (props : gmap (list Z) Props)
  : outcome (gmap (list Z) Props) :=
  xs ← gate_props "x" gm;
  match xs !! [qubit] with
  | Some p => Ok (<[ [qubit] := p ]> props)
  | None => Raise KeyError
  end.

(** The configuration of two objects is the same. *)
Definition same_configuration {Props} (self self' : Experiment Props) : Prop :=
  numQubits self' = numQubits self /\
  initialLayout self' = initialLayout self /\
  initialLayoutWithBuffer self' = initialLayoutWithBuffer self /\
  initialState self' = initialState self /\
  ddSequenceType self' = ddSequenceType self /\
  groverOperator self' = groverOperator self /\
  backend self' = backend self.

(** ** Instances used to exercise the theorems *)

Module Simulated.

(** The raw result of 1024 shots that all read ones on nine qubits, and its
    distribution over the data qubits. *)
Definition all_ones : gmap string Z := {["111111111" := 1024]}.

Definition data_ones : gmap string Z := {["111" := 1024]}.

(** A two-qubit target that knows the X gate. *)
Definition sim_backend : Backend unit :=
  {| target :=
       {| t_num_qubits := 2;
          t_gate_map := [("x", <[ [0] := tt ]> (<[ [1] := tt ]> ∅))] |};
     basis_gates := ["x"; "cx"] |}.

(** Collaborators that schedule every instruction for 35 time units, pad
    nothing, and read all ones on every shot. *)
#[local] Instance sim : Collaborators unit := {|
  transpile qc b layout :=
    Ok (map (fun ci => {| s_name := "op"; s_qubits := qubits ci;
                          s_duration := Some 35 |}) (data qc));
  dd_pm_run t dd qs c := Ok c;
  basis_translate bg c := Ok c;
  sampler_run b pubs := Ok (map (fun _ => all_ones) pubs)
|}.

(** A two-qubit target that knows the X gate on qubit 0 only. *)
Definition partial_backend : Backend unit :=
  {| target :=
       {| t_num_qubits := 2;
          t_gate_map := [("x", <[ [0] := tt ]> ∅)] |};
     basis_gates := ["x"; "cx"] |}.

(** Collaborators whose submission fails. *)
#[local] Instance offline : Collaborators unit := {|
  transpile := transpile (Collaborators := sim);
  dd_pm_run := dd_pm_run (Collaborators := sim);
  basis_translate := basis_translate (Collaborators := sim);
  sampler_run b pubs := Raise (ExternalError "submission failed")
|}.

(** Collaborators whose job returns a result for the first circuit only. *)
#[local] Instance truncating : Collaborators unit := {|
  transpile := transpile (Collaborators := sim);
  dd_pm_run := dd_pm_run (Collaborators := sim);
  basis_translate := basis_translate (Collaborators := sim);
  sampler_run b pubs := Ok (map (fun _ => all_ones) (take 1 pubs))
|}.

(** A raw result with a key and no shots. *)
Definition no_shots : gmap string Z := {["000000000" := 0]}.

(** Collaborators whose job returns one good result and then results
    without shots. *)
#[local] Instance shotless : Collaborators unit := {|
  transpile := transpile (Collaborators := sim);
  dd_pm_run := dd_pm_run (Collaborators := sim);
  basis_translate := basis_translate (Collaborators := sim);
  sampler_run b pubs := Ok (all_ones :: map (fun _ => no_shots) (drop 1 pubs))
|}.

End Simulated.

(** * Properties *)

(** ** Python helpers *)

Lemma range_unit_step (a b : Z) :
  range a b 1 = map (fun j => a + Z.of_nat j) (seq 0 (Z.to_nat (b - a))).
Proof.
  unfold range. replace ((b - a + 1 - 1) / 1) with (b - a) by (rewrite Z.div_1_r; lia).
  apply map_ext. intros j. lia.
Qed.

Lemma elem_of_range_unit_step (a b i : Z) :
  i ∈ range a b 1 <-> a <= i < b.
Proof.
  rewrite range_unit_step, list_elem_of_In, in_map_iff. split.
  - intros (j & <- & Hj). apply in_seq in Hj. lia.
  - intros Hi. exists (Z.to_nat (i - a)). split; [lia |].
    apply in_seq. lia.
Qed.

Lemma forallb_range (f : Z -> bool) (a b i : Z) :
  forallb f (range a b 1) = true -> a <= i < b -> f i = true.
Proof.
  intros Hall Hi. rewrite forallb_forall in Hall. apply Hall.
  apply list_elem_of_In, elem_of_range_unit_step, Hi.
Qed.

(** ** Duration rounding *)

Lemma round_duration_spec (d : Z) :
  round_duration d mod 8 = 0 /\
  d <= round_duration d /\
  round_duration d - d < 8 /\
  (d mod 8 = 0 -> round_duration d = d).
Proof.
  unfold round_duration, truthy.
  pose proof (Z.mod_pos_bound d 8 ltac:(lia)) as Hb.
  pose proof (Z.div_mod d 8 ltac:(lia)) as Hd.
  destruct (Z.eqb_spec (d mod 8) 0) as [E | E]; simpl.
  - repeat split; auto; lia.
  - repeat split; try lia.
    apply Z.mod_mul. lia.
Qed.

Lemma round_durations_lookup (circ_dd circ' : ScheduledCircuit) :
  round_durations circ_dd = Ok circ' ->
  forall (k : nat) item,
    circ_dd !! k = Some item ->
    exists d,
      s_duration item = Some d /\
      circ' !! k = Some {| s_name := s_name item; s_qubits := s_qubits item;
                           s_duration := Some (round_duration d) |}.
Proof.
  revert circ'. induction circ_dd as [| it rest IH]; intros circ' Hr k item Hk.
  - destruct k; discriminate.
  - simpl in Hr. unfold round_item in Hr.
    destruct (s_duration it) as [d |] eqn:Ed; [| discriminate].
    simpl in Hr.
    destruct (round_durations rest) as [rest' | e] eqn:Er; [| discriminate].
    simpl in Hr. injection Hr as <-.
    destruct k as [| k]; simpl in Hk.
    + injection Hk as <-. exists d. split; [exact Ed | reflexivity].
    + simpl. eapply IH; [reflexivity | exact Hk].
Qed.

Lemma round_durations_length (circ_dd circ' : ScheduledCircuit) :
  round_durations circ_dd = Ok circ' -> length circ' = length circ_dd.
Proof.
  revert circ'. induction circ_dd as [| it rest IH]; intros circ' Hr.
  - injection Hr as <-. reflexivity.
  - simpl in Hr. destruct (round_item it); [| discriminate]. simpl in Hr.
    destruct (round_durations rest) as [rest' | e]; [| discriminate].
    simpl in Hr. injection Hr as <-. simpl. f_equal. apply IH. reflexivity.
Qed.

(** C5: after the rounding pass, an instruction whose duration was the
    non-negative integer d has a duration round(d) that is a multiple of 8,
    is at least d and less than d + 8, and equals d when d already is a
    multiple of 8; nothing else of the instruction changes. *)
Theorem rounding_pass_rounds_up (circ_dd circ' : ScheduledCircuit)
        (k : nat) (item : Scheduled) (d : Z) :
  round_durations circ_dd = Ok circ' ->
  circ_dd !! k = Some item ->
  s_duration item = Some d ->
  0 <= d ->
  exists item',
    circ' !! k = Some item' /\
    s_name item' = s_name item /\
    s_qubits item' = s_qubits item /\
    s_duration item' = Some (round_duration d) /\
    round_duration d mod 8 = 0 /\
    d <= round_duration d /\
    round_duration d - d < 8 /\
    (d mod 8 = 0 -> round_duration d = d).
Proof.
  intros Hr Hk Hd _.
  destruct (round_durations_lookup _ _ Hr k item Hk) as (d' & Hd' & Hk').
  assert (d' = d) as -> by congruence.
  eexists. split; [exact Hk' |]. simpl.
  repeat split; apply round_duration_spec.
Qed.

Lemma rounding_pass_rounds_up_witness :
  exists item',
    [ {| s_name := "x"; s_qubits := [4]; s_duration := Some 35 |};
      {| s_name := "cx"; s_qubits := [15; 22]; s_duration := Some 160 |} ]
      !! 0%nat = Some item' /\
    exists item'',
      [ {| s_name := "x"; s_qubits := [4]; s_duration := Some 40 |};
        {| s_name := "cx"; s_qubits := [15; 22]; s_duration := Some 160 |} ]
        !! 0%nat = Some item'' /\
      s_name item'' = s_name item' /\
      s_qubits item'' = s_qubits item' /\
      s_duration item'' = Some (round_duration 35) /\
      round_duration 35 mod 8 = 0 /\
      35 <= round_duration 35 /\
      round_duration 35 - 35 < 8 /\
      (35 mod 8 = 0 -> round_duration 35 = 35).
Proof.
  eexists. split; [reflexivity |].
  apply (rounding_pass_rounds_up
           [ {| s_name := "x"; s_qubits := [4]; s_duration := Some 35 |};
             {| s_name := "cx"; s_qubits := [15; 22]; s_duration := Some 160 |} ]
           _ 0%nat _ 35); [reflexivity | reflexivity | reflexivity | lia].
Defined.

(** ** The schedule of the idle delay *)

Lemma slots_before_succ (i : Z) :
  0 <= i -> slots_before (i + 1) = slots_at i.
Proof.
  intros Hi. unfold slots_at, slots_before.
  rewrite !range_unit_step.
  replace (Z.to_nat (i + 1 - 0)) with (S (Z.to_nat (i - 0))) by lia.
  rewrite seq_S, map_app, fold_left_app. simpl.
  f_equal. lia.
Qed.

Lemma slots_before_0 : slots_before 0 = 8%Q.
Proof. reflexivity. Qed.

Lemma slots_at_schedule (i : Z) :
  0 <= i < 45 -> (slots_at i == schedule i)%Q.
Proof.
  intros Hi. apply Qeq_bool_iff.
  apply (forallb_range (fun i => Qeq_bool (slots_at i) (schedule i)) 0 45 i);
    [vm_compute; reflexivity | exact Hi].
Qed.

Lemma nonincreasing_except_sound (excluded : Z -> Z -> bool) (i j : Z) :
  nonincreasing_except excluded = true ->
  0 <= i -> i <= j -> j < 45 ->
  excluded i j = false ->
  (slots_at j <= slots_at i)%Q.
Proof.
  intros Hall Hi Hij Hj Hex. unfold nonincreasing_except in Hall.
  pose proof (forallb_range _ 0 45 i Hall ltac:(lia)) as Hrow. simpl in Hrow.
  pose proof (forallb_range _ i 45 j Hrow ltac:(lia)) as Hcell. simpl in Hcell.
  rewrite Hex in Hcell. simpl in Hcell.
  apply Qle_bool_iff, Hcell.
Qed.

(** C7, as the code has it: over the sweep indices 0..44 the delay never
    increases from an index i to a later index j, except from an index of
    15..19 (delay 0.5) to an index of 20..24 (delay 0.75). *)
Theorem slots_nonincreasing_but_for_rise (i j : Z) :
  0 <= i -> i <= j -> j < 45 ->
  ~ (15 <= i < 20 /\ 20 <= j < 25) ->
  (slots_at j <= slots_at i)%Q.
Proof.
  intros Hi Hij Hj Hno.
  apply (nonincreasing_except_sound rise); try assumption.
  - vm_compute. reflexivity.
  - unfold rise. lia.
Qed.

Lemma slots_nonincreasing_but_for_rise_witness :
  (slots_at 30 <= slots_at 17)%Q.
Proof.
  apply (slots_nonincreasing_but_for_rise 17 30); lia.
Defined.

(** C7 as stated fails: the delay at index 20 is larger than at index 15. *)
Lemma slots_not_monotone :
  ~ (forall i j : Z, 0 <= i -> i <= j -> j < 45 ->
       (slots_at j <= slots_at i)%Q).
Proof.
  intros Hmono.
  specialize (Hmono 15 20 ltac:(lia) ltac:(lia) ltac:(lia)).
  revert Hmono. vm_compute. intros H. apply H. reflexivity.
Qed.

(** ** The loop of the attack methods *)

Section Sweep.
Context {Props : Type} {collaborators : Collaborators Props}.

Lemma with_circuits_same (self : Experiment Props) :
  with_circuits self (circuits self) = self.
Proof. destruct self. reflexivity. Qed.

Lemma with_circuits_twice (self : Experiment Props) cs cs' :
  with_circuits (with_circuits self cs) cs' = with_circuits self cs'.
Proof. reflexivity. Qed.

Lemma forM_round
      (build : Experiment Props -> Z -> Q -> outcome (Q * ScheduledCircuit))
      indices slots self :
  (forall e cs, build (with_circuits e cs) = build e) ->
  forM indices (sweep_round build) slots self =
  (snd (sweep (build self) indices slots),
   with_circuits self (circuits self ++ fst (sweep (build self) indices slots))).
Proof.
  intros Hb. revert slots self.
  induction indices as [| i rest IH]; intros slots self.
  - simpl. rewrite app_nil_r, with_circuits_same. reflexivity.
  - simpl. unfold mbind, M_bind. unfold sweep_round at 1.
    unfold mbind, M_bind, get, lift.
    destruct (build self i slots) as [[slots' c] | e] eqn:Eb.
    + simpl. rewrite IH. rewrite Hb.
      destruct (sweep (build self) rest slots') as [cs o]. simpl.
      rewrite <- app_assoc. reflexivity.
    + simpl. rewrite app_nil_r, with_circuits_same. reflexivity.
Qed.

Lemma sweep_lookup (build' : Z -> Q -> outcome (Q * ScheduledCircuit)) :
  (forall i s s' c, build' i s = Ok (s', c) -> s' = next_slots i s) ->
  forall indices slots (k : nat) c,
    fst (sweep build' indices slots) !! k = Some c ->
    exists i,
      indices !! k = Some i /\
      build' i (fold_left (fun s j => next_slots j s) (take k indices) slots)
      = Ok (next_slots i
              (fold_left (fun s j => next_slots j s) (take k indices) slots),
            c).
Proof.
  intros Hs. induction indices as [| i rest IH]; intros slots k c Hk.
  - destruct k; discriminate.
  - simpl in Hk. destruct (build' i slots) as [[s' c0] | e] eqn:Eb.
    + pose proof (Hs _ _ _ _ Eb) as ->.
      destruct (sweep build' rest (next_slots i slots)) as [cs o] eqn:Es.
      destruct k as [| k]; simpl in Hk.
      * injection Hk as <-. exists i. split; [reflexivity | exact Eb].
      * specialize (IH (next_slots i slots) k c). rewrite Es in IH.
        destruct (IH Hk) as (i' & Hi' & Hb'). exists i'. split; assumption.
    + destruct k; discriminate.
Qed.

Lemma sweep_length (build' : Z -> Q -> outcome (Q * ScheduledCircuit)) :
  forall indices slots,
    (length (fst (sweep build' indices slots)) <= length indices)%nat /\
    (is_ok (snd (sweep build' indices slots)) = true ->
     length (fst (sweep build' indices slots)) = length indices).
Proof.
  induction indices as [| i rest IH]; intros slots; simpl.
  - split; auto.
  - destruct (build' i slots) as [[s' c0] | e]; simpl.
    + specialize (IH s'). destruct (sweep build' rest s') as [cs o]. simpl in *.
      split; [lia |]. intros Ho. f_equal. apply IH, Ho.
    + split; [lia | discriminate].
Qed.

Lemma range_lookup (n : Z) (k : nat) (i : Z) :
  range 0 n 1 !! k = Some i -> i = Z.of_nat k /\ take k (range 0 n 1) = range 0 i 1.
Proof.
  rewrite !range_unit_step. intros Hk.
  rewrite list_lookup_fmap in Hk.
  destruct (seq 0 (Z.to_nat (n - 0)) !! k) as [j |] eqn:Ej; [| discriminate].
  apply lookup_seq in Ej as [-> Hlt]. simpl in Hk. injection Hk as <-.
  split; [lia |].
  rewrite <- fmap_take, take_seq.
  f_equal. f_equal. lia.
Qed.

Lemma forM_round_sweeps
      (build : Experiment Props -> Z -> Q -> outcome (Q * ScheduledCircuit)) :
  (forall e cs, build (with_circuits e cs) = build e) ->
  (forall e i s s' c, build e i s = Ok (s', c) -> s' = next_slots i s) ->
  sweeps (_ ← forM (range 0 45 1) (sweep_round build) 8%Q; mret tt) build.
Proof.
  intros Hb Hs self.
  exists (fst (sweep (build self) (range 0 45 1) 8%Q)).
  unfold mbind, M_bind.
  rewrite (forM_round build _ _ _ Hb).
  pose proof (sweep_length (build self) (range 0 45 1) 8%Q) as [Hle Hok].
  pose proof (sweep_lookup (build self) (Hs self) (range 0 45 1) 8%Q) as Hlk.
  change (length (range 0 45 1)) with 45%nat in *.
  destruct (sweep (build self) (range 0 45 1) 8%Q) as [cs o].
  cbn [fst snd] in *.
  repeat split.
  - destruct o; reflexivity.
  - exact Hle.
  - intros Ho. apply Hok. destruct o; [reflexivity | discriminate].
  - intros k c Hk. destruct (Hlk k c Hk) as (i & Hi & Hbuild).
    apply range_lookup in Hi as [-> Ht]. rewrite Ht in Hbuild.
    exact Hbuild.
Qed.

Lemma attack_qc_slots n st g i s s' qc :
  attack_qc n st g i s = Ok (s', qc) -> s' = next_slots i s.
Proof.
  unfold attack_qc. intros Hq.
  repeat match type of Hq with
         | (?o ≫= _) = _ => destruct o; simpl in Hq; [| discriminate]
         end.
  congruence.
Qed.

Lemma attack_spacing_qc_slots n st g i s s' qc :
  attack_spacing_qc n st g i s = Ok (s', qc) -> s' = next_slots i s.
Proof.
  unfold attack_spacing_qc. intros Hq.
  repeat match type of Hq with
         | (?o ≫= _) = _ => destruct o; simpl in Hq; [| discriminate]
         end.
  congruence.
Qed.

Ltac build_slots lem :=
  let Hq := fresh "Hq" in
  intros ? ? ? ? ? Hq;
  match type of Hq with
  | (?o ≫= _) = _ =>
      let E := fresh "E" in
      destruct o as [[? ?] |] eqn:E; simpl in Hq; [| discriminate];
      apply lem in E; subst
  end;
  repeat match type of Hq with
         | (?o ≫= _) = _ => destruct o; simpl in Hq; [| discriminate]
         end;
  congruence.

Lemma without_mitigation_sweeps :
  sweeps addAttackWithoutMitigationCircuits build_without_mitigation.
Proof.
  apply (forM_round_sweeps build_without_mitigation); [reflexivity |].
  unfold build_without_mitigation. build_slots attack_qc_slots.
Qed.

Lemma with_dd_sweeps :
  sweeps addAttackWithDDCircuits build_with_dd.
Proof.
  apply (forM_round_sweeps build_with_dd); [reflexivity |].
  unfold build_with_dd. build_slots attack_qc_slots.
Qed.

Lemma with_spacing_sweeps :
  sweeps addAttackWithSpacingCircuits build_with_spacing.
Proof.
  apply (forM_round_sweeps build_with_spacing); [reflexivity |].
  unfold build_with_spacing. build_slots attack_spacing_qc_slots.
Qed.

Lemma with_dd_and_spacing_sweeps :
  sweeps addAttackWithDDAndSpacingCircuits build_with_dd_and_spacing.
Proof.
  apply (forM_round_sweeps build_with_dd_and_spacing); [reflexivity |].
  unfold build_with_dd_and_spacing. build_slots attack_spacing_qc_slots.
Qed.

End Sweep.

(** C6: at every sweep index i of 0..44 the delay is 4 on [0,5), 2 on [5,10),
    1 on [10,15), 0.5 on [15,20), 0.75 on [20,25), 0.5 on [25,30), 0.05 on
    [30,35) and 0.025 from 35 on; and each of the four attack methods builds
    the circuit of index i from the value of [slots] that the rounds before
    left, with that delay as the value of [slots] in it. *)
Theorem slots_follow_schedule {Props : Type} {collaborators : Collaborators Props}
        (i : Z) :
  0 <= i < 45 ->
  (slots_at i == schedule i)%Q /\
  sweeps addAttackWithoutMitigationCircuits build_without_mitigation /\
  sweeps addAttackWithDDCircuits build_with_dd /\
  sweeps addAttackWithSpacingCircuits build_with_spacing /\
  sweeps addAttackWithDDAndSpacingCircuits build_with_dd_and_spacing.
Proof.
  intros Hi. split; [apply slots_at_schedule, Hi |].
  repeat split.
  - apply without_mitigation_sweeps.
  - apply with_dd_sweeps.
  - apply with_spacing_sweeps.
  - apply with_dd_and_spacing_sweeps.
Qed.

Lemma slots_follow_schedule_witness :
  (slots_at 22 == 0.75)%Q /\
  sweeps (addAttackWithoutMitigationCircuits (collaborators := Simulated.sim))
         (build_without_mitigation (collaborators := Simulated.sim)) /\
  sweeps (addAttackWithDDCircuits (collaborators := Simulated.sim))
         (build_with_dd (collaborators := Simulated.sim)) /\
  sweeps (addAttackWithSpacingCircuits (collaborators := Simulated.sim))
         (build_with_spacing (collaborators := Simulated.sim)) /\
  sweeps (addAttackWithDDAndSpacingCircuits (collaborators := Simulated.sim))
         (build_with_dd_and_spacing (collaborators := Simulated.sim)).
Proof.
  apply (slots_follow_schedule (collaborators := Simulated.sim) 22). lia.
Defined.

(** ** The circuits of the attack sweep *)

Lemma extend_extend qc a b : extend (extend qc a) b = extend qc (a ++ b).
Proof. unfold extend. simpl. rewrite app_assoc. reflexivity. Qed.

Lemma extend_nil qc : extend qc [] = qc.
Proof. destruct qc. unfold extend. simpl. rewrite app_nil_r. reflexivity. Qed.

Lemma index_in_range (size k : Z) : 0 <= k < size -> index size k = Ok k.
Proof.
  intros Hk. unfold index.
  destruct (Z.leb_spec 0 k); [| lia]. destruct (Z.ltb_spec k size); [| lia].
  reflexivity.
Qed.

Lemma index_out_of_range (size k : Z) :
  0 <= size <= k -> index size k = Raise IndexError.
Proof.
  intros Hk. unfold index.
  destruct (Z.leb_spec 0 k); [| lia]. destruct (Z.ltb_spec k size); [lia |].
  destruct (Z.leb_spec (- size) k); [| lia]. destruct (Z.ltb_spec k 0); [lia |].
  reflexivity.
Qed.

Lemma h_ok (k : Z) (qc : QuantumCircuit) :
  0 <= k < num_qubits qc -> h k qc = Ok (extend qc [instr (Std HGate) [k]]).
Proof.
  intros Hk. unfold h, qubit. rewrite index_in_range by exact Hk. reflexivity.
Qed.

Lemma x_ok (k : Z) (qc : QuantumCircuit) :
  0 <= k < num_qubits qc -> x k qc = Ok (extend qc [instr (Std XGate) [k]]).
Proof.
  intros Hk. unfold x, qubit. rewrite index_in_range by exact Hk. reflexivity.
Qed.

Lemma delay_ok (slots : Q) (k : Z) (qc : QuantumCircuit) :
  0 <= k < num_qubits qc ->
  delay slots k qc = Ok (extend qc [instr (Delay slots "us") [k]]).
Proof.
  intros Hk. unfold delay, qubit. rewrite index_in_range by exact Hk.
  reflexivity.
Qed.

Lemma append3_ok (g : Gate) (qc : QuantumCircuit) :
  3 <= num_qubits qc -> append3 g qc = Ok (extend qc [instr g [0; 1; 2]]).
Proof.
  intros Hn. unfold append3, qubit. rewrite !index_in_range by lia.
  reflexivity.
Qed.

Lemma cx_ok (c t : Z) (qc : QuantumCircuit) :
  0 <= c < num_qubits qc -> 0 <= t < num_qubits qc ->
  cx c t qc = Ok (extend qc [instr (Std CXGate) [c; t]]).
Proof.
  intros Hc Ht. unfold cx, qubit. rewrite !index_in_range by assumption.
  reflexivity.
Qed.

Lemma for_each_extend {A} (pattern : A -> list CircuitInstruction)
      (body : A -> QuantumCircuit -> outcome QuantumCircuit) (ks : list A) :
  forall qc,
    (forall k qc', k ∈ ks -> num_qubits qc' = num_qubits qc ->
                   body k qc' = Ok (extend qc' (pattern k))) ->
    for_each ks body qc = Ok (extend qc (flat_map pattern ks)).
Proof.
  induction ks as [| k rest IH]; intros qc Hbody.
  - simpl. rewrite extend_nil. reflexivity.
  - simpl. rewrite Hbody by (try reflexivity; left). simpl.
    rewrite IH.
    + rewrite extend_extend. reflexivity.
    + intros k' qc' Hk' Hn. apply Hbody; [right; exact Hk' | exact Hn].
Qed.

Lemma elem_of_range (start stop step k : Z) :
  0 < step -> k ∈ range start stop step -> start <= k < stop.
Proof.
  intros Hstep Hk. unfold range in Hk.
  apply list_elem_of_In, in_map_iff in Hk as (j & <- & Hj).
  apply in_seq in Hj.
  assert (Z.of_nat j < (stop - start + step - 1) / step) as Hlt by lia.
  assert (Z.of_nat j + 1 <= (stop - start + step - 1) / step) as Hle by lia.
  pose proof (Z.mul_div_le (stop - start + step - 1) step Hstep).
  nia.
Qed.

Lemma elem_of_range_odd (stop k : Z) :
  k ∈ range 3 stop 2 -> k mod 2 = 1.
Proof.
  intros Hk. unfold range in Hk.
  apply list_elem_of_In, in_map_iff in Hk as (j & <- & _).
  replace (3 + 2 * Z.of_nat j) with (1 + (Z.of_nat j + 1) * 2) by lia.
  rewrite Z.mod_add by lia. reflexivity.
Qed.

Lemma elem_of_range_stride3 (stop k : Z) :
  k ∈ range 3 stop 3 -> k mod 3 = 0.
Proof.
  intros Hk. unfold range in Hk.
  apply list_elem_of_In, in_map_iff in Hk as (j & <- & _).
  replace (3 + 3 * Z.of_nat j) with (0 + (Z.of_nat j + 1) * 3) by lia.
  rewrite Z.mod_add by lia. reflexivity.
Qed.

Lemma prepare_ok (st n : Z) (qc : QuantumCircuit) :
  n <= num_qubits qc ->
  exists more,
    prepare st n qc = Ok (extend qc more) /\
    Forall (fun ci => is_cx ci = false /\ is_delay ci = false) more.
Proof.
  intros Hn. unfold prepare.
  destruct (st =? 1).
  - exists (flat_map (fun k => [instr (Std XGate) [k]]) (range 3 n 2)). split.
    + apply for_each_extend. intros k qc' Hk Hq.
      apply x_ok. apply elem_of_range in Hk; lia.
    + apply Forall_forall. intros ci Hci.
      apply list_elem_of_In, in_flat_map in Hci as (k & _ & [<- | []]). split; reflexivity.
  - destruct (st =? 2).
    + exists (flat_map (fun k => [instr (Std HGate) [k]]) (range 3 n 2)). split.
      * apply for_each_extend. intros k qc' Hk Hq.
        apply h_ok. apply elem_of_range in Hk; lia.
      * apply Forall_forall. intros ci Hci.
        apply list_elem_of_In, in_flat_map in Hci as (k & _ & [<- | []]). split; reflexivity.
    + exists []. rewrite extend_nil. split; [reflexivity | constructor].
Qed.

Lemma grover_twice_ok (qc : QuantumCircuit) :
  3 <= num_qubits qc ->
  exists more,
    grover_twice createGroverOperator qc = Ok (extend qc more) /\
    Forall (fun ci => is_cx ci = false /\ is_delay ci = false) more.
Proof.
  intros Hn. unfold grover_twice.
  rewrite h_ok by lia. simpl.
  rewrite h_ok by (simpl; lia). simpl.
  rewrite h_ok by (simpl; lia). simpl.
  rewrite append3_ok by (simpl; lia). simpl.
  rewrite append3_ok by (simpl; lia).
  rewrite !extend_extend. eexists. split; [reflexivity |].
  simpl. repeat constructor.
Qed.

Lemma base_qc_ok (size n st : Z) :
  3 <= n -> n <= size ->
  exists base,
    base_qc size n st createGroverOperator = Ok base /\
    num_qubits base = size /\ num_clbits base = size /\
    Forall (fun ci => is_cx ci = false /\ is_delay ci = false) (data base).
Proof.
  intros Hn Hs. unfold base_qc, new_circuit.
  destruct (Z.ltb_spec size 0); [lia |]. simpl.
  destruct (prepare_ok st n {| num_qubits := size; num_clbits := size; data := [] |})
    as (m1 & -> & F1); [simpl; lia |]. simpl.
  destruct (grover_twice_ok
              (extend {| num_qubits := size; num_clbits := size; data := [] |} m1))
    as (m2 & -> & F2); [simpl; lia |].
  eexists. split; [reflexivity |]. simpl. repeat split.
  apply Forall_app. split; assumption.
Qed.

Lemma flat_map_const {A B} (l : list B) (ks : list A) :
  flat_map (fun _ => l) ks = concat (replicate (length ks) l).
Proof. induction ks as [| k rest IH]; simpl; [| rewrite IH]; reflexivity. Qed.

Lemma length_range_unit_step (i : Z) : length (range 0 i 1) = Z.to_nat i.
Proof.
  rewrite range_unit_step. rewrite length_map, length_seq. f_equal. lia.
Qed.

Lemma rounds_ok (i : Z) (pattern : list CircuitInstruction)
      (body : QuantumCircuit -> outcome QuantumCircuit) (qc : QuantumCircuit) :
  (i <= 0 \/
   forall qc', num_qubits qc' = num_qubits qc -> body qc' = Ok (extend qc' pattern)) ->
  for_each (range 0 i 1) (fun _ => body) qc
  = Ok (extend qc (concat (replicate (Z.to_nat i) pattern))).
Proof.
  intros Hb.
  rewrite <- length_range_unit_step, <- flat_map_const.
  apply for_each_extend. intros k qc' Hk Hq.
  destruct Hb as [Hi | Hb]; [| apply Hb, Hq].
  apply elem_of_range_unit_step in Hk. lia.
Qed.

Lemma attack_ok (i n : Z) (slots : Q) (qc : QuantumCircuit) :
  i <= 0 \/ (n mod 2 = 1 /\ n <= num_qubits qc) ->
  attack i n slots qc
  = Ok (extend qc (concat (replicate (Z.to_nat i) (attack_pattern n slots)))).
Proof.
  intros Hfit. unfold attack. apply rounds_ok.
  destruct Hfit as [Hi | [Hodd Hn]]; [left; exact Hi | right].
  intros qc' Hq. apply for_each_extend. intros k qc'' Hk Hq'.
  pose proof (elem_of_range 3 n 2 k ltac:(lia) Hk) as Hr.
  pose proof (elem_of_range_odd _ _ Hk) as Hko.
  assert (k + 1 < n) by (Z.div_mod_to_equations; lia).
  rewrite cx_ok by lia. simpl.
  rewrite delay_ok by (simpl; lia).
  rewrite extend_extend. reflexivity.
Qed.

Lemma attack_spacing_ok (i n : Z) (slots : Q) (qc : QuantumCircuit) :
  i <= 0 \/ (3 <= n /\ n <> 4 /\ n + (n - 3) / 2 <= num_qubits qc) ->
  attack_spacing i n slots qc
  = Ok (extend qc
          (concat (replicate (Z.to_nat i) (attack_pattern_spacing n slots)))).
Proof.
  intros Hfit. unfold attack_spacing. apply rounds_ok.
  destruct Hfit as [Hi | (Hn3 & Hn4 & Hn)]; [left; exact Hi | right].
  intros qc' Hq. apply for_each_extend. intros k qc'' Hk Hq'.
  pose proof (elem_of_range 3 n 3 k ltac:(lia) Hk) as Hr.
  pose proof (elem_of_range_stride3 _ _ Hk) as Hk3.
  assert (k + 2 < n + (n - 3) / 2) by (Z.div_mod_to_equations; lia).
  rewrite cx_ok by lia. simpl.
  rewrite delay_ok by (simpl; lia).
  rewrite extend_extend. reflexivity.
Qed.

Lemma attack_qc_from_base (n st : Z) (g : Gate) (i : Z) (s : Q) :
  attack_qc n st g i s =
  (base ← base_qc n n st g;
   qc ← attack i n (next_slots i s) base;
   qc ← measure_all qc;
   Ok (next_slots i s, qc)).
Proof.
  unfold attack_qc, base_qc.
  destruct (new_circuit n n) as [q0 |]; [simpl | reflexivity].
  destruct (prepare st n q0) as [q1 |]; [simpl | reflexivity].
  destruct (grover_twice g q1) as [q2 |]; reflexivity.
Qed.

Lemma attack_spacing_qc_from_base (n st : Z) (g : Gate) (i : Z) (s : Q) :
  attack_spacing_qc n st g i s =
  (base ← base_qc (n + (n - 3) / 2) n st g;
   qc ← attack_spacing i n (next_slots i s) base;
   qc ← measure_all qc;
   Ok (next_slots i s, qc)).
Proof.
  unfold attack_spacing_qc, base_qc.
  destruct (new_circuit _ _) as [q0 |]; [simpl | reflexivity].
  destruct (prepare st n q0) as [q1 |]; [simpl | reflexivity].
  destruct (grover_twice g q1) as [q2 |]; reflexivity.
Qed.

Lemma measure_all_ok (qc : QuantumCircuit) (size : Z) :
  num_qubits qc = size -> num_clbits qc = size ->
  measure_all qc = Ok (extend qc (measurements size)).
Proof.
  intros Hq Hc. unfold measure_all. rewrite Hq, Hc, Z.eqb_refl. reflexivity.
Qed.

Lemma filter_none (f : CircuitInstruction -> bool) (l : list CircuitInstruction) :
  Forall (fun ci => f ci = false) l -> filter (fun ci => f ci = true) l = [].
Proof.
  induction 1 as [| ci l Hci _ IH]; [reflexivity |].
  rewrite filter_cons_False by congruence. exact IH.
Qed.

Lemma length_filter_rounds (f : CircuitInstruction -> bool) (m : nat)
      (pattern : list CircuitInstruction) :
  length (filter (fun ci => f ci = true) (concat (replicate m pattern)))
  = (m * length (filter (fun ci => f ci = true) pattern))%nat.
Proof.
  induction m as [| m IH]; [reflexivity |].
  simpl. rewrite filter_app, length_app, IH. reflexivity.
Qed.

Lemma length_filter_pairs (f : CircuitInstruction -> bool)
      (a b : Z -> CircuitInstruction) (ks : list Z) :
  (forall k, f (a k) = true) -> (forall k, f (b k) = false) ->
  length (filter (fun ci => f ci = true) (flat_map (fun k => [a k; b k]) ks))
  = length ks /\
  length (filter (fun ci => f ci = true) (flat_map (fun k => [b k; a k]) ks))
  = length ks.
Proof.
  intros Ha Hb. induction ks as [| k rest [IH1 IH2]]; [split; reflexivity |].
  simpl. split.
  - rewrite filter_cons_True by apply Ha.
    rewrite filter_cons_False by (rewrite Hb; discriminate).
    simpl. f_equal. exact IH1.
  - rewrite filter_cons_False by (rewrite Hb; discriminate).
    rewrite filter_cons_True by apply Ha.
    simpl. f_equal. exact IH2.
Qed.

Lemma measurements_not (f : CircuitInstruction -> bool) (size : Z) :
  (forall k, f (measure_instr k) = false) ->
  Forall (fun ci => f ci = false) (measurements size).
Proof.
  intros Hf. unfold measurements. apply Forall_map, Forall_forall.
  intros k _. apply Hf.
Qed.

Lemma count_ops_rounds (f : CircuitInstruction -> bool) (base : QuantumCircuit)
      (i : Z) (pattern : list CircuitInstruction) (pairs : Z)
      (ms : list CircuitInstruction) :
  0 <= i ->
  Forall (fun ci => f ci = false) (data base) ->
  Forall (fun ci => f ci = false) ms ->
  len (filter (fun ci => f ci = true) pattern) = pairs ->
  count_ops f (extend (extend base (concat (replicate (Z.to_nat i) pattern))) ms)
  = i * pairs.
Proof.
  intros Hi Hbase Hm Hp. unfold count_ops, len in *. simpl.
  rewrite !filter_app, !length_app.
  rewrite (filter_none f (data base)) by exact Hbase.
  rewrite (filter_none f ms) by exact Hm.
  rewrite length_filter_rounds. simpl. nia.
Qed.

Lemma has_attack_rounds_without_spacing (n st i : Z) :
  3 <= n -> 0 <= i -> i = 0 \/ n mod 2 = 1 ->
  has_attack_rounds false n st createGroverOperator i.
Proof.
  intros Hn Hi Hfit. unfold has_attack_rounds.
  destruct (base_qc_ok n n st Hn ltac:(lia)) as (base & Hb & Hq & Hc & F).
  exists base. eexists. split; [exact Hb |]. split.
  { unfold sweep_circuit. rewrite attack_qc_from_base, Hb. simpl.
    rewrite attack_ok by (destruct Hfit; [left | right]; lia). simpl.
    rewrite (measure_all_ok _ n) by (simpl; assumption). simpl.
    reflexivity. }
  split; [simpl; rewrite <- app_assoc; reflexivity |].
  fold (slots_at i).
  split; apply count_ops_rounds; try exact Hi;
    try (apply measurements_not; reflexivity); try reflexivity.
  - eapply Forall_impl; [exact F |]. intros ci [H1 _]. exact H1.
  - unfold len. f_equal.
    apply (length_filter_pairs is_cx
             (fun k => instr (Std CXGate) [k; k + 1])
             (fun k => instr (Delay (slots_at i) "us") [k]));
      reflexivity.
  - eapply Forall_impl; [exact F |]. intros ci [_ H2]. exact H2.
  - unfold len. f_equal.
    apply (length_filter_pairs is_delay
             (fun k => instr (Delay (slots_at i) "us") [k])
             (fun k => instr (Std CXGate) [k; k + 1]));
      reflexivity.
Qed.

Lemma has_attack_rounds_with_spacing (n st i : Z) :
  3 <= n -> 0 <= i -> i = 0 \/ n <> 4 ->
  has_attack_rounds true n st createGroverOperator i.
Proof.
  intros Hn Hi Hfit. unfold has_attack_rounds.
  assert (n <= n + (n - 3) / 2) as Hsize by (Z.div_mod_to_equations; lia).
  destruct (base_qc_ok (n + (n - 3) / 2) n st Hn Hsize)
    as (base & Hb & Hq & Hc & F).
  exists base. eexists. split; [exact Hb |]. split.
  { unfold sweep_circuit. rewrite attack_spacing_qc_from_base, Hb. simpl.
    rewrite attack_spacing_ok by (destruct Hfit; [left | right]; lia). simpl.
    rewrite (measure_all_ok _ (n + (n - 3) / 2)) by (simpl; assumption). simpl.
    reflexivity. }
  split; [simpl; rewrite <- app_assoc; reflexivity |].
  fold (slots_at i).
  split; apply count_ops_rounds; try exact Hi;
    try (apply measurements_not; reflexivity); try reflexivity.
  - eapply Forall_impl; [exact F |]. intros ci [H1 _]. exact H1.
  - unfold len. f_equal.
    apply (length_filter_pairs is_cx
             (fun k => instr (Std CXGate) [k + 1; k + 2])
             (fun k => instr (Delay (slots_at i) "us") [k + 1]));
      reflexivity.
  - eapply Forall_impl; [exact F |]. intros ci [_ H2]. exact H2.
  - unfold len. f_equal.
    apply (length_filter_pairs is_delay
             (fun k => instr (Delay (slots_at i) "us") [k + 1])
             (fun k => instr (Std CXGate) [k + 1; k + 2]));
      reflexivity.
Qed.

(** C8, as the code has it: for numQubits >= 3 and a sweep index i of 0..44,
    when i = 0 or the register has room for every pair (numQubits odd
    without spacing, numQubits other than 4 with spacing), the circuit of
    index i is the base circuit followed by exactly i repetitions of the
    attack pattern with delay slots(i) and by the measurement, and has i
    times as many controlled-X gates and delays as there are pairs. *)
Theorem attack_circuit_has_rounds (spacing : bool) (numQubits initialState i : Z) :
  3 <= numQubits ->
  0 <= i < 45 ->
  i = 0 \/ pairs_fit spacing numQubits ->
  has_attack_rounds spacing numQubits initialState createGroverOperator i.
Proof.
  intros Hn Hi Hfit. destruct spacing.
  - apply has_attack_rounds_with_spacing; [exact Hn | lia | exact Hfit].
  - apply has_attack_rounds_without_spacing; [exact Hn | lia | exact Hfit].
Qed.

Lemma attack_circuit_has_rounds_witness :
  has_attack_rounds false 9 0 createGroverOperator 7 /\
  has_attack_rounds true 9 1 createGroverOperator 44.
Proof.
  split.
  - apply (attack_circuit_has_rounds false 9 0 7); [lia | lia |].
    right. reflexivity.
  - apply (attack_circuit_has_rounds true 9 1 44); [lia | lia |].
    right. simpl. lia.
Defined.

(** C8 as stated fails: with four qubits and no spacing the round of index 1
    reads qubit 4 of a four-qubit register, and no circuit is built. *)
Lemma attack_circuit_missing_for_even_numQubits :
  3 <= 4 /\ 0 <= 1 < 45 /\
  sweep_circuit false 4 0 createGroverOperator 1 = Raise IndexError /\
  ~ has_attack_rounds false 4 0 createGroverOperator 1.
Proof.
  assert (sweep_circuit false 4 0 createGroverOperator 1 = Raise IndexError)
    as Hraise by (vm_compute; reflexivity).
  repeat split; try lia; try exact Hraise.
  intros (base & qc & _ & Hq & _). rewrite Hraise in Hq. discriminate.
Qed.

(** ** The frame of the methods *)

Section Frame.
Context {Props : Type} {collaborators : Collaborators Props}.

Lemma with_circuits_only_appends (self : Experiment Props) new :
  only_appends self (with_circuits self (circuits self ++ new)).
Proof. unfold only_appends. simpl. repeat split. exists new. reflexivity. Qed.

Lemma sweeps_only_appends (method : M Props unit) build (self : Experiment Props) :
  sweeps method build -> only_appends self (snd (method self)).
Proof.
  intros Hs. destruct (Hs self) as (new & -> & _).
  apply with_circuits_only_appends.
Qed.

Lemma append_or_raise_only_appends (o : outcome ScheduledCircuit)
      (self : Experiment Props) :
  only_appends self (snd ((c ← lift o; append_circuit c) self)).
Proof.
  unfold mbind, M_bind, lift. destruct o as [c | e]; simpl.
  - apply with_circuits_only_appends.
  - rewrite <- (with_circuits_same self) at 2.
    rewrite <- (app_nil_r (circuits self)) at 1.
    apply with_circuits_only_appends.
Qed.

Lemma addNoAttackCircuit_only_appends (self : Experiment Props) :
  only_appends self (snd (addNoAttackCircuit self)).
Proof.
  unfold addNoAttackCircuit. unfold mbind at 1, M_bind at 1, get.
  apply append_or_raise_only_appends.
Qed.

Lemma addNoAttackPlusDDCircuit_only_appends (self : Experiment Props) :
  only_appends self (snd (addNoAttackPlusDDCircuit self)).
Proof.
  unfold addNoAttackPlusDDCircuit. unfold mbind at 1, M_bind at 1, get.
  apply append_or_raise_only_appends.
Qed.

(** C10: each of the six circuit-building methods, whether it returns or
    raises, leaves the object with its circuit list extended at the end and
    with the result list, the fidelity list, the circuits already there and
    every configuration field as they were. *)
Theorem circuit_builders_only_append (self : Experiment Props) :
  only_appends self (snd (addNoAttackCircuit self)) /\
  only_appends self (snd (addNoAttackPlusDDCircuit self)) /\
  only_appends self (snd (addAttackWithoutMitigationCircuits self)) /\
  only_appends self (snd (addAttackWithDDCircuits self)) /\
  only_appends self (snd (addAttackWithSpacingCircuits self)) /\
  only_appends self (snd (addAttackWithDDAndSpacingCircuits self)).
Proof.
  refine (conj _ (conj _ (conj _ (conj _ (conj _ _))))).
  - apply addNoAttackCircuit_only_appends.
  - apply addNoAttackPlusDDCircuit_only_appends.
  - exact (sweeps_only_appends _ _ self without_mitigation_sweeps).
  - exact (sweeps_only_appends _ _ self with_dd_sweeps).
  - exact (sweeps_only_appends _ _ self with_spacing_sweeps).
  - exact (sweeps_only_appends _ _ self with_dd_and_spacing_sweeps).
Qed.

Lemma do_call_add_only_appends (c : call) (self : Experiment Props) :
  is_add c = true -> only_appends self (snd (do_call c self)).
Proof.
  destruct c; simpl; intros Hc; try discriminate.
  - apply addNoAttackCircuit_only_appends.
  - apply addNoAttackPlusDDCircuit_only_appends.
  - exact (sweeps_only_appends _ _ self without_mitigation_sweeps).
  - exact (sweeps_only_appends _ _ self with_dd_sweeps).
  - exact (sweeps_only_appends _ _ self with_spacing_sweeps).
  - exact (sweeps_only_appends _ _ self with_dd_and_spacing_sweeps).
Qed.

End Frame.

(** ** Running and scoring *)

Section Pipeline.
Context {Props : Type} {collaborators : Collaborators Props}.

Lemma with_result_same (self : Experiment Props) :
  with_result self (result self) = self.
Proof. destruct self. reflexivity. Qed.

Lemma with_fidelities_same (self : Experiment Props) :
  with_fidelities self (fidelities self) = self.
Proof. destruct self. reflexivity. Qed.

Lemma getitem_ok {A} (xs : list A) (a : nat) (v : A) :
  getitem xs (0 + Z.of_nat a) = Ok v -> xs !! a = Some v.
Proof.
  unfold getitem, index, len. intros Hg.
  destruct ((0 <=? 0 + Z.of_nat a) && (0 + Z.of_nat a <? Z.of_nat (length xs)))
    eqn:E1; simpl in Hg.
  - replace (Z.to_nat (0 + Z.of_nat a)) with a in Hg by lia.
    destruct (xs !! a); [congruence | discriminate].
  - destruct ((- Z.of_nat (length xs) <=? 0 + Z.of_nat a) && (0 + Z.of_nat a <? 0))
      eqn:E2; simpl in Hg; [| discriminate].
    apply andb_prop in E2 as [_ E2]. apply Z.ltb_lt in E2. lia.
Qed.

(** The loop of [runAllCircuits] from position [a] on. *)
Lemma run_loop (jobResult : list (gmap string Z)) (m a : nat)
      (self self' : Experiment Props) (u : unit) :
  forM (map (fun j => 0 + Z.of_nat j) (seq a m))
       (fun i (_ : unit) =>
          self ← get;
          counts ← lift (getitem jobResult i);
          set_result (result self ++ [counts]))
       tt self = (Ok u, self') ->
  self' = with_result self (result self ++ take m (drop a jobResult)) /\
  (0 < m -> a + m <= length jobResult)%nat.
Proof.
  revert a self. induction m as [| m IH]; intros a self Hrun.
  - simpl in Hrun. injection Hrun as _ <-.
    rewrite take_0, app_nil_r, with_result_same. split; [reflexivity | lia].
  - simpl in Hrun. unfold mbind at 1, M_bind at 1 in Hrun.
    unfold mbind at 1, M_bind at 1, get in Hrun.
    unfold mbind at 1, M_bind at 1, lift in Hrun.
    destruct (getitem jobResult (0 + Z.of_nat a)) as [counts | e] eqn:Eg;
      [| discriminate].
    apply getitem_ok in Eg. unfold set_result in Hrun.
    apply IH in Hrun as [-> Hlen]. simpl.
    rewrite (drop_S _ _ _ Eg). simpl. rewrite <- app_assoc. simpl.
    split; [reflexivity |]. intros _.
    apply lookup_lt_Some in Eg. destruct m; lia.
Qed.

Lemma runAllCircuits_returns (self self' : Experiment Props) (u : unit) :
  runAllCircuits self = (Ok u, self') ->
  exists jobResult,
    sampler_run (backend self) (map (fun c => [c]) (circuits self)) = Ok jobResult /\
    self' = with_result self (take (length (circuits self)) jobResult) /\
    (length (circuits self) <= length jobResult)%nat.
Proof.
  unfold runAllCircuits. unfold mbind at 1, M_bind at 1, get.
  unfold mbind at 1, M_bind at 1, lift.
  destruct (sampler_run _ _) as [jobResult | e]; [| discriminate].
  unfold mbind at 1, M_bind at 1, set_result.
  unfold mbind at 1, M_bind at 1.
  rewrite range_unit_step. unfold len.
  replace (Z.to_nat (Z.of_nat (length (circuits self)) - 0))
    with (length (circuits self)) by lia.
  destruct (forM _ _ tt (with_result self [])) as [[u' | e] s'] eqn:Eloop;
    [| discriminate].
  intros Hret. injection Hret as _ <-.
  apply run_loop in Eloop as [-> Hlen]. simpl.
  exists jobResult. rewrite drop_0. repeat split.
  destruct (length (circuits self)); lia.
Qed.

Lemma forM_frame {A S} (R : Experiment Props -> Experiment Props -> Prop)
      (body : A -> S -> M Props S) :
  (forall e, R e e) ->
  (forall a b c, R a b -> R b c -> R a c) ->
  (forall x s e, R e (snd (body x s e))) ->
  forall xs s e, R e (snd (forM xs body s e)).
Proof.
  intros Hrefl Htrans Hbody. induction xs as [| x rest IH]; intros s e.
  - apply Hrefl.
  - simpl. unfold mbind, M_bind. specialize (Hbody x s e).
    destruct (body x s e) as [[s' | ex] e']; simpl in *.
    + eapply Htrans; [exact Hbody | apply IH].
    + exact Hbody.
Qed.

Lemma runAllCircuits_frame (self : Experiment Props) :
  result_replaced self (snd (runAllCircuits self)).
Proof.
  unfold runAllCircuits. unfold mbind at 1, M_bind at 1, get.
  unfold mbind at 1, M_bind at 1, lift.
  destruct (sampler_run _ _) as [jobResult | e].
  - unfold mbind at 1, M_bind at 1, set_result.
    unfold mbind at 1, M_bind at 1.
    match goal with
    | |- context [forM ?xs ?body tt ?s] =>
        pose proof (forM_frame result_replaced body) as Hloop;
        specialize (Hloop
          (fun e => ex_intro _ (result e) (eq_sym (with_result_same e))));
        assert (result_replaced self (snd (forM xs body tt s))) as Hr
    end.
    { destruct (Hloop) with (xs := range 0 (len (circuits self)) 1) (s := tt)
                            (e := with_result self (@nil (gmap string Z)))
        as (r & Hr).
      - intros a b c (r1 & ->) (r2 & ->). exists r2. reflexivity.
      - intros i [] e0. unfold mbind, M_bind, get, lift.
        destruct (getitem jobResult i) as [counts | ex]; simpl.
        + eexists. reflexivity.
        + exists (result e0). symmetry. apply with_result_same.
      - exists r. rewrite Hr. reflexivity. }
    destruct (forM _ _ tt (with_result self [])) as [[u' | e] s']; exact Hr.
  - exists (result self). simpl. rewrite with_result_same. reflexivity.
Qed.

Lemma forM_cons {A S} (x : A) (rest : list A) (body : A -> S -> M Props S)
      (s : S) (e : Experiment Props) :
  forM (x :: rest) body s e =
  match body x s e with
  | (Ok s', e') => forM rest body s' e'
  | (Raise ex, e') => (Raise ex, e')
  end.
Proof. reflexivity. Qed.

Lemma score_round_eq (count : gmap string Z) (i : Z) (self : Experiment Props) :
  score_round count i self =
  match find_fidelity count with
  | Ok f => (Ok (i + 1), with_fidelities self (fidelities self ++ [f]))
  | Raise ex => (Raise ex, self)
  end.
Proof.
  unfold score_round, mbind, M_bind, lift.
  destruct (find_fidelity count); reflexivity.
Qed.

(** The loop of [calculateFidelityOfDataQubits]. *)
Lemma score_loop (counts : list (gmap string Z)) :
  forall (i : Z) (self self' : Experiment Props) (o : outcome Z),
    forM counts score_round i self = (o, self') ->
    exists fs,
      self' = with_fidelities self (fidelities self ++ fs) /\
      (is_ok o = true ->
       Forall2 (fun count f => find_fidelity count = Ok f) counts fs) /\
      (Forall (fun count => is_ok (find_fidelity count) = true) counts ->
       is_ok o = true).
Proof.
  induction counts as [| count rest IH]; intros i self self' o Hloop.
  - injection Hloop as <- <-. exists [].
    rewrite app_nil_r, with_fidelities_same. repeat split; constructor.
  - rewrite forM_cons, score_round_eq in Hloop.
    destruct (find_fidelity count) as [f | ex] eqn:Ef.
    + apply IH in Hloop as (fs & -> & Hok & Hall).
      exists (f :: fs). simpl. rewrite <- app_assoc. simpl.
      split; [reflexivity |]. split.
      * intros Ho. constructor; [exact Ef | apply Hok, Ho].
      * intros HF. apply Hall. inversion HF; assumption.
    + injection Hloop as <- <-. exists [].
      rewrite app_nil_r, with_fidelities_same.
      split; [reflexivity |]. split; [discriminate |].
      intros HF. inversion HF as [| ? ? H1 ?]; subst.
      rewrite Ef in H1. discriminate H1.
Qed.

Lemma calculateFidelityOfDataQubits_unfold (self : Experiment Props) :
  calculateFidelityOfDataQubits self =
  match forM (result self) score_round 0 (with_fidelities self []) with
  | (Ok _, self') => (Ok tt, self')
  | (Raise ex, self') => (Raise ex, self')
  end.
Proof. reflexivity. Qed.

Lemma calculateFidelityOfDataQubits_spec (self : Experiment Props) :
  exists fs,
    snd (calculateFidelityOfDataQubits self) = with_fidelities self fs /\
    (is_ok (fst (calculateFidelityOfDataQubits self)) = true ->
     Forall2 (fun count f => find_fidelity count = Ok f) (result self) fs) /\
    (Forall (fun count => is_ok (find_fidelity count) = true) (result self) ->
     fst (calculateFidelityOfDataQubits self) = Ok tt).
Proof.
  rewrite calculateFidelityOfDataQubits_unfold.
  destruct (forM (result self) score_round 0 (with_fidelities self []))
    as [o s'] eqn:Eloop.
  apply score_loop in Eloop as (fs & -> & Hok & Hall).
  exists fs. destruct o as [i | ex]; simpl in *.
  - split; [reflexivity |]. split; [exact Hok | reflexivity].
  - split; [reflexivity |]. split; [discriminate |].
    intros HF. specialize (Hall HF). discriminate.
Qed.

Lemma calculateFidelityOfDataQubits_frame (self : Experiment Props) :
  exists fs, snd (calculateFidelityOfDataQubits self) = with_fidelities self fs.
Proof.
  destruct (calculateFidelityOfDataQubits_spec self) as (fs & Hs & _).
  exists fs. exact Hs.
Qed.

Lemma after_keeps_result (calls : list call) (self : Experiment Props) :
  forallb (fun c => negb (is_run c)) calls = true ->
  result (after calls self) = result self.
Proof.
  revert self. induction calls as [| c rest IH]; intros self Hc; [reflexivity |].
  simpl in Hc. apply andb_prop in Hc as [Hc Hrest].
  simpl. rewrite (IH _ Hrest).
  destruct (is_add c) eqn:Ea.
  - apply (do_call_add_only_appends c self Ea).
  - destruct c; try discriminate. simpl.
    destruct (calculateFidelityOfDataQubits_frame self) as (fs & ->).
    reflexivity.
Qed.

Lemma after_keeps_fidelities (calls : list call) (self : Experiment Props) :
  forallb (fun c => negb (is_score c)) calls = true ->
  fidelities (after calls self) = fidelities self.
Proof.
  revert self. induction calls as [| c rest IH]; intros self Hc; [reflexivity |].
  simpl in Hc. apply andb_prop in Hc as [Hc Hrest].
  simpl. rewrite (IH _ Hrest).
  destruct (is_add c) eqn:Ea.
  - apply (do_call_add_only_appends c self Ea).
  - destruct c; try discriminate. simpl.
    destruct (runAllCircuits_frame self) as (r & ->).
    reflexivity.
Qed.

Lemma init_collections_empty nq il ilb (b : Backend Props) st dd self :
  __init__ nq il ilb b st dd = Ok self ->
  circuits self = [] /\ result self = [] /\ fidelities self = [].
Proof.
  unfold __init__. destruct (addYGateToTargetBackend b); simpl; [| discriminate].
  intros [= <-]. repeat split.
Qed.

(** C9: on an experiment as constructed, and after any calls that do not
    include [runAllCircuits], [getResult] prints its warning and returns the
    empty list; after any calls that do not include
    [calculateFidelityOfDataQubits], [getFidelities] prints its warning and
    returns the empty list. Neither accessor can raise. *)
Theorem premature_access_warns_and_returns_empty
        (numQubits : Z) (initialLayout initialLayoutWithBuffer : list Z)
        (backend : Backend Props) (initialState ddSequenceType : Z)
        (self : Experiment Props) (calls : list call) :
  __init__ numQubits initialLayout initialLayoutWithBuffer backend
           initialState ddSequenceType = Ok self ->
  (forallb (fun c => negb (is_run c)) calls = true ->
   getResult (after calls self)
   = (["No results yet, returning an empty array."], [])) /\
  (forallb (fun c => negb (is_score c)) calls = true ->
   getFidelities (after calls self)
   = (["Fidelities are not yet calculated. Returning an empty array"], [])).
Proof.
  intros Hinit. apply init_collections_empty in Hinit as (_ & Hr & Hf).
  split; intros Hc.
  - unfold getResult. rewrite (after_keeps_result _ _ Hc), Hr. reflexivity.
  - unfold getFidelities. rewrite (after_keeps_fidelities _ _ Hc), Hf.
    reflexivity.
Qed.

Lemma script_app (cs1 cs2 : list call) (self : Experiment Props) :
  script (cs1 ++ cs2) self =
  match script cs1 self with
  | (Ok _, self') => script cs2 self'
  | (Raise e, self') => (Raise e, self')
  end.
Proof.
  revert self. induction cs1 as [| c rest IH]; intros self; [reflexivity |].
  simpl. unfold mbind, M_bind.
  destruct (do_call c self) as [[u | e] s']; [apply IH | reflexivity].
Qed.

(** C1: when a script of circuit-adding calls, then [runAllCircuits], then
    [calculateFidelityOfDataQubits] runs to its end, the three collections
    have the same length, and at every index the raw result is the entry of
    the job result for the circuit submitted at that index and the fidelity
    is [find_fidelity] of that raw result. *)
Theorem pipeline_collections_aligned
        (adds : list call) (self final : Experiment Props) :
  forallb is_add adds = true ->
  script (adds ++ [RunAllCircuits; CalculateFidelityOfDataQubits]) self
  = (Ok tt, final) ->
  length (result final) = length (circuits final) /\
  length (fidelities final) = length (circuits final) /\
  exists jobResult,
    sampler_run (backend final) (map (fun c => [c]) (circuits final))
    = Ok jobResult /\
    forall (i : nat) circuit,
      circuits final !! i = Some circuit ->
      exists counts f,
        jobResult !! i = Some counts /\
        result final !! i = Some counts /\
        find_fidelity counts = Ok f /\
        fidelities final !! i = Some f.
Proof.
  intros _ Hscript. rewrite script_app in Hscript.
  destruct (script adds self) as [[u | e] built]; [| discriminate].
  simpl in Hscript. unfold mbind at 1, M_bind at 1 in Hscript.
  destruct (runAllCircuits built) as [[u1 | e] executed] eqn:Erun;
    [| discriminate].
  unfold mbind at 1, M_bind at 1 in Hscript.
  destruct (calculateFidelityOfDataQubits executed) as [[u2 | e] scored] eqn:Escore;
    [| discriminate].
  injection Hscript as <-.
  apply runAllCircuits_returns in Erun as (jobResult & Hjob & -> & Hlen).
  destruct (calculateFidelityOfDataQubits_spec (with_result built
              (take (length (circuits built)) jobResult)))
    as (fs & Hs & Hok & _).
  rewrite Escore in Hs, Hok. simpl in Hs, Hok. subst scored.
  specialize (Hok eq_refl). simpl.
  pose proof (Forall2_length _ _ _ Hok) as Hfs.
  rewrite length_take in Hfs.
  split; [rewrite length_take; lia |]. split; [lia |].
  exists jobResult. split; [exact Hjob |].
  intros i circuit Hi. apply lookup_lt_Some in Hi.
  destruct (lookup_lt_is_Some_2 jobResult i ltac:(lia)) as [counts Hcounts].
  assert (take (length (circuits built)) jobResult !! i = Some counts) as Htake
    by (rewrite lookup_take_lt by exact Hi; exact Hcounts).
  destruct (Forall2_lookup_l _ _ _ _ _ Hok Htake) as (f & Hf & Hfid).
  exists counts, f. repeat split; assumption.
Qed.

End Pipeline.

(** ** Sums over dictionaries *)

Lemma dict_sum_empty : dict_sum ∅ = 0.
Proof. apply map_fold_empty. Qed.

Lemma dict_sum_insert (m : gmap string Z) (k : string) (v : Z) :
  m !! k = None -> dict_sum (<[k := v]> m) = dict_sum m + v.
Proof.
  intros Hk. unfold dict_sum.
  rewrite map_fold_insert_L; [reflexivity | | exact Hk].
  intros. lia.
Qed.

Lemma dict_sum_delete (m : gmap string Z) (k : string) (v : Z) :
  m !! k = Some v -> dict_sum m = dict_sum (delete k m) + v.
Proof.
  intros Hk. rewrite <- (insert_delete_id m k v Hk) at 1.
  apply dict_sum_insert, lookup_delete_eq.
Qed.

Lemma dict_sum_insert_over (m : gmap string Z) (k : string) (v : Z) :
  dict_sum (<[k := v]> m) = dict_sum (delete k m) + v.
Proof.
  rewrite <- insert_delete_eq. apply dict_sum_insert, lookup_delete_eq.
Qed.

Lemma sum_values_empty : sum_values ∅ = 0%R.
Proof. apply map_fold_empty. Qed.

Lemma sum_values_insert (m : gmap string R) (k : string) (v : R) :
  m !! k = None -> sum_values (<[k := v]> m) = (sum_values m + v)%R.
Proof.
  intros Hk. unfold sum_values.
  rewrite map_fold_insert_L; [reflexivity | | exact Hk].
  intros. lra.
Qed.

Lemma sum_values_delete (m : gmap string R) (k : string) (v : R) :
  m !! k = Some v -> sum_values m = (sum_values (delete k m) + v)%R.
Proof.
  intros Hk. rewrite <- (insert_delete_id m k v Hk) at 1.
  apply sum_values_insert, lookup_delete_eq.
Qed.

Lemma sum_values_insert_over (m : gmap string R) (k : string) (v : R) :
  sum_values (<[k := v]> m) = (sum_values (delete k m) + v)%R.
Proof.
  rewrite <- insert_delete_eq. apply sum_values_insert, lookup_delete_eq.
Qed.

(** ** Reduction to the data qubits *)

Lemma reduce_step_sum (key : string) (count : Z) (finalState : gmap string Z) :
  dict_sum (reduce_step key count finalState) = dict_sum finalState + count.
Proof.
  unfold reduce_step.
  destruct (finalState !! last3 key) as [old |] eqn:Ek.
  - rewrite dict_sum_insert_over, (dict_sum_delete _ _ _ Ek).
    rewrite lookup_total_alt, Ek. simpl. lia.
  - rewrite dict_sum_insert_over, delete_insert_id by exact Ek.
    rewrite lookup_total_insert_eq. lia.
Qed.

Lemma reduceToDataQubits_sum (counts : gmap string Z) :
  dict_sum (reduceToDataQubits counts) = dict_sum counts.
Proof.
  unfold reduceToDataQubits.
  apply (map_fold_weak_ind (fun r m => dict_sum r = dict_sum m)).
  - reflexivity.
  - intros k v m r Hk IH.
    rewrite reduce_step_sum, dict_sum_insert by exact Hk. lia.
Qed.

(** C2: reducing a raw result to the distribution over the last three
    characters of its keys keeps the total count. *)
Theorem reduction_preserves_total (counts : gmap string Z) :
  dict_sum (reduceToDataQubits counts) = dict_sum counts.
Proof. apply reduceToDataQubits_sum. Qed.

(** The scenario of the specification: a nine-bit result with two
    outcomes. *)
Example reduce_nine_bit_result :
  reduceToDataQubits (<["000000000" := 10]> (<["111111111" := 990]> ∅))
  = <["000" := 10]> (<["111" := 990]> ∅).
Proof. vm_compute. reflexivity. Qed.

(** ** The Hellinger distance and fidelity *)

Lemma merge_term_empty_l (q : gmap string R) : merge hellinger_term ∅ q = q.
Proof.
  apply map_eq. intros k. rewrite lookup_merge, lookup_empty.
  destruct (q !! k); reflexivity.
Qed.

Lemma merge_term_empty_r (p : gmap string R) : merge hellinger_term p ∅ = p.
Proof.
  apply map_eq. intros k. rewrite lookup_merge, lookup_empty.
  destruct (p !! k); reflexivity.
Qed.

(** The main loop of [hellinger_distance] and the sum over what is left of
    [q_normed] add up to the sum, over the keys of either dict, of the
    terms of the keys. *)
Lemma hellinger_loop_total (p_normed q_normed : gmap string R) :
  let '(total, rest) := map_fold hellinger_step (0%R, q_normed) p_normed in
  (total + sum_values rest)%R = sum_values (merge hellinger_term p_normed q_normed).
Proof.
  pose (Inv := fun (st : R * gmap string R) (m : gmap string R) =>
                 (forall k, st.2 !! k = match m !! k with
                                        | Some _ => None
                                        | None => q_normed !! k
                                        end) /\
                 (st.1 + sum_values st.2)%R
                 = sum_values (merge hellinger_term m q_normed)).
  assert (Inv (map_fold hellinger_step (0%R, q_normed) p_normed) p_normed)
    as HInv.
  { apply (map_fold_weak_ind Inv); unfold Inv.
    - simpl. split.
      + intros k. rewrite lookup_empty. reflexivity.
      + rewrite merge_term_empty_l. lra.
    - intros i v m [total rest] Hi [Hrest Hsum]. simpl in Hrest, Hsum.
      pose proof (Hrest i) as Hri. rewrite Hi in Hri.
      unfold hellinger_step. destruct (rest !! i) as [w |] eqn:Ew; simpl.
      + split.
        * intros k. destruct (decide (k = i)) as [-> | Hne].
          -- rewrite lookup_delete_eq, lookup_insert_eq. reflexivity.
          -- rewrite lookup_delete_ne, lookup_insert_ne by congruence.
             apply Hrest.
        * rewrite <- (insert_merge_l hellinger_term m q_normed i
                        ((sqrt v - sqrt w) ^ 2)%R v)
            by (rewrite <- Hri; reflexivity).
          rewrite sum_values_insert_over.
          assert (merge hellinger_term m q_normed !! i = Some w) as Hmi
              by (rewrite lookup_merge, Hi, <- Hri; reflexivity).
          rewrite (sum_values_delete _ _ _ Hmi) in Hsum.
          rewrite (sum_values_delete _ _ _ Ew) in Hsum. lra.
      + split.
        * intros k. destruct (decide (k = i)) as [-> | Hne].
          -- rewrite lookup_insert_eq. exact Ew.
          -- rewrite lookup_insert_ne by congruence. apply Hrest.
        * rewrite <- (insert_merge_l hellinger_term m q_normed i v v)
            by (rewrite <- Hri; reflexivity).
          rewrite sum_values_insert
            by (rewrite lookup_merge, Hi, <- Hri; reflexivity).
          lra. }
  destruct (map_fold hellinger_step (0%R, q_normed) p_normed) as [total rest].
  apply HInv.
Qed.

Lemma hellinger_distance_eq (dist_p dist_q : gmap string Z) :
  hellinger_distance dist_p dist_q =
  (p_normed ← normalize dist_p;
   q_normed ← normalize dist_q;
   Ok (sqrt (sum_values (merge hellinger_term p_normed q_normed)) / sqrt 2)%R).
Proof.
  unfold hellinger_distance.
  destruct (normalize dist_p) as [p |]; [simpl | reflexivity].
  destruct (normalize dist_q) as [q |]; [simpl | reflexivity].
  pose proof (hellinger_loop_total p q) as Hloop.
  destruct (map_fold hellinger_step (0%R, q) p) as [total rest].
  rewrite Hloop. reflexivity.
Qed.

Lemma normalize_ok (dist : gmap string Z) :
  dict_sum dist <> 0 -> normalize dist = Ok (probabilities dist).
Proof.
  intros Hs. unfold normalize.
  destruct (Z.eqb_spec (dict_sum dist) 0) as [E | _]; [contradiction |].
  rewrite andb_false_r. reflexivity.
Qed.

Lemma hellinger_distance_ok (dist_p dist_q : gmap string Z) :
  dict_sum dist_p <> 0 -> dict_sum dist_q <> 0 ->
  hellinger_distance dist_p dist_q =
  Ok (sqrt (sum_values (merge hellinger_term (probabilities dist_p)
                              (probabilities dist_q))) / sqrt 2)%R.
Proof.
  intros Hp Hq. rewrite hellinger_distance_eq, !normalize_ok by assumption.
  reflexivity.
Qed.

Lemma sum_values_zero (m : gmap string R) :
  map_Forall (fun _ v => v = 0%R) m -> sum_values m = 0%R.
Proof.
  induction m as [| k v m Hk IH] using map_ind; intros Hall.
  - apply sum_values_empty.
  - rewrite sum_values_insert by exact Hk.
    apply map_Forall_insert in Hall as [-> Hm]; [| exact Hk].
    rewrite IH by exact Hm. lra.
Qed.

Lemma sum_values_scaled (dist : gmap string Z) (c : R) :
  sum_values ((fun val => (IZR val / c)%R) <$> dist)
  = (IZR (dict_sum dist) / c)%R.
Proof.
  induction dist as [| k v m Hk IH] using map_ind.
  - rewrite fmap_empty, sum_values_empty, dict_sum_empty. unfold Rdiv. lra.
  - rewrite fmap_insert, sum_values_insert
      by (rewrite lookup_fmap, Hk; reflexivity).
    rewrite IH, dict_sum_insert, plus_IZR by exact Hk.
    unfold Rdiv. lra.
Qed.

Lemma sum_values_probabilities (dist : gmap string Z) :
  dict_sum dist <> 0 -> sum_values (probabilities dist) = 1%R.
Proof.
  intros Hs. unfold probabilities. rewrite sum_values_scaled.
  apply Rinv_r. apply not_0_IZR. exact Hs.
Qed.

Lemma sum_values_disjoint (p q : gmap string R) :
  p ##ₘ q ->
  sum_values (merge hellinger_term p q) = (sum_values p + sum_values q)%R.
Proof.
  induction p as [| k v m Hk IH] using map_ind; intros Hd.
  - rewrite merge_term_empty_l, sum_values_empty. lra.
  - apply map_disjoint_insert_l in Hd as [Hqk Hd].
    rewrite <- (insert_merge_l hellinger_term m q k v v)
      by (rewrite Hqk; reflexivity).
    rewrite !sum_values_insert, IH;
      [lra | exact Hd | exact Hk | rewrite lookup_merge, Hk, Hqk; reflexivity].
Qed.

Lemma merge_term_comm (p q : gmap string R) :
  merge hellinger_term p q = merge hellinger_term q p.
Proof.
  apply map_eq. intros k. rewrite !lookup_merge.
  destruct (p !! k) as [a |], (q !! k) as [b |]; simpl; try reflexivity.
  f_equal. ring.
Qed.

Lemma valid_distribution_sum (dist : gmap string Z) :
  valid_distribution dist -> 0 < dict_sum dist.
Proof.
  intros [Hne Hpos].
  assert (map_Forall (fun _ count => 0 < count) dist -> 0 <= dict_sum dist /\
          (dist <> ∅ -> 0 < dict_sum dist)) as H.
  { clear. induction dist as [| k v m Hk IH] using map_ind; intros Hall.
    - rewrite dict_sum_empty. split; [lia | congruence].
    - apply map_Forall_insert in Hall as [Hv Hm]; [| exact Hk].
      rewrite dict_sum_insert by exact Hk.
      destruct (IH Hm) as [H0 _]. split; intros; lia. }
  apply H; assumption.
Qed.

Lemma hellinger_fidelity_same (dist : gmap string Z) :
  valid_distribution dist -> hellinger_fidelity dist dist = Ok 1%R.
Proof.
  intros Hv. pose proof (valid_distribution_sum _ Hv) as Hs.
  unfold hellinger_fidelity. rewrite hellinger_distance_ok by lia. simpl.
  rewrite sum_values_zero.
  - rewrite sqrt_0. f_equal. unfold Rdiv. ring.
  - apply map_Forall_lookup. intros k v. rewrite lookup_merge.
    destruct (probabilities dist !! k) as [a |]; simpl; [| discriminate].
    intros [= <-]. ring.
Qed.

Lemma hellinger_fidelity_disjoint (dist_p dist_q : gmap string Z) :
  valid_distribution dist_p -> valid_distribution dist_q ->
  dom dist_p ## dom dist_q ->
  hellinger_fidelity dist_p dist_q = Ok 0%R.
Proof.
  intros Hp Hq Hd.
  pose proof (valid_distribution_sum _ Hp) as Hsp.
  pose proof (valid_distribution_sum _ Hq) as Hsq.
  unfold hellinger_fidelity. rewrite hellinger_distance_ok by lia. simpl.
  rewrite sum_values_disjoint
    by (unfold probabilities; apply map_disjoint_fmap, map_disjoint_dom, Hd).
  rewrite !sum_values_probabilities by lia.
  replace (1 + 1)%R with 2%R by lra.
  unfold Rdiv. rewrite Rinv_r by apply sqrt2_neq_0.
  f_equal. ring.
Qed.

Lemma hellinger_fidelity_symmetric (dist_p dist_q : gmap string Z) :
  hellinger_fidelity dist_p dist_q = hellinger_fidelity dist_q dist_p.
Proof.
  unfold hellinger_fidelity. rewrite !hellinger_distance_eq.
  unfold normalize.
  destruct (negb (bool_decide (dist_p = ∅)) && (dict_sum dist_p =? 0)),
           (negb (bool_decide (dist_q = ∅)) && (dict_sum dist_q =? 0));
    simpl; try reflexivity.
  rewrite merge_term_comm. reflexivity.
Qed.

(** ** The score against the words of the specification *)

Lemma probabilities_nonneg (dist : gmap string Z) :
  count_distribution dist ->
  map_Forall (fun _ p => (0 <= p)%R) (probabilities dist).
Proof.
  intros [Hall Hs].
  assert (0 <= dict_sum dist) as H0.
  { clear Hs. induction dist as [| k v m Hk IH] using map_ind.
    - rewrite dict_sum_empty. lia.
    - apply map_Forall_insert in Hall as [Hv Hm]; [| exact Hk].
      rewrite dict_sum_insert by exact Hk. specialize (IH Hm). lia. }
  apply map_Forall_lookup. intros k p. unfold probabilities.
  rewrite lookup_fmap. destruct (dist !! k) as [v |] eqn:Ek; [| discriminate].
  simpl. intros [= <-].
  pose proof (map_Forall_lookup_1 _ _ _ _ Hall Ek) as Hv. simpl in Hv.
  apply Rmult_le_pos; [apply IZR_le; exact Hv |].
  apply Rlt_le, Rinv_0_lt_compat, IZR_lt. lia.
Qed.

Lemma merge_term_sq_diff (p q : gmap string R) :
  map_Forall (fun _ v => (0 <= v)%R) p ->
  map_Forall (fun _ v => (0 <= v)%R) q ->
  merge hellinger_term p q = merge sq_diff p q.
Proof.
  intros Hp Hq. apply map_eq. intros k. rewrite !lookup_merge.
  destruct (p !! k) as [a |] eqn:Ea, (q !! k) as [b |] eqn:Eb;
    try reflexivity; unfold diag_None, hellinger_term, sq_diff, default;
    unfold from_option, Datatypes.id; f_equal; rewrite sqrt_0.
  - pose proof (map_Forall_lookup_1 _ _ _ _ Hp Ea) as Ha. simpl in Ha.
    rewrite Rminus_0_r, pow2_sqrt by exact Ha. reflexivity.
  - pose proof (map_Forall_lookup_1 _ _ _ _ Hq Eb) as Hb. simpl in Hb.
    replace ((0 - sqrt b) ^ 2)%R with (sqrt b ^ 2)%R by ring.
    rewrite pow2_sqrt by exact Hb. reflexivity.
Qed.

Lemma hellinger_fidelity_spec_form (dist_p dist_q : gmap string Z) :
  count_distribution dist_p -> count_distribution dist_q ->
  hellinger_fidelity dist_p dist_q =
  Ok ((1 - spec_hellinger_distance (probabilities dist_p)
                                   (probabilities dist_q) ^ 2) ^ 2)%R.
Proof.
  intros Hp Hq. unfold hellinger_fidelity, spec_hellinger_distance.
  rewrite hellinger_distance_ok by (apply Hp || apply Hq). simpl.
  rewrite merge_term_sq_diff by (apply probabilities_nonneg; assumption).
  reflexivity.
Qed.

Lemma reduce_step_nonneg (key : string) (count : Z) (finalState : gmap string Z) :
  0 <= count ->
  map_Forall (fun _ c => 0 <= c) finalState ->
  map_Forall (fun _ c => 0 <= c) (reduce_step key count finalState).
Proof.
  intros Hc Hall. unfold reduce_step.
  destruct (finalState !! last3 key) as [old |] eqn:Ek.
  - apply map_Forall_insert_2; [| exact Hall].
    rewrite lookup_total_alt, Ek. simpl.
    pose proof (map_Forall_lookup_1 _ _ _ _ Hall Ek) as Ho. simpl in Ho. lia.
  - rewrite lookup_total_insert_eq.
    apply map_Forall_insert_2; [lia |].
    apply map_Forall_insert_2; [lia | exact Hall].
Qed.

Lemma reduceToDataQubits_count_distribution (counts : gmap string Z) :
  count_distribution counts -> count_distribution (reduceToDataQubits counts).
Proof.
  intros [Hall Hs]. split; [| rewrite reduceToDataQubits_sum; exact Hs].
  revert Hall. unfold reduceToDataQubits.
  apply (map_fold_weak_ind
           (fun r m => map_Forall (fun _ c => 0 <= c) m ->
                       map_Forall (fun _ c => 0 <= c) r)).
  - intros _. apply map_Forall_empty.
  - intros k v m r Hk IH Hall.
    apply map_Forall_insert in Hall as [Hv Hm]; [| exact Hk].
    apply reduce_step_nonneg; [exact Hv | apply IH, Hm].
Qed.

Lemma initialState_count_distribution :
  count_distribution find_fidelity_initialState.
Proof.
  split; [| vm_compute; discriminate].
  unfold find_fidelity_initialState.
  repeat (apply map_Forall_insert_2; [lia |]). apply map_Forall_empty.
Qed.

(** C4, as the code has it: for count distributions (no negative count, not
    all zero) the score is [(1 - H^2)^2], H being the Hellinger distance of
    the two distributions, each normalized over its key set, a missing key
    counting as probability zero; so is the fidelity that [find_fidelity]
    returns for a raw result, with the ideal distribution on one side and
    the reduced distribution on the other. *)
Theorem score_is_squared_affinity (dist_p dist_q counts : gmap string Z) :
  count_distribution dist_p -> count_distribution dist_q ->
  count_distribution counts ->
  hellinger_fidelity dist_p dist_q =
  Ok ((1 - spec_hellinger_distance (probabilities dist_p)
                                   (probabilities dist_q) ^ 2) ^ 2)%R /\
  find_fidelity counts =
  Ok ((1 - spec_hellinger_distance
             (probabilities find_fidelity_initialState)
             (probabilities (reduceToDataQubits counts)) ^ 2) ^ 2)%R.
Proof.
  intros Hp Hq Hc. split.
  - apply hellinger_fidelity_spec_form; assumption.
  - unfold find_fidelity. apply hellinger_fidelity_spec_form.
    + apply initialState_count_distribution.
    + apply reduceToDataQubits_count_distribution, Hc.
Qed.

Lemma count_distribution_singleton (key : string) (n : Z) :
  0 < n -> count_distribution {[key := n]}.
Proof.
  intros Hn. split.
  - apply map_Forall_singleton. lia.
  - unfold dict_sum. rewrite map_fold_singleton. lia.
Qed.

Lemma score_is_squared_affinity_witness :
  hellinger_fidelity find_fidelity_initialState Simulated.data_ones =
  Ok ((1 - spec_hellinger_distance
             (probabilities find_fidelity_initialState)
             (probabilities Simulated.data_ones) ^ 2) ^ 2)%R /\
  find_fidelity Simulated.all_ones =
  Ok ((1 - spec_hellinger_distance
             (probabilities find_fidelity_initialState)
             (probabilities (reduceToDataQubits Simulated.all_ones)) ^ 2) ^ 2)%R.
Proof.
  apply (score_is_squared_affinity
           find_fidelity_initialState Simulated.data_ones
           Simulated.all_ones).
  - apply initialState_count_distribution.
  - apply (count_distribution_singleton "111" 1024). lia.
  - apply (count_distribution_singleton "111111111" 1024). lia.
Defined.

(** The total of [hellinger_distance] when the second dict has one key,
    which the first dict has too. *)
Lemma total_against_singleton (dist : gmap string Z) (key : string) (v n : Z) :
  dist !! key = Some v -> dict_sum dist <> 0 -> n <> 0 ->
  sum_values (merge hellinger_term (probabilities dist)
                    (probabilities {[key := n]}))
  = (1 - IZR v / IZR (dict_sum dist)
     + (sqrt (IZR v / IZR (dict_sum dist)) - sqrt 1) ^ 2)%R.
Proof.
  intros Hk Hs Hn.
  assert (probabilities {[key := n]} = <[key := 1%R]> ∅) as ->.
  { unfold probabilities, dict_sum. rewrite map_fold_singleton, map_fmap_singleton.
    rewrite insert_empty. f_equal. simpl.
    apply Rinv_r, not_0_IZR, Hn. }
  assert (probabilities dist !! key = Some (IZR v / IZR (dict_sum dist))%R) as Hp
    by (unfold probabilities; rewrite lookup_fmap, Hk; reflexivity).
  rewrite <- (insert_merge_r hellinger_term (probabilities dist) ∅ key
                ((sqrt (IZR v / IZR (dict_sum dist)) - sqrt 1) ^ 2)%R 1%R)
    by (rewrite Hp; reflexivity).
  rewrite merge_term_empty_r, sum_values_insert_over.
  pose proof (sum_values_probabilities dist Hs) as H1.
  rewrite (sum_values_delete _ _ _ Hp) in H1. lra.
Qed.

Lemma squared_distance (total : R) :
  (0 <= total)%R -> ((sqrt total / sqrt 2) ^ 2 = total / 2)%R.
Proof.
  intros Ht. unfold Rdiv.
  rewrite Rpow_mult_distr, pow_inv, !pow2_sqrt by lra. reflexivity.
Qed.

(** C4 as stated fails: when every one of 1024 shots reads all ones, the
    fidelity is 121/128, which is not one minus the Hellinger distance of
    the ideal and the measured distribution. *)
Lemma score_is_not_one_minus_distance :
  find_fidelity Simulated.all_ones = Ok (121 / 128)%R /\
  find_fidelity Simulated.all_ones
  <> Ok (spec_score find_fidelity_initialState
                    (reduceToDataQubits Simulated.all_ones)).
Proof.
  assert (reduceToDataQubits Simulated.all_ones = Simulated.data_ones) as Hred
    by (vm_compute; reflexivity).
  assert (dict_sum find_fidelity_initialState = 1024) as Hsum
    by (vm_compute; reflexivity).
  assert (find_fidelity_initialState !! "111" = Some 968) as Hkey
    by (vm_compute; reflexivity).
  pose proof (total_against_singleton find_fidelity_initialState "111" 968 1024
                Hkey ltac:(rewrite Hsum; lia) ltac:(lia)) as Htotal.
  fold Simulated.data_ones in Htotal.
  rewrite Hsum, sqrt_1 in Htotal.
  set (r := sqrt (968 / 1024)) in Htotal.
  assert (r * r = 968 / 1024)%R as Hr2 by (apply sqrt_sqrt; lra).
  assert (0 <= r)%R as Hr0 by apply sqrt_pos.
  set (total := sum_values
                  (merge hellinger_term (probabilities find_fidelity_initialState)
                         (probabilities Simulated.data_ones))) in Htotal.
  assert (total = 2 - 2 * r)%R as Ht by (rewrite Htotal; lra).
  assert (r <= 1)%R as Hr1 by nra.
  assert (find_fidelity Simulated.all_ones
          = Ok ((1 - (sqrt total / sqrt 2) ^ 2) ^ 2)%R) as Hcode.
  { unfold find_fidelity, hellinger_fidelity. rewrite Hred.
    rewrite hellinger_distance_ok;
      [reflexivity | rewrite Hsum; lia |
        unfold Simulated.data_ones, dict_sum; rewrite map_fold_singleton; lia]. }
  assert (spec_score find_fidelity_initialState
                     (reduceToDataQubits Simulated.all_ones)
          = 1 - sqrt total / sqrt 2)%R as Hspec.
  { unfold spec_score, spec_hellinger_distance. rewrite Hred.
    rewrite <- merge_term_sq_diff; [reflexivity | |];
      apply probabilities_nonneg;
      [apply initialState_count_distribution |
        apply (count_distribution_singleton "111" 1024); lia]. }
  pose proof (squared_distance total ltac:(lra)) as Hsq.
  rewrite Hcode, Hspec. rewrite Hsq. split.
  - f_equal. rewrite Ht. nra.
  - intros [= Heq].
    set (d := (sqrt total / sqrt 2)%R) in *.
    assert (d = 1 - (1 - total / 2) ^ 2)%R as Hd by lra.
    assert (d * d = total / 2)%R as Hdd by (rewrite <- Hsq; ring).
    rewrite Ht in Hd, Hdd.
    assert (d = 1 - r * r)%R as Hd' by (rewrite Hd; field).
    rewrite Hr2 in Hd'. rewrite Hd' in Hdd.
    assert (r = 1 - (1 - 968 / 1024) * (1 - 968 / 1024))%R as Hr by lra.
    rewrite Hr in Hr2. lra.
Qed.

(** ** The pipeline on the simulated collaborators *)

Lemma premature_access_warns_and_returns_empty_witness :
  exists self : Experiment unit,
    __init__ 9 [] [] Simulated.sim_backend 0 0 = Ok self /\
    getResult (after (collaborators := Simulated.sim)
                     [AddNoAttackCircuit; AddAttackWithDDCircuits] self)
    = (["No results yet, returning an empty array."], []) /\
    getFidelities (after (collaborators := Simulated.sim)
                         [AddNoAttackCircuit; AddAttackWithDDCircuits] self)
    = (["Fidelities are not yet calculated. Returning an empty array"], []).
Proof.
  eexists. split; [vm_compute; reflexivity |].
  match goal with
  | |- getResult (after _ ?self) = _ /\ _ =>
      destruct (premature_access_warns_and_returns_empty
                  (collaborators := Simulated.sim)
                  9 [] [] Simulated.sim_backend 0 0 self
                  [AddNoAttackCircuit; AddAttackWithDDCircuits]
                  ltac:(vm_compute; reflexivity)) as [Hresult Hfidelities]
  end.
  split; [apply Hresult | apply Hfidelities]; reflexivity.
Defined.

Lemma pipeline_collections_aligned_witness :
  exists self final : Experiment unit,
    __init__ 9 [] [] Simulated.sim_backend 0 0 = Ok self /\
    script (collaborators := Simulated.sim)
           ([AddNoAttackCircuit; AddNoAttackPlusDDCircuit]
              ++ [RunAllCircuits; CalculateFidelityOfDataQubits]) self
    = (Ok tt, final) /\
    length (result final) = length (circuits final) /\
    length (fidelities final) = length (circuits final) /\
    exists jobResult,
      @sampler_run unit Simulated.sim (backend final)
                  (map (fun c => [c]) (circuits final))
      = Ok jobResult /\
      forall (i : nat) circuit,
        circuits final !! i = Some circuit ->
        exists counts f,
          jobResult !! i = Some counts /\
          result final !! i = Some counts /\
          find_fidelity counts = Ok f /\
          fidelities final !! i = Some f.
Proof.
  eexists. eexists. split; [vm_compute; reflexivity |].
  match goal with
  | |- ?ran /\ _ => assert ran as Hran by (vm_compute; reflexivity)
  end.
  split; [exact Hran |].
  exact (pipeline_collections_aligned
           (collaborators := Simulated.sim)
           [AddNoAttackCircuit; AddNoAttackPlusDDCircuit] _ _ eq_refl Hran).
Defined.

(** * Further properties of the code *)

(** ** The rounding pass *)

Lemma round_duration_least (d m : Z) :
  m mod 8 = 0 -> d <= m -> round_duration d <= m.
Proof.
  intros Hm Hd. unfold round_duration, truthy.
  destruct (Z.eqb_spec (d mod 8) 0) as [E | E]; simpl.
  - exact Hd.
  - Z.div_mod_to_equations. lia.
Qed.

(** X1: for every integer duration, negative ones included, the rounded
    duration is the least multiple of 8 that is not below it; rounding is
    therefore monotone and rounding twice is rounding once. *)
Theorem round_duration_is_least_multiple (d d' m : Z) :
  m mod 8 = 0 -> d <= m -> d <= d' ->
  round_duration d mod 8 = 0 /\
  d <= round_duration d /\
  round_duration d <= m /\
  round_duration d <= round_duration d' /\
  round_duration (round_duration d) = round_duration d.
Proof.
  intros Hm Hd Hdd'.
  pose proof (round_duration_spec d) as (H8 & Hle & _ & _).
  pose proof (round_duration_spec d') as (H8' & Hle' & _ & _).
  repeat split; try assumption.
  - apply round_duration_least; assumption.
  - apply round_duration_least; [exact H8' | lia].
  - apply round_duration_spec. exact H8.
Qed.

Lemma round_duration_is_least_multiple_witness :
  round_duration (-13) mod 8 = 0 /\
  -13 <= round_duration (-13) /\
  round_duration (-13) <= 16 /\
  round_duration (-13) <= round_duration 35 /\
  round_duration (round_duration (-13)) = round_duration (-13).
Proof.
  apply (round_duration_is_least_multiple (-13) 35 16); [reflexivity | lia | lia].
Defined.

Lemma round_durations_ok_iff (circ_dd : ScheduledCircuit) :
  Forall (fun item => s_duration item <> None) circ_dd ->
  round_durations circ_dd
  = Ok (map (fun item =>
               {| s_name := s_name item; s_qubits := s_qubits item;
                  s_duration := round_duration <$> s_duration item |})
            circ_dd).
Proof.
  induction 1 as [| item rest Hitem _ IH]; [reflexivity |].
  simpl. unfold round_item.
  destruct (s_duration item) as [d |]; [| contradiction].
  simpl. rewrite IH. reflexivity.
Qed.

Lemma round_durations_raises (circ_dd : ScheduledCircuit) :
  Exists (fun item => s_duration item = None) circ_dd ->
  round_durations circ_dd = Raise TypeError.
Proof.
  induction 1 as [item rest Hitem | item rest _ IH].
  - simpl. unfold round_item. rewrite Hitem. reflexivity.
  - simpl. unfold round_item.
    destruct (s_duration item) as [d |]; [| reflexivity].
    simpl. rewrite IH. reflexivity.
Qed.

(** X2: the rounding pass raises [TypeError] exactly when some instruction
    of the padded circuit has no duration; it raises nothing else. *)
Theorem rounding_pass_raises_iff_missing_duration (circ_dd : ScheduledCircuit) :
  (round_durations circ_dd = Raise TypeError <->
   Exists (fun item => s_duration item = None) circ_dd) /\
  (forall e, round_durations circ_dd = Raise e -> e = TypeError).
Proof.
  destruct (decide (Exists (fun item => s_duration item = None) circ_dd))
    as [Hex | Hno].
  - pose proof (round_durations_raises _ Hex) as Hr. split.
    + split; [intros _; exact Hex | intros _; exact Hr].
    + intros e He. congruence.
  - assert (Forall (fun item => s_duration item <> None) circ_dd) as Hall
        by (apply not_Exists_Forall; [intros item; apply _ | exact Hno]).
    pose proof (round_durations_ok_iff _ Hall) as Hr. split.
    + split; [intros He; congruence | intros Hex; contradiction].
    + intros e He. congruence.
Qed.

(** X3: when the rounding pass succeeds it keeps the number, names and
    qubits of the instructions, and running it again on its own output
    changes nothing. *)
Theorem rounding_pass_idempotent (circ_dd circ' : ScheduledCircuit) :
  round_durations circ_dd = Ok circ' ->
  length circ' = length circ_dd /\
  map s_name circ' = map s_name circ_dd /\
  map s_qubits circ' = map s_qubits circ_dd /\
  round_durations circ' = Ok circ'.
Proof.
  revert circ'. induction circ_dd as [| item rest IH]; intros circ' Hr.
  - injection Hr as <-. repeat split.
  - simpl in Hr. unfold round_item in Hr.
    destruct (s_duration item) as [d |] eqn:Ed; [| discriminate].
    simpl in Hr.
    destruct (round_durations rest) as [rest' |] eqn:Er; [| discriminate].
    simpl in Hr. injection Hr as <-.
    destruct (IH rest' eq_refl) as (Hlen & Hn & Hq & Hagain).
    simpl. rewrite Hlen, Hn, Hq. repeat split.
    unfold round_item. simpl. rewrite Hagain. simpl.
    pose proof (round_duration_spec d) as (H8 & _).
    pose proof (round_duration_spec (round_duration d)) as (_ & _ & _ & Hid).
    rewrite (Hid H8). reflexivity.
Qed.

Lemma rounding_pass_idempotent_witness :
  length [ {| s_name := "x"; s_qubits := [4]; s_duration := Some 40 |} ]
  = length [ {| s_name := "x"; s_qubits := [4]; s_duration := Some 35 |} ] /\
  map s_name [ {| s_name := "x"; s_qubits := [4]; s_duration := Some 40 |} ]
  = map s_name [ {| s_name := "x"; s_qubits := [4]; s_duration := Some 35 |} ] /\
  map s_qubits [ {| s_name := "x"; s_qubits := [4]; s_duration := Some 40 |} ]
  = map s_qubits [ {| s_name := "x"; s_qubits := [4]; s_duration := Some 35 |} ] /\
  round_durations [ {| s_name := "x"; s_qubits := [4]; s_duration := Some 40 |} ]
  = Ok [ {| s_name := "x"; s_qubits := [4]; s_duration := Some 40 |} ].
Proof.
  apply (rounding_pass_idempotent
           [ {| s_name := "x"; s_qubits := [4]; s_duration := Some 35 |} ]).
  reflexivity.
Defined.

(** ** The circuits the builders produce *)

Lemma index_inv (size k a : Z) :
  index size k = Ok a -> 0 <= a < size.
Proof.
  unfold index.
  destruct (Z.leb_spec 0 k), (Z.ltb_spec k size); simpl;
    try (intros [= <-]; lia);
    destruct (Z.leb_spec (- size) k), (Z.ltb_spec k 0); simpl;
    try discriminate; intros [= <-]; lia.
Qed.

Lemma h_extends k qc qc' : h k qc = Ok qc' -> exists more, qc' = extend qc more.
Proof.
  unfold h. destruct (qubit qc k); simpl; [| discriminate].
  intros [= <-]. eexists. reflexivity.
Qed.

Lemma x_extends k qc qc' : x k qc = Ok qc' -> exists more, qc' = extend qc more.
Proof.
  unfold x. destruct (qubit qc k); simpl; [| discriminate].
  intros [= <-]. eexists. reflexivity.
Qed.

Lemma cx_extends c t qc qc' :
  cx c t qc = Ok qc' -> exists more, qc' = extend qc more.
Proof.
  unfold cx. destruct (qubit qc c); simpl; [| discriminate].
  destruct (qubit qc t); simpl; [| discriminate].
  intros [= <-]. eexists. reflexivity.
Qed.

Lemma delay_extends s k qc qc' :
  delay s k qc = Ok qc' -> exists more, qc' = extend qc more.
Proof.
  unfold delay. destruct (qubit qc k); simpl; [| discriminate].
  intros [= <-]. eexists. reflexivity.
Qed.

Lemma append3_extends g qc qc' :
  append3 g qc = Ok qc' -> exists more, qc' = extend qc more.
Proof.
  unfold append3. destruct (qubit qc 0); simpl; [| discriminate].
  destruct (qubit qc 1); simpl; [| discriminate].
  destruct (qubit qc 2); simpl; [| discriminate].
  intros [= <-]. eexists. reflexivity.
Qed.

Lemma for_each_extends {A} (body : A -> QuantumCircuit -> outcome QuantumCircuit)
      (ks : list A) :
  (forall k q q', body k q = Ok q' -> exists more, q' = extend q more) ->
  forall qc qc', for_each ks body qc = Ok qc' -> exists more, qc' = extend qc more.
Proof.
  intros Hbody. induction ks as [| k rest IH]; intros qc qc' Hf.
  - injection Hf as <-. exists []. symmetry. apply extend_nil.
  - simpl in Hf. destruct (body k qc) as [q1 |] eqn:E1; [| discriminate].
    simpl in Hf. apply Hbody in E1 as (m1 & ->).
    apply IH in Hf as (m2 & ->). exists (m1 ++ m2). apply extend_extend.
Qed.

Lemma prepare_extends st n qc qc' :
  prepare st n qc = Ok qc' -> exists more, qc' = extend qc more.
Proof.
  unfold prepare. destruct (st =? 1); [| destruct (st =? 2)].
  - apply for_each_extends. intros k q q'. apply x_extends.
  - apply for_each_extends. intros k q q'. apply h_extends.
  - intros [= <-]. exists []. symmetry. apply extend_nil.
Qed.

Lemma grover_twice_extends g qc qc' :
  grover_twice g qc = Ok qc' -> exists more, qc' = extend qc more.
Proof.
  unfold grover_twice. intros Hg.
  destruct (h 0 qc) as [q1 |] eqn:E1; [simpl in Hg | discriminate].
  destruct (h 1 q1) as [q2 |] eqn:E2; [simpl in Hg | discriminate].
  destruct (h 2 q2) as [q3 |] eqn:E3; [simpl in Hg | discriminate].
  destruct (append3 g q3) as [q4 |] eqn:E4; [simpl in Hg | discriminate].
  apply h_extends in E1 as (m1 & ->). apply h_extends in E2 as (m2 & ->).
  apply h_extends in E3 as (m3 & ->). apply append3_extends in E4 as (m4 & ->).
  apply append3_extends in Hg as (m5 & ->).
  rewrite !extend_extend. eexists. reflexivity.
Qed.

Lemma base_qc_extends size n st g base :
  base_qc size n st g = Ok base ->
  0 <= size /\ num_qubits base = size /\ num_clbits base = size.
Proof.
  unfold base_qc, new_circuit. intros Hb.
  destruct (Z.ltb_spec size 0); simpl in Hb; [discriminate |].
  destruct (prepare _ _ _) as [q1 |] eqn:E1; [simpl in Hb | discriminate].
  apply prepare_extends in E1 as (m1 & ->).
  apply grover_twice_extends in Hb as (m2 & ->).
  simpl. repeat split. assumption.
Qed.

Lemma attack_extends i n s qc qc' :
  attack i n s qc = Ok qc' -> exists more, qc' = extend qc more.
Proof.
  unfold attack. apply for_each_extends. intros j q q'.
  apply for_each_extends. intros k q0 q0' Hk.
  destruct (cx k (k + 1) q0) as [q1 |] eqn:E1; [simpl in Hk | discriminate].
  apply cx_extends in E1 as (m1 & ->). apply delay_extends in Hk as (m2 & ->).
  rewrite extend_extend. eexists. reflexivity.
Qed.

Lemma attack_spacing_extends i n s qc qc' :
  attack_spacing i n s qc = Ok qc' -> exists more, qc' = extend qc more.
Proof.
  unfold attack_spacing. apply for_each_extends. intros j q q'.
  apply for_each_extends. intros k q0 q0' Hk.
  destruct (cx (k + 1) (k + 2) q0) as [q1 |] eqn:E1; [simpl in Hk | discriminate].
  apply cx_extends in E1 as (m1 & ->). apply delay_extends in Hk as (m2 & ->).
  rewrite extend_extend. eexists. reflexivity.
Qed.

Lemma no_attack_qc_from_base (n st : Z) (g : Gate) :
  no_attack_qc n st g = (base ← base_qc n n st g; measure_all base).
Proof.
  unfold no_attack_qc, base_qc.
  destruct (new_circuit n n) as [q0 |]; [simpl | reflexivity].
  destruct (prepare st n q0) as [q1 |]; reflexivity.
Qed.

Lemma h_unmeasured k qc qc' :
  h k qc = Ok qc' ->
  Forall (fun ci => is_measure ci = false) (data qc) ->
  Forall (fun ci => is_measure ci = false) (data qc').
Proof.
  unfold h. destruct (qubit qc k); simpl; [| discriminate].
  intros [= <-] H. simpl. apply Forall_app. split; [exact H |].
  repeat constructor.
Qed.

Lemma x_unmeasured k qc qc' :
  x k qc = Ok qc' ->
  Forall (fun ci => is_measure ci = false) (data qc) ->
  Forall (fun ci => is_measure ci = false) (data qc').
Proof.
  unfold x. destruct (qubit qc k); simpl; [| discriminate].
  intros [= <-] H. simpl. apply Forall_app. split; [exact H |].
  repeat constructor.
Qed.

Lemma cx_unmeasured c t qc qc' :
  cx c t qc = Ok qc' ->
  Forall (fun ci => is_measure ci = false) (data qc) ->
  Forall (fun ci => is_measure ci = false) (data qc').
Proof.
  unfold cx. destruct (qubit qc c); simpl; [| discriminate].
  destruct (qubit qc t); simpl; [| discriminate].
  intros [= <-] H. simpl. apply Forall_app. split; [exact H |].
  repeat constructor.
Qed.

Lemma delay_unmeasured s k qc qc' :
  delay s k qc = Ok qc' ->
  Forall (fun ci => is_measure ci = false) (data qc) ->
  Forall (fun ci => is_measure ci = false) (data qc').
Proof.
  unfold delay. destruct (qubit qc k); simpl; [| discriminate].
  intros [= <-] H. simpl. apply Forall_app. split; [exact H |].
  repeat constructor.
Qed.

Lemma append3_unmeasured g qc qc' :
  g <> Measure ->
  append3 g qc = Ok qc' ->
  Forall (fun ci => is_measure ci = false) (data qc) ->
  Forall (fun ci => is_measure ci = false) (data qc').
Proof.
  intros Hg. unfold append3. destruct (qubit qc 0); simpl; [| discriminate].
  destruct (qubit qc 1); simpl; [| discriminate].
  destruct (qubit qc 2); simpl; [| discriminate].
  intros [= <-] H. simpl. apply Forall_app. split; [exact H |].
  constructor; [| constructor]. unfold is_measure. simpl.
  destruct g; congruence.
Qed.

Lemma for_each_unmeasured {A}
      (body : A -> QuantumCircuit -> outcome QuantumCircuit) (ks : list A) :
  (forall k q q', body k q = Ok q' ->
                  Forall (fun ci => is_measure ci = false) (data q) ->
                  Forall (fun ci => is_measure ci = false) (data q')) ->
  forall qc qc', for_each ks body qc = Ok qc' ->
                 Forall (fun ci => is_measure ci = false) (data qc) ->
                 Forall (fun ci => is_measure ci = false) (data qc').
Proof.
  intros Hbody. induction ks as [| k rest IH]; intros qc qc' Hf H.
  - injection Hf as <-. exact H.
  - simpl in Hf. destruct (body k qc) as [q1 |] eqn:E1; [| discriminate].
    simpl in Hf. exact (IH _ _ Hf (Hbody _ _ _ E1 H)).
Qed.

Lemma base_qc_unmeasured size n st g base :
  g <> Measure ->
  base_qc size n st g = Ok base ->
  Forall (fun ci => is_measure ci = false) (data base).
Proof.
  intros Hg. unfold base_qc, new_circuit. intros Hb.
  destruct (_ || _); simpl in Hb; [discriminate |].
  destruct (prepare _ _ _) as [q1 |] eqn:E1; [simpl in Hb | discriminate].
  assert (Forall (fun ci => is_measure ci = false) (data q1)) as H1.
  { revert E1. unfold prepare. destruct (st =? 1); [| destruct (st =? 2)].
    - intros E1. refine (for_each_unmeasured _ _ _ _ _ E1 _); [| constructor].
      intros k q q'. apply x_unmeasured.
    - intros E1. refine (for_each_unmeasured _ _ _ _ _ E1 _); [| constructor].
      intros k q q'. apply h_unmeasured.
    - intros [= <-]. constructor. }
  unfold grover_twice in Hb.
  destruct (h 0 q1) as [q2 |] eqn:E2; [simpl in Hb | discriminate].
  destruct (h 1 q2) as [q3 |] eqn:E3; [simpl in Hb | discriminate].
  destruct (h 2 q3) as [q4 |] eqn:E4; [simpl in Hb | discriminate].
  destruct (append3 g q4) as [q5 |] eqn:E5; [simpl in Hb | discriminate].
  apply (append3_unmeasured _ _ _ Hg Hb).
  apply (append3_unmeasured _ _ _ Hg E5).
  apply (h_unmeasured _ _ _ E4), (h_unmeasured _ _ _ E3), (h_unmeasured _ _ _ E2).
  exact H1.
Qed.

Lemma attack_unmeasured i n s qc qc' :
  attack i n s qc = Ok qc' ->
  Forall (fun ci => is_measure ci = false) (data qc) ->
  Forall (fun ci => is_measure ci = false) (data qc').
Proof.
  unfold attack. apply for_each_unmeasured. intros j q q'.
  apply for_each_unmeasured. intros k q0 q0' Hk H.
  destruct (cx k (k + 1) q0) as [q1 |] eqn:E1; [simpl in Hk | discriminate].
  exact (delay_unmeasured _ _ _ _ Hk (cx_unmeasured _ _ _ _ E1 H)).
Qed.

Lemma attack_spacing_unmeasured i n s qc qc' :
  attack_spacing i n s qc = Ok qc' ->
  Forall (fun ci => is_measure ci = false) (data qc) ->
  Forall (fun ci => is_measure ci = false) (data qc').
Proof.
  unfold attack_spacing. apply for_each_unmeasured. intros j q q'.
  apply for_each_unmeasured. intros k q0 q0' Hk H.
  destruct (cx (k + 1) (k + 2) q0) as [q1 |] eqn:E1; [simpl in Hk | discriminate].
  exact (delay_unmeasured _ _ _ _ Hk (cx_unmeasured _ _ _ _ E1 H)).
Qed.

Lemma measured_shape (qc qc' : QuantumCircuit) (size : Z) :
  num_qubits qc = size -> num_clbits qc = size ->
  Forall (fun ci => is_measure ci = false) (data qc) ->
  measure_all qc = Ok qc' ->
  measured_at_end size qc'.
Proof.
  intros Hq Hc Hu. rewrite (measure_all_ok qc size Hq Hc). intros [= <-].
  split; [exact Hq |]. split; [exact Hc |].
  exists (data qc). split; [reflexivity | exact Hu].
Qed.

(** X4: whichever builder returns a circuit, that circuit has as many
    classical bits as qubits ([numQubits] without spacing,
    [numQubits + (numQubits - 3) // 2] with spacing), measures nothing
    before its end, and ends with one measurement per qubit of the
    register, qubit [k] into classical bit [k]. Each builder is covered on
    its own: one may raise where another returns. *)
Theorem built_circuits_measure_whole_register
        (numQubits initialState : Z) (groverOperator : Gate) (i : Z) (slots : Q) :
  groverOperator <> Measure ->
  (forall qc,
      no_attack_qc numQubits initialState groverOperator = Ok qc ->
      measured_at_end numQubits qc) /\
  (forall s qc,
      attack_qc numQubits initialState groverOperator i slots = Ok (s, qc) ->
      measured_at_end numQubits qc) /\
  (forall s qc,
      attack_spacing_qc numQubits initialState groverOperator i slots
      = Ok (s, qc) ->
      measured_at_end (numQubits + (numQubits - 3) / 2) qc).
Proof.
  intros Hg. refine (conj _ (conj _ _)).
  - intros qc H0. rewrite no_attack_qc_from_base in H0.
    destruct (base_qc _ _ _ _) as [base |] eqn:Eb; [simpl in H0 | discriminate].
    pose proof (base_qc_unmeasured _ _ _ _ _ Hg Eb) as Hu.
    apply base_qc_extends in Eb as (_ & Hq & Hc).
    exact (measured_shape _ _ _ Hq Hc Hu H0).
  - intros s qc H1. rewrite attack_qc_from_base in H1.
    destruct (base_qc _ _ _ _) as [base |] eqn:Eb; [simpl in H1 | discriminate].
    pose proof (base_qc_unmeasured _ _ _ _ _ Hg Eb) as Hu.
    apply base_qc_extends in Eb as (_ & Hq & Hc).
    destruct (attack _ _ _ _) as [qa |] eqn:Ea; [simpl in H1 | discriminate].
    pose proof (attack_unmeasured _ _ _ _ _ Ea Hu) as Hu'.
    apply attack_extends in Ea as (m & ->).
    destruct (measure_all _) as [qm |] eqn:Em; [simpl in H1 | discriminate].
    injection H1 as _ <-.
    exact (measured_shape (extend base m) _ _ Hq Hc Hu' Em).
  - intros s qc H2. rewrite attack_spacing_qc_from_base in H2.
    destruct (base_qc _ _ _ _) as [base |] eqn:Eb; [simpl in H2 | discriminate].
    pose proof (base_qc_unmeasured _ _ _ _ _ Hg Eb) as Hu.
    apply base_qc_extends in Eb as (_ & Hq & Hc).
    destruct (attack_spacing _ _ _ _) as [qa |] eqn:Ea; [simpl in H2 | discriminate].
    pose proof (attack_spacing_unmeasured _ _ _ _ _ Ea Hu) as Hu'.
    apply attack_spacing_extends in Ea as (m & ->).
    destruct (measure_all _) as [qm |] eqn:Em; [simpl in H2 | discriminate].
    injection H2 as _ <-.
    exact (measured_shape (extend base m) _ _ Hq Hc Hu' Em).
Qed.

Lemma built_circuits_measure_whole_register_witness :
  createGroverOperator <> Measure /\
  attack_qc 6 0 createGroverOperator 5 8%Q = Raise IndexError /\
  exists (qc0 qc2 : QuantumCircuit) (s2 : Q),
    no_attack_qc 6 0 createGroverOperator = Ok qc0 /\
    attack_spacing_qc 6 0 createGroverOperator 5 8%Q = Ok (s2, qc2) /\
    measured_at_end 6 qc0 /\ measured_at_end 7 qc2.
Proof.
  assert (createGroverOperator <> Measure) as Hg by discriminate.
  split; [exact Hg |]. split; [vm_compute; reflexivity |].
  destruct (no_attack_qc 6 0 createGroverOperator) as [qc0 |] eqn:H0;
    [| vm_compute in H0; discriminate H0].
  destruct (attack_spacing_qc 6 0 createGroverOperator 5 8%Q)
    as [[s2 qc2] |] eqn:H2; [| vm_compute in H2; discriminate H2].
  exists qc0, qc2, s2. split; [reflexivity |]. split; [reflexivity |].
  destruct (built_circuits_measure_whole_register
              6 0 createGroverOperator 5 8%Q Hg) as (Hno & _ & Hsp).
  split; [exact (Hno qc0 H0) | exact (Hsp s2 qc2 H2)].
Defined.

Lemma for_each_same {A} (ks : list A) (qc : QuantumCircuit) :
  for_each ks (fun _ q => Ok q) qc = Ok qc.
Proof. induction ks as [| k rest IH]; [reflexivity | exact IH]. Qed.

(** X5: with three qubits there is no redundancy qubit and the attack
    rounds add nothing: at every sweep index both attack builders build
    exactly the circuit of the no-attack methods (or raise as it does), and
    only step [slots]. *)
Theorem three_qubit_attack_is_no_attack
        (initialState : Z) (groverOperator : Gate) (i : Z) (slots : Q) :
  attack_qc 3 initialState groverOperator i slots
  = (qc ← no_attack_qc 3 initialState groverOperator;
     Ok (next_slots i slots, qc)) /\
  attack_spacing_qc 3 initialState groverOperator i slots
  = (qc ← no_attack_qc 3 initialState groverOperator;
     Ok (next_slots i slots, qc)).
Proof.
  split.
  - rewrite attack_qc_from_base, no_attack_qc_from_base.
    destruct (base_qc 3 3 initialState groverOperator) as [base |];
      [simpl | reflexivity].
    unfold attack. change (range 3 3 2) with (@nil Z). simpl.
    rewrite for_each_same. reflexivity.
  - rewrite attack_spacing_qc_from_base, no_attack_qc_from_base.
    change (3 + (3 - 3) / 2) with 3.
    destruct (base_qc 3 3 initialState groverOperator) as [base |];
      [simpl | reflexivity].
    unfold attack_spacing. change (range 3 3 3) with (@nil Z). simpl.
    rewrite for_each_same. reflexivity.
Qed.

(** ** Too few qubits *)

Lemma h_raises (k : Z) (qc : QuantumCircuit) :
  0 <= num_qubits qc <= k -> h k qc = Raise IndexError.
Proof.
  intros Hk. unfold h, qubit. rewrite index_out_of_range by exact Hk.
  reflexivity.
Qed.

Lemma base_qc_too_small (size n st : Z) (g : Gate) :
  0 <= size < 3 -> n < 3 -> base_qc size n st g = Raise IndexError.
Proof.
  intros Hs Hn. unfold base_qc, new_circuit.
  destruct (Z.ltb_spec size 0); [lia |]. simpl.
  assert (range 3 n 2 = []) as Hr.
  { unfold range.
    replace (Z.to_nat ((n - 3 + 2 - 1) / 2)) with 0%nat; [reflexivity |].
    Z.div_mod_to_equations. lia. }
  unfold prepare. rewrite Hr. simpl.
  assert (forall qc, num_qubits qc = size ->
                     grover_twice g qc = Raise IndexError) as Hg.
  { intros qc Hq. unfold grover_twice.
    destruct (Z.eq_dec size 0) as [E0 | N0].
    { rewrite h_raises by lia. reflexivity. }
    rewrite h_ok by lia. simpl.
    destruct (Z.eq_dec size 1) as [E1 | N1].
    { rewrite h_raises by (simpl; lia). reflexivity. }
    rewrite h_ok by (simpl; lia). simpl.
    rewrite h_raises by (simpl; lia). reflexivity. }
  destruct (st =? 1); [| destruct (st =? 2)]; simpl; apply Hg; reflexivity.
Qed.

Lemma builders_too_small (n st : Z) (g : Gate) (i : Z) (s : Q) :
  1 <= n < 3 ->
  no_attack_qc n st g = Raise IndexError /\
  attack_qc n st g i s = Raise IndexError /\
  attack_spacing_qc n st g i s = Raise IndexError.
Proof.
  intros Hn.
  rewrite no_attack_qc_from_base, attack_qc_from_base, attack_spacing_qc_from_base.
  rewrite (base_qc_too_small n n st g) by lia.
  rewrite (base_qc_too_small (n + (n - 3) / 2) n st g)
    by (try split; Z.div_mod_to_equations; lia).
  repeat split.
Qed.

Section BuilderEdges.
Context {Props : Type} {collaborators : Collaborators Props}.

Lemma sweep_method_eq
      (build : Experiment Props -> Z -> Q -> outcome (Q * ScheduledCircuit))
      (self : Experiment Props) :
  (forall e cs, build (with_circuits e cs) = build e) ->
  (_ ← forM (range 0 45 1) (sweep_round build) 8%Q; mret tt) self =
  (match snd (sweep (build self) (range 0 45 1) 8%Q) with
   | Ok _ => Ok tt
   | Raise e => Raise e
   end,
   with_circuits self
     (circuits self ++ fst (sweep (build self) (range 0 45 1) 8%Q))).
Proof.
  intros Hb. unfold mbind at 1, M_bind at 1.
  rewrite (forM_round build _ _ _ Hb).
  destruct (snd (sweep (build self) (range 0 45 1) 8%Q)); reflexivity.
Qed.

Lemma sweep_raises_at_once (build' : Z -> Q -> outcome (Q * ScheduledCircuit))
      (e : exn) :
  build' 0 8%Q = Raise e ->
  sweep build' (range 0 45 1) 8%Q = ([], Raise e).
Proof.
  intros Hb. change (range 0 45 1) with (0 :: range 1 45 1).
  simpl. rewrite Hb. reflexivity.
Qed.

Lemma sweep_raises_second (build' : Z -> Q -> outcome (Q * ScheduledCircuit))
      (s : Q) (c : ScheduledCircuit) (e : exn) :
  build' 0 8%Q = Ok (s, c) -> build' 1 s = Raise e ->
  sweep build' (range 0 45 1) 8%Q = ([c], Raise e).
Proof.
  intros H0 H1. change (range 0 45 1) with (0 :: 1 :: range 2 45 1).
  simpl. rewrite H0, H1. reflexivity.
Qed.

Lemma no_attack_method_raises (o : outcome ScheduledCircuit) (e : exn)
      (self : Experiment Props) :
  o = Raise e -> (c ← lift o; append_circuit c) self = (Raise e, self).
Proof. intros ->. reflexivity. Qed.

(** X6: with one or two qubits the data qubits 0, 1, 2 do not all exist:
    each of the six circuit-adding methods raises [IndexError] and leaves
    the object exactly as it was, no circuit appended. *)
Theorem too_few_qubits_raise_and_append_nothing (self : Experiment Props) :
  1 <= numQubits self < 3 ->
  addNoAttackCircuit self = (Raise IndexError, self) /\
  addNoAttackPlusDDCircuit self = (Raise IndexError, self) /\
  addAttackWithoutMitigationCircuits self = (Raise IndexError, self) /\
  addAttackWithDDCircuits self = (Raise IndexError, self) /\
  addAttackWithSpacingCircuits self = (Raise IndexError, self) /\
  addAttackWithDDAndSpacingCircuits self = (Raise IndexError, self).
Proof.
  intros Hn.
  pose proof (builders_too_small (numQubits self) (initialState self)
                (groverOperator self) 0 8%Q Hn) as (H0 & H1 & H2).
  assert (with_circuits self (circuits self ++ []) = self) as Hsame
      by (rewrite app_nil_r; apply with_circuits_same).
  refine (conj _ (conj _ (conj _ (conj _ (conj _ _))))).
  - unfold addNoAttackCircuit. unfold mbind at 1, M_bind at 1, get.
    apply no_attack_method_raises. rewrite H0. reflexivity.
  - unfold addNoAttackPlusDDCircuit. unfold mbind at 1, M_bind at 1, get.
    apply no_attack_method_raises. rewrite H0. reflexivity.
  - etransitivity;
      [exact (sweep_method_eq build_without_mitigation self
                              ltac:(reflexivity)) |].
    rewrite (sweep_raises_at_once _ IndexError)
      by (unfold build_without_mitigation; rewrite H1; reflexivity).
    simpl. rewrite Hsame. reflexivity.
  - etransitivity;
      [exact (sweep_method_eq build_with_dd self ltac:(reflexivity)) |].
    rewrite (sweep_raises_at_once _ IndexError)
      by (unfold build_with_dd; rewrite H1; reflexivity).
    simpl. rewrite Hsame. reflexivity.
  - etransitivity;
      [exact (sweep_method_eq build_with_spacing self ltac:(reflexivity)) |].
    rewrite (sweep_raises_at_once _ IndexError)
      by (unfold build_with_spacing; rewrite H2; reflexivity).
    simpl. rewrite Hsame. reflexivity.
  - etransitivity;
      [exact (sweep_method_eq build_with_dd_and_spacing self
                              ltac:(reflexivity)) |].
    rewrite (sweep_raises_at_once _ IndexError)
      by (unfold build_with_dd_and_spacing; rewrite H2; reflexivity).
    simpl. rewrite Hsame. reflexivity.
Qed.

End BuilderEdges.

Lemma too_few_qubits_raise_and_append_nothing_witness :
  exists self : Experiment unit,
    __init__ 2 [] [] Simulated.sim_backend 1 0 = Ok self /\
    addNoAttackCircuit (collaborators := Simulated.sim) self
    = (Raise IndexError, self) /\
    addNoAttackPlusDDCircuit (collaborators := Simulated.sim) self
    = (Raise IndexError, self) /\
    addAttackWithoutMitigationCircuits (collaborators := Simulated.sim) self
    = (Raise IndexError, self) /\
    addAttackWithDDCircuits (collaborators := Simulated.sim) self
    = (Raise IndexError, self) /\
    addAttackWithSpacingCircuits (collaborators := Simulated.sim) self
    = (Raise IndexError, self) /\
    addAttackWithDDAndSpacingCircuits (collaborators := Simulated.sim) self
    = (Raise IndexError, self).
Proof.
  eexists. split; [vm_compute; reflexivity |].
  apply (too_few_qubits_raise_and_append_nothing
           (collaborators := Simulated.sim)).
  simpl. lia.
Defined.

(** ** An even number of qubits *)

Lemma range_even_split (n : Z) :
  n mod 2 = 0 -> 4 <= n -> range 3 n 2 = range 3 (n - 1) 2 ++ [n - 1].
Proof.
  intros He Hn. unfold range.
  assert (Z.to_nat ((n - 3 + 2 - 1) / 2)
          = S (Z.to_nat ((n - 1 - 3 + 2 - 1) / 2))) as ->
      by (Z.div_mod_to_equations; lia).
  rewrite seq_S, map_app. simpl. f_equal. f_equal.
  Z.div_mod_to_equations. lia.
Qed.

Lemma for_each_app {A S} (l1 l2 : list A) (body : A -> S -> outcome S) (s : S) :
  for_each (l1 ++ l2) body s = (s' ← for_each l1 body s; for_each l2 body s').
Proof.
  revert s. induction l1 as [| a rest IH]; intros s; [reflexivity |].
  simpl. destruct (body a s) as [s1 |]; simpl; [apply IH | reflexivity].
Qed.

Lemma cx_raises (c t : Z) (qc : QuantumCircuit) :
  0 <= c < num_qubits qc -> num_qubits qc <= t ->
  cx c t qc = Raise IndexError.
Proof.
  intros Hc Ht. unfold cx, qubit.
  rewrite (index_in_range _ c) by exact Hc. simpl.
  rewrite index_out_of_range by lia. reflexivity.
Qed.

Lemma attack_even_raises (n : Z) (slots : Q) (qc : QuantumCircuit) :
  n mod 2 = 0 -> 4 <= n -> num_qubits qc = n ->
  attack 1 n slots qc = Raise IndexError.
Proof.
  intros He Hn Hq. unfold attack. change (range 0 1 1) with [0]. simpl.
  rewrite range_even_split, for_each_app by assumption.
  rewrite (for_each_extend
             (fun k => [instr (Std CXGate) [k; k + 1];
                        instr (Delay slots "us") [k]])).
  - simpl. rewrite cx_raises by (simpl; lia). reflexivity.
  - intros k qc' Hk Hq'.
    pose proof (elem_of_range 3 (n - 1) 2 k ltac:(lia) Hk) as Hr.
    pose proof (elem_of_range_odd _ _ Hk) as Hko.
    assert (k + 1 < n) by lia.
    rewrite cx_ok by lia. simpl.
    rewrite delay_ok by (simpl; lia).
    rewrite extend_extend. reflexivity.
Qed.

Lemma attack_qc_first_rounds (n st : Z) (g : Gate) (qc0 : QuantumCircuit) :
  n mod 2 = 0 -> 4 <= n ->
  no_attack_qc n st g = Ok qc0 ->
  attack_qc n st g 0 8%Q = Ok (next_slots 0 8%Q, qc0) /\
  attack_qc n st g 1 (next_slots 0 8%Q) = Raise IndexError.
Proof.
  intros He Hn H0. rewrite no_attack_qc_from_base in H0.
  rewrite !attack_qc_from_base.
  destruct (base_qc n n st g) as [base |] eqn:Eb; [simpl in * | discriminate].
  apply base_qc_extends in Eb as (_ & Hq & _). split.
  - rewrite H0. reflexivity.
  - rewrite attack_even_raises by assumption. reflexivity.
Qed.

Section EvenQubits.
Context {Props : Type} {collaborators : Collaborators Props}.

(** X7: with an even number of qubits, four or more, the attack methods
    without spacing append the circuit of sweep index 0, which is the
    no-attack circuit, and then raise [IndexError] at index 1: the object
    is left with that one circuit appended, not with none and not with 45. *)
Theorem even_qubits_append_one_circuit_then_raise
        (self : Experiment Props) (qc0 : QuantumCircuit)
        (tr_circuit qc_dd : ScheduledCircuit) :
  numQubits self mod 2 = 0 -> 4 <= numQubits self ->
  no_attack_qc (numQubits self) (initialState self) (groverOperator self)
  = Ok qc0 ->
  transpile qc0 (backend self) (initialLayout self) = Ok tr_circuit ->
  apply_dd (backend self) (ddSequenceType self) (initialLayout self) tr_circuit
  = Ok qc_dd ->
  addAttackWithoutMitigationCircuits self
  = (Raise IndexError, with_circuits self (circuits self ++ [tr_circuit])) /\
  addAttackWithDDCircuits self
  = (Raise IndexError, with_circuits self (circuits self ++ [qc_dd])).
Proof.
  intros He Hn H0 Htr Hdd.
  destruct (attack_qc_first_rounds _ _ _ _ He Hn H0) as [Hfirst Hsecond].
  split.
  - etransitivity;
      [exact (sweep_method_eq build_without_mitigation self
                              ltac:(reflexivity)) |].
    rewrite (sweep_raises_second _ (next_slots 0 8%Q) tr_circuit IndexError).
    + reflexivity.
    + unfold build_without_mitigation. rewrite Hfirst. simpl.
      rewrite Htr. reflexivity.
    + unfold build_without_mitigation. rewrite Hsecond. reflexivity.
  - etransitivity;
      [exact (sweep_method_eq build_with_dd self ltac:(reflexivity)) |].
    rewrite (sweep_raises_second _ (next_slots 0 8%Q) qc_dd IndexError).
    + reflexivity.
    + unfold build_with_dd. rewrite Hfirst. simpl.
      rewrite Htr. simpl. rewrite Hdd. reflexivity.
    + unfold build_with_dd. rewrite Hsecond. reflexivity.
Qed.

End EvenQubits.

Lemma even_qubits_append_one_circuit_then_raise_witness :
  exists (self : Experiment unit) (c c_dd : ScheduledCircuit),
    __init__ 4 [] [] Simulated.sim_backend 0 0 = Ok self /\
    addAttackWithoutMitigationCircuits (collaborators := Simulated.sim) self
    = (Raise IndexError, with_circuits self (circuits self ++ [c])) /\
    addAttackWithDDCircuits (collaborators := Simulated.sim) self
    = (Raise IndexError, with_circuits self (circuits self ++ [c_dd])).
Proof.
  eexists. eexists. eexists. split; [vm_compute; reflexivity |].
  eapply (even_qubits_append_one_circuit_then_raise
            (collaborators := Simulated.sim));
    [reflexivity | simpl; lia | vm_compute; reflexivity
     | vm_compute; reflexivity | vm_compute; reflexivity].
Defined.

(** ** How many circuits a call appends *)

Section Counts.
Context {Props : Type} {collaborators : Collaborators Props}.

Lemma sweeps_returning (method : M Props unit) build
      (self self' : Experiment Props) (u : unit) :
  sweeps method build -> method self = (Ok u, self') ->
  exists new, circuits self' = circuits self ++ new /\ length new = 45%nat.
Proof.
  intros Hs Hm. destruct (Hs self) as (new & Hsnd & _ & Hok & _).
  rewrite Hm in Hsnd, Hok. simpl in Hsnd, Hok. subst self'.
  exists new. split; [reflexivity | apply Hok; reflexivity].
Qed.

Lemma single_returning (o : outcome ScheduledCircuit)
      (self self' : Experiment Props) (u : unit) :
  (c ← lift o; append_circuit c) self = (Ok u, self') ->
  exists new, circuits self' = circuits self ++ new /\ length new = 1%nat.
Proof.
  unfold mbind, M_bind, lift. destruct o as [c |]; [| discriminate].
  simpl. intros Heq. injection Heq as _ <-.
  exists [c]. split; reflexivity.
Qed.

(** X8: a circuit-adding call that returns has appended exactly one circuit
    (the two no-attack methods) or exactly 45 circuits (the four attack
    methods). *)
Theorem returning_call_appends_fixed_number
        (c : call) (self self' : Experiment Props) :
  is_add c = true ->
  do_call c self = (Ok tt, self') ->
  exists new,
    circuits self' = circuits self ++ new /\ length new = added c.
Proof.
  intros Hc Hcall. destruct c; simpl in *; try discriminate.
  - unfold addNoAttackCircuit in Hcall.
    unfold mbind at 1, M_bind at 1, get in Hcall.
    exact (single_returning _ _ _ _ Hcall).
  - unfold addNoAttackPlusDDCircuit in Hcall.
    unfold mbind at 1, M_bind at 1, get in Hcall.
    exact (single_returning _ _ _ _ Hcall).
  - exact (sweeps_returning _ _ _ _ _ without_mitigation_sweeps Hcall).
  - exact (sweeps_returning _ _ _ _ _ with_dd_sweeps Hcall).
  - exact (sweeps_returning _ _ _ _ _ with_spacing_sweeps Hcall).
  - exact (sweeps_returning _ _ _ _ _ with_dd_and_spacing_sweeps Hcall).
Qed.

End Counts.

Lemma returning_call_appends_fixed_number_witness :
  exists (self self' : Experiment unit) (new : list ScheduledCircuit),
    __init__ 9 [] [] Simulated.sim_backend 2 1 = Ok self /\
    do_call (collaborators := Simulated.sim) AddAttackWithDDAndSpacingCircuits self
    = (Ok tt, self') /\
    circuits self' = circuits self ++ new /\ length new = 45%nat.
Proof.
  eexists. eexists.
  match goal with
  | |- exists new, ?init /\ ?ran /\ _ =>
      assert init as Hinit by (vm_compute; reflexivity);
      assert ran as Hran by (vm_compute; reflexivity)
  end.
  destruct (returning_call_appends_fixed_number
              (collaborators := Simulated.sim)
              AddAttackWithDDAndSpacingCircuits _ _ eq_refl Hran)
    as (new & Hnew & Hlen).
  exists new. repeat split; assumption.
Defined.

(** ** Submission *)

Section Submission.
Context {Props : Type} {collaborators : Collaborators Props}.

Lemma getitem_lookup {A} (xs : list A) (a : nat) :
  getitem xs (0 + Z.of_nat a)
  = match xs !! a with Some v => Ok v | None => Raise IndexError end.
Proof.
  unfold getitem, index, len.
  destruct (Nat.lt_ge_cases a (length xs)) as [Hlt | Hge].
  - destruct (Z.leb_spec 0 (0 + Z.of_nat a)); [| lia].
    destruct (Z.ltb_spec (0 + Z.of_nat a) (Z.of_nat (length xs))); [| lia].
    simpl. replace (Z.to_nat (0 + Z.of_nat a)) with a by lia.
    destruct (xs !! a); reflexivity.
  - rewrite (lookup_ge_None_2 xs a Hge).
    destruct (Z.leb_spec 0 (0 + Z.of_nat a)); [| lia].
    destruct (Z.ltb_spec (0 + Z.of_nat a) (Z.of_nat (length xs))); [lia |].
    destruct (Z.ltb_spec (0 + Z.of_nat a) 0); [lia |].
    simpl. rewrite andb_false_r. reflexivity.
Qed.

Lemma run_round (jobResult : list (gmap string Z)) (a : nat)
      (self : Experiment Props) :
  (self0 ← get;
   counts ← lift (getitem jobResult (0 + Z.of_nat a));
   set_result (result self0 ++ [counts])) self
  = match jobResult !! a with
    | Some counts => (Ok tt, with_result self (result self ++ [counts]))
    | None => (Raise IndexError, self)
    end.
Proof.
  unfold mbind, M_bind, get, lift. rewrite getitem_lookup.
  destruct (jobResult !! a); reflexivity.
Qed.

Lemma run_loop_complete (jobResult : list (gmap string Z)) (m a : nat)
      (self : Experiment Props) :
  (a + m <= length jobResult)%nat ->
  forM (map (fun j => 0 + Z.of_nat j) (seq a m))
       (fun i (_ : unit) =>
          self ← get;
          counts ← lift (getitem jobResult i);
          set_result (result self ++ [counts]))
       tt self
  = (Ok tt, with_result self (result self ++ take m (drop a jobResult))).
Proof.
  revert a self. induction m as [| m IH]; intros a self Hlen.
  - simpl. rewrite take_0, app_nil_r, with_result_same. reflexivity.
  - cbn [seq map]. rewrite forM_cons, run_round.
    destruct (lookup_lt_is_Some_2 jobResult a ltac:(lia)) as [counts Hc].
    rewrite Hc, IH by lia. simpl.
    rewrite (drop_S _ _ _ Hc). simpl. rewrite <- app_assoc. reflexivity.
Qed.

Lemma run_loop_short (jobResult : list (gmap string Z)) (m a : nat)
      (self : Experiment Props) :
  (a <= length jobResult < a + m)%nat ->
  forM (map (fun j => 0 + Z.of_nat j) (seq a m))
       (fun i (_ : unit) =>
          self ← get;
          counts ← lift (getitem jobResult i);
          set_result (result self ++ [counts]))
       tt self
  = (Raise IndexError, with_result self (result self ++ drop a jobResult)).
Proof.
  revert a self. induction m as [| m IH]; intros a self Hlen; [lia |].
  cbn [seq map]. rewrite forM_cons, run_round.
  destruct (jobResult !! a) as [counts |] eqn:Hc.
  - apply lookup_lt_Some in Hc as Hlt. rewrite IH by lia. simpl.
    rewrite (drop_S _ _ _ Hc). simpl. rewrite <- app_assoc. reflexivity.
  - apply lookup_ge_None in Hc. rewrite drop_ge by lia.
    rewrite app_nil_r, with_result_same. reflexivity.
Qed.

Lemma runAllCircuits_unfold (self : Experiment Props) :
  runAllCircuits self =
  match sampler_run (backend self) (map (fun c => [c]) (circuits self)) with
  | Raise e => (Raise e, self)
  | Ok jobResult =>
      match forM (map (fun j => 0 + Z.of_nat j) (seq 0 (length (circuits self))))
                 (fun i (_ : unit) =>
                    self ← get;
                    counts ← lift (getitem jobResult i);
                    set_result (result self ++ [counts]))
                 tt (with_result self []) with
      | (Ok _, self') => (Ok tt, self')
      | (Raise e, self') => (Raise e, self')
      end
  end.
Proof.
  unfold runAllCircuits. unfold mbind at 1, M_bind at 1, get.
  unfold mbind at 1, M_bind at 1, lift.
  destruct (sampler_run _ _) as [jobResult | e]; [| reflexivity].
  unfold mbind at 1, M_bind at 1, set_result.
  unfold mbind at 1, M_bind at 1.
  rewrite range_unit_step. unfold len.
  replace (Z.to_nat (Z.of_nat (length (circuits self)) - 0))
    with (length (circuits self)) by lia.
  reflexivity.
Qed.

(** X9: when the submission itself raises, [runAllCircuits] raises the same
    exception and leaves the object as it was: results of an earlier run
    stay in place. *)
Theorem failed_submission_keeps_object (self : Experiment Props) (e : exn) :
  sampler_run (backend self) (map (fun c => [c]) (circuits self)) = Raise e ->
  runAllCircuits self = (Raise e, self).
Proof. intros Hs. rewrite runAllCircuits_unfold, Hs. reflexivity. Qed.

(** X10: when the job returns fewer results than there are circuits,
    [runAllCircuits] raises [IndexError] and leaves in [result] the entries
    it had read: the earlier results are gone and [result] is shorter than
    the circuit list. *)
Theorem short_job_result_leaves_partial_results
        (self : Experiment Props) (jobResult : list (gmap string Z)) :
  sampler_run (backend self) (map (fun c => [c]) (circuits self)) = Ok jobResult ->
  (length jobResult < length (circuits self))%nat ->
  runAllCircuits self = (Raise IndexError, with_result self jobResult).
Proof.
  intros Hs Hlen. rewrite runAllCircuits_unfold, Hs.
  rewrite run_loop_short by (simpl; lia). simpl. rewrite drop_0. reflexivity.
Qed.

(** X11: when the job returns at least as many results as there are
    circuits, [runAllCircuits] returns and [result] is exactly the first
    [len(circuits)] entries of the job result, whatever [result] held
    before: a second run replaces the results of the first. *)
Theorem complete_job_result_replaces_results
        (self : Experiment Props) (jobResult previous : list (gmap string Z)) :
  sampler_run (backend self) (map (fun c => [c]) (circuits self)) = Ok jobResult ->
  (length (circuits self) <= length jobResult)%nat ->
  runAllCircuits self
  = (Ok tt, with_result self (take (length (circuits self)) jobResult)) /\
  runAllCircuits (with_result self previous)
  = (Ok tt, with_result self (take (length (circuits self)) jobResult)).
Proof.
  intros Hs Hlen. split.
  - rewrite runAllCircuits_unfold, Hs.
    rewrite run_loop_complete by (simpl; lia). simpl. rewrite drop_0.
    reflexivity.
  - rewrite runAllCircuits_unfold. simpl. rewrite Hs.
    rewrite run_loop_complete by (simpl; lia). simpl. rewrite drop_0.
    reflexivity.
Qed.

End Submission.

Lemma failed_submission_keeps_object_witness :
  exists self : Experiment unit,
    __init__ 9 [] [] Simulated.sim_backend 0 0 = Ok self /\
    runAllCircuits (collaborators := Simulated.offline)
      (after (collaborators := Simulated.sim) [AddNoAttackCircuit; RunAllCircuits] self)
    = (Raise (ExternalError "submission failed"),
       after (collaborators := Simulated.sim) [AddNoAttackCircuit; RunAllCircuits] self).
Proof.
  eexists. split; [vm_compute; reflexivity |].
  apply (failed_submission_keeps_object (collaborators := Simulated.offline)).
  reflexivity.
Defined.

Lemma short_job_result_leaves_partial_results_witness :
  exists self : Experiment unit,
    __init__ 9 [] [] Simulated.sim_backend 0 0 = Ok self /\
    runAllCircuits (collaborators := Simulated.truncating)
      (after (collaborators := Simulated.sim)
             [AddNoAttackCircuit; AddNoAttackPlusDDCircuit] self)
    = (Raise IndexError,
       with_result
         (after (collaborators := Simulated.sim)
                [AddNoAttackCircuit; AddNoAttackPlusDDCircuit] self)
         [Simulated.all_ones]).
Proof.
  eexists. split; [vm_compute; reflexivity |].
  apply (short_job_result_leaves_partial_results
           (collaborators := Simulated.truncating)).
  - vm_compute. reflexivity.
  - vm_compute. lia.
Defined.

Lemma complete_job_result_replaces_results_witness :
  exists self : Experiment unit,
    __init__ 9 [] [] Simulated.sim_backend 0 0 = Ok self /\
    let built := after (collaborators := Simulated.sim)
                       [AddNoAttackCircuit; AddNoAttackPlusDDCircuit] self in
    runAllCircuits (collaborators := Simulated.sim) built
    = (Ok tt, with_result built
                (take (length (circuits built))
                      [Simulated.all_ones; Simulated.all_ones])) /\
    runAllCircuits (collaborators := Simulated.sim)
                   (with_result built [Simulated.no_shots])
    = (Ok tt, with_result built
                (take (length (circuits built))
                      [Simulated.all_ones; Simulated.all_ones])).
Proof.
  eexists. split; [vm_compute; reflexivity |].
  apply (complete_job_result_replaces_results (collaborators := Simulated.sim)).
  - vm_compute. reflexivity.
  - vm_compute. lia.
Defined.

(** ** Scoring *)

Section ScoringEdges.
Context {Props : Type} {collaborators : Collaborators Props}.

Lemma score_loop_returns (counts : list (gmap string Z)) (fs : list R) :
  Forall2 (fun count f => find_fidelity count = Ok f) counts fs ->
  forall (i : Z) (self : Experiment Props),
    forM counts score_round i self
    = (Ok (i + len counts), with_fidelities self (fidelities self ++ fs)).
Proof.
  induction 1 as [| count f rest fs' Hf _ IH]; intros i self.
  - simpl. unfold len. simpl. rewrite Z.add_0_r, app_nil_r, with_fidelities_same.
    reflexivity.
  - rewrite forM_cons, score_round_eq, Hf, IH. simpl.
    rewrite <- app_assoc. simpl. f_equal. f_equal. unfold len. simpl. lia.
Qed.

Lemma score_loop_raises (pre post : list (gmap string Z)) (bad : gmap string Z)
      (fs : list R) (e : exn) :
  Forall2 (fun count f => find_fidelity count = Ok f) pre fs ->
  find_fidelity bad = Raise e ->
  forall (i : Z) (self : Experiment Props),
    forM (pre ++ bad :: post) score_round i self
    = (Raise e, with_fidelities self (fidelities self ++ fs)).
Proof.
  intros Hpre Hbad.
  induction Hpre as [| count f rest fs' Hf _ IH]; intros i self.
  - simpl app. rewrite forM_cons, score_round_eq, Hbad.
    rewrite app_nil_r, with_fidelities_same. reflexivity.
  - simpl app. rewrite forM_cons, score_round_eq, Hf, IH. simpl.
    rewrite <- app_assoc. reflexivity.
Qed.

(** X12: when every raw result can be scored,
    [calculateFidelityOfDataQubits] returns and [fidelities] is the list of
    the scores of the raw results, in order, whatever it held before:
    scoring again gives the same list. *)
Theorem scoring_recomputes_all_fidelities
        (self : Experiment Props) (fs previous : list R) :
  Forall2 (fun count f => find_fidelity count = Ok f) (result self) fs ->
  calculateFidelityOfDataQubits self = (Ok tt, with_fidelities self fs) /\
  calculateFidelityOfDataQubits (with_fidelities self previous)
  = (Ok tt, with_fidelities self fs) /\
  calculateFidelityOfDataQubits (with_fidelities self fs)
  = (Ok tt, with_fidelities self fs).
Proof.
  intros Hfs.
  assert (forall prev,
             calculateFidelityOfDataQubits (with_fidelities self prev)
             = (Ok tt, with_fidelities self fs)) as Hany.
  { intros prev. rewrite calculateFidelityOfDataQubits_unfold. simpl.
    rewrite (score_loop_returns _ _ Hfs). reflexivity. }
  split; [| split]; try apply Hany.
  rewrite <- (with_fidelities_same self) at 1. apply Hany.
Qed.

(** X13: when a raw result cannot be scored,
    [calculateFidelityOfDataQubits] raises the exception of [find_fidelity]
    and leaves in [fidelities] the scores of the raw results before it: the
    fidelity list is then shorter than the result list. *)
Theorem scoring_stops_at_first_failure
        (self : Experiment Props) (pre post : list (gmap string Z))
        (bad : gmap string Z) (fs : list R) (e : exn) :
  result self = pre ++ bad :: post ->
  Forall2 (fun count f => find_fidelity count = Ok f) pre fs ->
  find_fidelity bad = Raise e ->
  calculateFidelityOfDataQubits self = (Raise e, with_fidelities self fs) /\
  length fs = length pre.
Proof.
  intros Hres Hpre Hbad. split.
  - rewrite calculateFidelityOfDataQubits_unfold, Hres.
    rewrite (score_loop_raises _ _ _ _ _ Hpre Hbad). reflexivity.
  - symmetry. exact (Forall2_length _ _ _ Hpre).
Qed.

Lemma with_result_frame (self : Experiment Props) r :
  only_result_changes self (with_result self r).
Proof. repeat split. Qed.

Lemma with_fidelities_frame (self : Experiment Props) fs :
  only_fidelities_change self (with_fidelities self fs).
Proof. repeat split. Qed.

(** X14: [runAllCircuits] changes nothing of the object but [result], and
    [calculateFidelityOfDataQubits] nothing but [fidelities], whether they
    return or raise; in particular neither touches the circuit list. *)
Theorem run_and_score_frames (self : Experiment Props) :
  only_result_changes self (snd (runAllCircuits self)) /\
  only_fidelities_change self (snd (calculateFidelityOfDataQubits self)).
Proof.
  split.
  - destruct (runAllCircuits_frame self) as (r & ->). apply with_result_frame.
  - destruct (calculateFidelityOfDataQubits_frame self) as (fs & ->).
    apply with_fidelities_frame.
Qed.

End ScoringEdges.

Lemma scoring_recomputes_all_fidelities_witness :
  exists (self executed : Experiment unit) (f : R),
    __init__ 9 [] [] Simulated.sim_backend 0 0 = Ok self /\
    script (collaborators := Simulated.sim)
           [AddNoAttackCircuit; RunAllCircuits] self = (Ok tt, executed) /\
    calculateFidelityOfDataQubits executed
    = (Ok tt, with_fidelities executed [f]) /\
    calculateFidelityOfDataQubits (with_fidelities executed [0%R; 0%R])
    = (Ok tt, with_fidelities executed [f]) /\
    calculateFidelityOfDataQubits (with_fidelities executed [f])
    = (Ok tt, with_fidelities executed [f]).
Proof.
  eexists. eexists. eexists.
  split; [vm_compute; reflexivity |]. split; [vm_compute; reflexivity |].
  apply scoring_recomputes_all_fidelities.
  constructor; [vm_compute; reflexivity | constructor].
Defined.

Lemma scoring_stops_at_first_failure_witness :
  exists (self executed : Experiment unit) (f : R),
    __init__ 9 [] [] Simulated.sim_backend 0 0 = Ok self /\
    script (collaborators := Simulated.shotless)
           [AddNoAttackCircuit; AddNoAttackPlusDDCircuit; RunAllCircuits] self
    = (Ok tt, executed) /\
    calculateFidelityOfDataQubits executed
    = (Raise ZeroDivisionError, with_fidelities executed [f]) /\
    length [f] = length [Simulated.all_ones].
Proof.
  eexists. eexists. eexists.
  split; [vm_compute; reflexivity |]. split; [vm_compute; reflexivity |].
  apply (scoring_stops_at_first_failure
           _ [Simulated.all_ones] [] Simulated.no_shots).
  - vm_compute. reflexivity.
  - constructor; [vm_compute; reflexivity | constructor].
  - vm_compute. reflexivity.
Defined.

(** ** Where the fidelity lies *)

Lemma normalize_cases (dist : gmap string Z) :
  (dist <> ∅ /\ dict_sum dist = 0 /\ normalize dist = Raise ZeroDivisionError) \/
  ((dist = ∅ \/ dict_sum dist <> 0) /\ normalize dist = Ok (probabilities dist)).
Proof.
  unfold normalize, probabilities.
  destruct (decide (dist = ∅)) as [-> | Hne].
  - right. split; [left; reflexivity |]. rewrite bool_decide_eq_true_2 by reflexivity.
    reflexivity.
  - rewrite bool_decide_eq_false_2 by exact Hne. simpl.
    destruct (Z.eqb_spec (dict_sum dist) 0) as [E | E].
    + left. repeat split; assumption.
    + right. split; [right; exact E | reflexivity].
Qed.

Lemma probabilities_empty : probabilities ∅ = ∅.
Proof. unfold probabilities. apply fmap_empty. Qed.

Lemma probabilities_nonneg_or_empty (dist : gmap string Z) :
  map_Forall (fun _ count => 0 <= count) dist ->
  dist = ∅ \/ dict_sum dist <> 0 ->
  map_Forall (fun _ p => (0 <= p)%R) (probabilities dist) /\
  (sum_values (probabilities dist) <= 1)%R.
Proof.
  intros Hall [-> | Hs].
  - rewrite probabilities_empty, sum_values_empty.
    split; [apply map_Forall_empty | lra].
  - split; [apply probabilities_nonneg; split; assumption |].
    rewrite sum_values_probabilities by exact Hs. lra.
Qed.

Lemma term_bound (v w : R) :
  (0 <= v)%R -> (0 <= w)%R ->
  (0 <= (sqrt v - sqrt w) ^ 2 <= v + w)%R.
Proof.
  intros Hv Hw.
  pose proof (sqrt_pos v) as Hsv. pose proof (sqrt_pos w) as Hsw.
  pose proof (sqrt_sqrt v Hv) as Hvv. pose proof (sqrt_sqrt w Hw) as Hww.
  split; [apply pow2_ge_0 |]. nra.
Qed.

Lemma total_bounds (p : gmap string R) :
  map_Forall (fun _ v => (0 <= v)%R) p ->
  forall q : gmap string R,
    map_Forall (fun _ v => (0 <= v)%R) q ->
    (0 <= sum_values (merge hellinger_term p q) <= sum_values p + sum_values q)%R.
Proof.
  induction p as [| k v m Hk IH] using map_ind; intros Hp q Hq.
  - rewrite merge_term_empty_l, sum_values_empty.
    assert (0 <= sum_values q)%R; [| lra].
    clear -Hq. induction q as [| j w q Hj IHq] using map_ind.
    + rewrite sum_values_empty. lra.
    + apply map_Forall_insert in Hq as [Hw Hq]; [| exact Hj].
      rewrite sum_values_insert by exact Hj. specialize (IHq Hq). lra.
  - apply map_Forall_insert in Hp as [Hv Hm]; [| exact Hk].
    rewrite (sum_values_insert m) by exact Hk.
    destruct (q !! k) as [w |] eqn:Hqk.
    + pose proof (map_Forall_lookup_1 _ _ _ _ Hq Hqk) as Hw. simpl in Hw.
      rewrite <- (insert_merge_l hellinger_term m q k
                    ((sqrt v - sqrt w) ^ 2)%R v)
        by (rewrite Hqk; reflexivity).
      rewrite sum_values_insert_over, delete_merge, (delete_id m) by exact Hk.
      specialize (IH Hm (delete k q) (map_Forall_delete _ _ _ Hq)).
      rewrite (sum_values_delete q k w Hqk).
      pose proof (term_bound v w Hv Hw). lra.
    + rewrite <- (insert_merge_l hellinger_term m q k v v)
        by (rewrite Hqk; reflexivity).
      rewrite sum_values_insert
        by (rewrite lookup_merge, Hk, Hqk; reflexivity).
      specialize (IH Hm q Hq). lra.
Qed.

Lemma fidelity_of_total_bounds (total : R) :
  (0 <= total <= 2)%R ->
  (0 <= (1 - (sqrt total / sqrt 2) ^ 2) ^ 2 <= 1)%R.
Proof.
  intros Ht. rewrite squared_distance by lra. split; [apply pow2_ge_0 | nra].
Qed.

Lemma hellinger_fidelity_bounds (dist_p dist_q : gmap string Z) (f : R) :
  map_Forall (fun _ count => 0 <= count) dist_p ->
  map_Forall (fun _ count => 0 <= count) dist_q ->
  hellinger_fidelity dist_p dist_q = Ok f -> (0 <= f <= 1)%R.
Proof.
  intros Hp Hq. unfold hellinger_fidelity. rewrite hellinger_distance_eq.
  destruct (normalize_cases dist_p) as [(_ & _ & ->) | (Hpok & ->)];
    [discriminate |].
  destruct (normalize_cases dist_q) as [(_ & _ & ->) | (Hqok & ->)];
    [discriminate |].
  simpl. intros [= <-].
  destruct (probabilities_nonneg_or_empty _ Hp Hpok) as [Hp0 Hp1].
  destruct (probabilities_nonneg_or_empty _ Hq Hqok) as [Hq0 Hq1].
  pose proof (total_bounds _ Hp0 _ Hq0).
  apply fidelity_of_total_bounds. lra.
Qed.

Lemma reduceToDataQubits_nonneg (counts : gmap string Z) :
  map_Forall (fun _ c => 0 <= c) counts ->
  map_Forall (fun _ c => 0 <= c) (reduceToDataQubits counts).
Proof.
  unfold reduceToDataQubits.
  apply (map_fold_weak_ind
           (fun r m => map_Forall (fun _ c => 0 <= c) m ->
                       map_Forall (fun _ c => 0 <= c) r)).
  - intros _. apply map_Forall_empty.
  - intros k v m r Hk IH Hall.
    apply map_Forall_insert in Hall as [Hv Hm]; [| exact Hk].
    apply reduce_step_nonneg; [exact Hv | apply IH, Hm].
Qed.

(** X16: a fidelity that [find_fidelity] returns for a raw result without
    negative counts lies between 0 and 1, and so does the score of any two
    count dicts without negative counts. *)
Theorem fidelity_between_0_and_1
        (counts dist_p dist_q : gmap string Z) (f f' : R) :
  map_Forall (fun _ count => 0 <= count) counts ->
  find_fidelity counts = Ok f ->
  map_Forall (fun _ count => 0 <= count) dist_p ->
  map_Forall (fun _ count => 0 <= count) dist_q ->
  hellinger_fidelity dist_p dist_q = Ok f' ->
  (0 <= f <= 1)%R /\ (0 <= f' <= 1)%R.
Proof.
  intros Hc Hf Hp Hq Hf'. split.
  - apply (hellinger_fidelity_bounds find_fidelity_initialState
             (reduceToDataQubits counts)).
    + apply initialState_count_distribution.
    + apply reduceToDataQubits_nonneg, Hc.
    + exact Hf.
  - exact (hellinger_fidelity_bounds _ _ _ Hp Hq Hf').
Qed.

Lemma fidelity_between_0_and_1_witness :
  exists f f' : R,
    find_fidelity Simulated.all_ones = Ok f /\
    hellinger_fidelity Simulated.data_ones find_fidelity_initialState = Ok f' /\
    (0 <= f <= 1)%R /\ (0 <= f' <= 1)%R.
Proof.
  destruct (find_fidelity Simulated.all_ones) as [f |] eqn:Hf;
    [| vm_compute in Hf; discriminate Hf].
  destruct (hellinger_fidelity Simulated.data_ones find_fidelity_initialState)
    as [f' |] eqn:Hf'; [| vm_compute in Hf'; discriminate Hf'].
  exists f, f'. split; [reflexivity |]. split; [reflexivity |].
  apply (fidelity_between_0_and_1
           Simulated.all_ones Simulated.data_ones find_fidelity_initialState).
  - apply map_Forall_singleton. lia.
  - exact Hf.
  - apply map_Forall_singleton. lia.
  - apply initialState_count_distribution.
  - exact Hf'.
Defined.

(** ** The number of shots does not matter *)

Lemma dict_sum_scaled (c : Z) (dist : gmap string Z) :
  dict_sum (scaled c dist) = c * dict_sum dist.
Proof.
  unfold scaled. induction dist as [| k v m Hk IH] using map_ind.
  - rewrite fmap_empty, dict_sum_empty. lia.
  - rewrite fmap_insert, !dict_sum_insert, IH;
      [lia | exact Hk | rewrite lookup_fmap, Hk; reflexivity].
Qed.

Lemma normalize_scaled (c : Z) (dist : gmap string Z) :
  c <> 0 -> normalize (scaled c dist) = normalize dist.
Proof.
  intros Hc. unfold normalize. rewrite dict_sum_scaled.
  assert (bool_decide (scaled c dist = ∅) = bool_decide (dist = ∅)) as ->.
  { apply bool_decide_ext. unfold scaled. apply fmap_empty_iff. }
  assert ((c * dict_sum dist =? 0) = (dict_sum dist =? 0)) as ->.
  { destruct (Z.eqb_spec (dict_sum dist) 0) as [E | E].
    - rewrite E, Z.mul_0_r. reflexivity.
    - apply Z.eqb_neq. nia. }
  destruct (negb (bool_decide (dist = ∅)) && (dict_sum dist =? 0)) eqn:Hcond;
    [reflexivity |].
  f_equal. unfold scaled. rewrite <- map_fmap_compose.
  apply map_eq. intros k. rewrite !lookup_fmap.
  destruct (dist !! k) as [v |] eqn:Hk; [simpl | reflexivity].
  f_equal.
  assert (dict_sum dist <> 0) as Hs.
  { intros E. rewrite E in Hcond. simpl in Hcond. rewrite andb_true_r in Hcond.
    apply negb_false_iff, bool_decide_eq_true in Hcond.
    rewrite Hcond in Hk. rewrite lookup_empty in Hk. discriminate. }
  rewrite !mult_IZR. field. split; apply not_0_IZR; assumption.
Qed.

Lemma reduce_step_scaled (c : Z) (key : string) (count : Z)
      (finalState : gmap string Z) :
  reduce_step key (c * count) (scaled c finalState)
  = scaled c (reduce_step key count finalState).
Proof.
  unfold reduce_step, scaled. rewrite lookup_fmap.
  destruct (finalState !! last3 key) as [old |] eqn:Ek; simpl.
  - rewrite fmap_insert. f_equal.
    rewrite !lookup_total_alt, lookup_fmap, Ek. simpl. lia.
  - rewrite !lookup_total_insert_eq, !fmap_insert.
    replace (c * (0 + count)) with (0 + c * count) by lia.
    replace (c * 0) with 0 by lia. reflexivity.
Qed.

Lemma reduceToDataQubits_scaled (c : Z) (counts : gmap string Z) :
  reduceToDataQubits (scaled c counts) = scaled c (reduceToDataQubits counts).
Proof.
  unfold reduceToDataQubits, scaled at 1. rewrite map_fold_fmap.
  induction counts as [| k v m Hk Hfirst IH] using map_first_key_ind.
  - rewrite !map_fold_empty. unfold scaled. rewrite fmap_empty. reflexivity.
  - rewrite !(map_fold_insert_first_key _ _ _ _ _ Hk Hfirst).
    simpl. rewrite IH. apply reduce_step_scaled.
Qed.

(** X17: the fidelity depends on the proportions of the counts only:
    multiplying every count of a raw result by the same non-zero factor
    leaves [find_fidelity] as it is, and so for either side of the score. *)
Theorem fidelity_ignores_number_of_shots
        (c : Z) (counts dist_p dist_q : gmap string Z) :
  c <> 0 ->
  find_fidelity (scaled c counts) = find_fidelity counts /\
  hellinger_fidelity (scaled c dist_p) dist_q = hellinger_fidelity dist_p dist_q /\
  hellinger_fidelity dist_p (scaled c dist_q) = hellinger_fidelity dist_p dist_q.
Proof.
  intros Hc.
  assert (forall p q, hellinger_fidelity (scaled c p) q = hellinger_fidelity p q)
    as Hl.
  { intros p q. unfold hellinger_fidelity. rewrite !hellinger_distance_eq.
    rewrite normalize_scaled by exact Hc. reflexivity. }
  assert (forall p q, hellinger_fidelity p (scaled c q) = hellinger_fidelity p q)
    as Hr.
  { intros p q. unfold hellinger_fidelity. rewrite !hellinger_distance_eq.
    rewrite normalize_scaled by exact Hc. reflexivity. }
  split; [| split]; [| apply Hl | apply Hr].
  unfold find_fidelity. rewrite reduceToDataQubits_scaled. apply Hr.
Qed.

Lemma fidelity_ignores_number_of_shots_witness :
  find_fidelity (scaled 4 Simulated.all_ones) = find_fidelity Simulated.all_ones /\
  hellinger_fidelity (scaled 4 find_fidelity_initialState) Simulated.data_ones
  = hellinger_fidelity find_fidelity_initialState Simulated.data_ones /\
  hellinger_fidelity find_fidelity_initialState (scaled 4 Simulated.data_ones)
  = hellinger_fidelity find_fidelity_initialState Simulated.data_ones.
Proof.
  apply (fidelity_ignores_number_of_shots 4). lia.
Defined.

(** ** The keys of the reduced distribution *)

Lemma length_substring_le (n m : nat) (s : string) :
  (String.length (String.substring n m s) <= m)%nat.
Proof.
  revert n m. induction s as [| c s IH]; intros n m.
  - destruct n, m; simpl; lia.
  - destruct n as [| n].
    + destruct m as [| m]; simpl; [lia |]. specialize (IH 0%nat m). lia.
    + simpl. apply IH.
Qed.

Lemma substring_whole (m : nat) (s : string) :
  (String.length s <= m)%nat -> String.substring 0 m s = s.
Proof.
  revert m. induction s as [| c s IH]; intros m Hm.
  - destruct m; reflexivity.
  - destruct m as [| m]; simpl in *; [lia |]. rewrite IH by lia. reflexivity.
Qed.

Lemma length_last3 (key : string) : (String.length (last3 key) <= 3)%nat.
Proof. apply length_substring_le. Qed.

Lemma last3_short (key : string) :
  (String.length key <= 3)%nat -> last3 key = key.
Proof.
  intros Hk. unfold last3.
  replace (String.length key - 3)%nat with 0%nat by lia.
  apply substring_whole, Hk.
Qed.

Lemma reduce_step_keys (key : string) (count : Z) (finalState : gmap string Z)
      (k : string) :
  is_Some (reduce_step key count finalState !! k) ->
  k = last3 key \/ is_Some (finalState !! k).
Proof.
  unfold reduce_step. intros Hk.
  destruct (decide (k = last3 key)) as [-> | Hne]; [left; reflexivity | right].
  rewrite lookup_insert_ne in Hk by congruence.
  destruct (finalState !! last3 key); [exact Hk |].
  rewrite lookup_insert_ne in Hk by congruence. exact Hk.
Qed.

Lemma reduceToDataQubits_keys (counts : gmap string Z) (k : string) :
  is_Some (reduceToDataQubits counts !! k) ->
  exists key, is_Some (counts !! key) /\ k = last3 key.
Proof.
  unfold reduceToDataQubits.
  apply (map_fold_weak_ind
           (fun r m => is_Some (r !! k) ->
                       exists key, is_Some (m !! key) /\ k = last3 key)).
  - rewrite lookup_empty. intros [? ?]. discriminate.
  - intros i v m r Hi IH Hk.
    apply reduce_step_keys in Hk as [-> | Hk].
    + exists i. rewrite lookup_insert_eq. split; [eexists; reflexivity | reflexivity].
    + destruct (IH Hk) as (key & Hkey & ->). exists key. split; [| reflexivity].
      destruct (decide (key = i)) as [-> | Hne].
      * rewrite lookup_insert_eq. eexists. reflexivity.
      * rewrite lookup_insert_ne by congruence. exact Hkey.
Qed.

Lemma reduceToDataQubits_fixed (counts : gmap string Z) :
  (forall key, is_Some (counts !! key) -> last3 key = key) ->
  reduceToDataQubits counts = counts.
Proof.
  unfold reduceToDataQubits.
  apply (map_fold_weak_ind
           (fun r m => (forall key, is_Some (m !! key) -> last3 key = key) ->
                       r = m)).
  - reflexivity.
  - intros i v m r Hi IH Hfix.
    assert (last3 i = i) as Hii
        by (apply Hfix; rewrite lookup_insert_eq; eexists; reflexivity).
    rewrite IH.
    + unfold reduce_step. rewrite Hii, Hi.
      rewrite lookup_total_insert_eq, insert_insert_eq. reflexivity.
    + intros key Hkey. apply Hfix.
      destruct (decide (key = i)) as [-> | Hne].
      * rewrite Hi in Hkey. destruct Hkey; discriminate.
      * rewrite lookup_insert_ne by congruence. exact Hkey.
Qed.

(** X19: every key of the reduced distribution is the last three
    characters of a key of the raw result (the whole key when that is
    shorter), so it has at most three characters; reducing a reduced
    distribution again changes nothing. *)
Theorem reduction_keys_and_idempotence (counts : gmap string Z) :
  (forall k, is_Some (reduceToDataQubits counts !! k) ->
             (String.length k <= 3)%nat /\
             exists key, is_Some (counts !! key) /\ k = last3 key) /\
  reduceToDataQubits (reduceToDataQubits counts) = reduceToDataQubits counts.
Proof.
  split.
  - intros k Hk. destruct (reduceToDataQubits_keys _ _ Hk) as (key & Hkey & ->).
    split; [apply length_last3 | exists key; split; [exact Hkey | reflexivity]].
  - apply reduceToDataQubits_fixed. intros k Hk.
    destruct (reduceToDataQubits_keys _ _ Hk) as (key & _ & ->).
    apply last3_short, length_last3.
Qed.

(** ** Registering the Y gate *)

Section YGate.
Context {Props : Type}.

Lemma copy_x_ok (gm : list (string * gmap (list Z) Props)) (qubit : Z)
      (props props' : gmap (list Z) Props) :
  copy_x gm qubit props = Ok props' ->
  exists xs p,
    gate_props "x" gm = Ok xs /\ xs !! [qubit] = Some p /\
    props' = <[ [qubit] := p ]> props.
Proof.
  unfold copy_x.
  destruct (gate_props "x" gm) as [xs |]; simpl; [| discriminate].
  destruct (xs !! [qubit]) as [p |] eqn:Hp; [| discriminate].
  intros [= <-]. exists xs, p. repeat split. exact Hp.
Qed.

Lemma copy_x_raises (gm : list (string * gmap (list Z) Props)) (qubit : Z)
      (props : gmap (list Z) Props) e :
  copy_x gm qubit props = Raise e -> e = KeyError.
Proof.
  unfold copy_x.
  destruct (gate_props "x" gm) as [xs |] eqn:Hx; simpl.
  - destruct (xs !! [qubit]); [discriminate | intros [= <-]; reflexivity].
  - intros [= <-]. clear -Hx. induction gm as [| [n ps] rest IH]; simpl in Hx.
    + injection Hx as <-. reflexivity.
    + destruct (String.eqb n "x"); [discriminate | apply IH, Hx].
Qed.

Lemma collect_keeps (gm : list (string * gmap (list Z) Props)) (ks : list Z) :
  forall props ys q xs p,
    for_each ks (copy_x gm) props = Ok ys ->
    gate_props "x" gm = Ok xs -> xs !! [q] = Some p ->
    props !! [q] = Some p -> ys !! [q] = Some p.
Proof.
  induction ks as [| k rest IH]; intros props ys q xs p Hf Hx Hp Hq.
  - injection Hf as <-. exact Hq.
  - simpl in Hf.
    destruct (copy_x gm k props) as [props1 |] eqn:E1; [| discriminate].
    apply copy_x_ok in E1 as (xs' & p' & Hx' & Hp' & ->).
    apply (IH _ _ q xs p Hf Hx Hp).
    destruct (decide (k = q)) as [-> | Hne].
    + rewrite lookup_insert_eq. congruence.
    + rewrite lookup_insert_ne by congruence. exact Hq.
Qed.

Lemma collect_has (gm : list (string * gmap (list Z) Props)) (ks : list Z) :
  forall props ys q,
    for_each ks (copy_x gm) props = Ok ys -> q ∈ ks ->
    exists xs p,
      gate_props "x" gm = Ok xs /\ xs !! [q] = Some p /\ ys !! [q] = Some p.
Proof.
  induction ks as [| k rest IH]; intros props ys q Hf Hq.
  - inversion Hq.
  - simpl in Hf.
    destruct (copy_x gm k props) as [props1 |] eqn:E1; [| discriminate].
    apply copy_x_ok in E1 as (xs & p & Hx & Hp & ->).
    apply elem_of_cons in Hq as [-> | Hq].
    + exists xs, p. repeat split; try assumption.
      apply (collect_keeps _ _ _ _ _ _ _ Hf Hx Hp). apply lookup_insert_eq.
    + exact (IH _ _ _ Hf Hq).
Qed.

Lemma collect_only (gm : list (string * gmap (list Z) Props)) (ks : list Z) :
  forall props ys key,
    for_each ks (copy_x gm) props = Ok ys -> is_Some (ys !! key) ->
    is_Some (props !! key) \/ exists q, q ∈ ks /\ key = [q].
Proof.
  induction ks as [| k rest IH]; intros props ys key Hf Hkey.
  - injection Hf as <-. left. exact Hkey.
  - simpl in Hf.
    destruct (copy_x gm k props) as [props1 |] eqn:E1; [| discriminate].
    apply copy_x_ok in E1 as (xs & p & Hx & Hp & ->).
    destruct (IH _ _ _ Hf Hkey) as [Hin | (q & Hq & ->)].
    + destruct (decide (key = [k])) as [-> | Hne].
      * right. exists k. split; [left | reflexivity].
      * left. rewrite lookup_insert_ne in Hin by congruence. exact Hin.
    + right. exists q. split; [right; exact Hq | reflexivity].
Qed.

Lemma collect_raises (gm : list (string * gmap (list Z) Props)) (ks : list Z)
      (q : Z) :
  q ∈ ks ->
  (forall props, copy_x gm q props = Raise KeyError) ->
  forall props, for_each ks (copy_x gm) props = Raise KeyError.
Proof.
  intros Hq Hbad. induction ks as [| k rest IH]; intros props.
  - inversion Hq.
  - simpl. destruct (copy_x gm k props) as [props1 |] eqn:E1.
    + apply elem_of_cons in Hq as [-> | Hq].
      * rewrite Hbad in E1. discriminate.
      * simpl. apply IH, Hq.
    + apply copy_x_raises in E1 as ->. reflexivity.
Qed.

Lemma addYGateToTargetBackend_returns (b b' : Backend Props) :
  addYGateToTargetBackend b = Ok b' ->
  basis_gates b' = basis_gates b /\
  t_num_qubits (target b') = t_num_qubits (target b) /\
  (b' = b \/
   exists ys,
     t_gate_map (target b') = t_gate_map (target b) ++ [("y", ys)] /\
     (forall q, 0 <= q < t_num_qubits (target b) ->
                exists xs p,
                  gate_props "x" (t_gate_map (target b)) = Ok xs /\
                  xs !! [q] = Some p /\ ys !! [q] = Some p) /\
     (forall key, is_Some (ys !! key) ->
                  exists q, 0 <= q < t_num_qubits (target b) /\ key = [q])).
Proof.
  unfold addYGateToTargetBackend.
  destruct (existsb _ (instructions (target b))); simpl.
  - intros [= <-]. repeat split. left. reflexivity.
  - change (for_each (range 0 (t_num_qubits (target b)) 1) _ ∅)
      with (for_each (range 0 (t_num_qubits (target b)) 1)
                     (copy_x (t_gate_map (target b))) ∅).
    destruct (for_each _ _ ∅) as [ys |] eqn:Hloop; [simpl | discriminate].
    unfold add_instruction.
    destruct (is_ok (gate_props "y" (t_gate_map (target b)))); [discriminate |].
    simpl. intros [= <-]. simpl. repeat split. right. exists ys.
    split; [reflexivity |]. split.
    + intros q Hq. apply (collect_has _ _ _ _ _ Hloop).
      apply elem_of_range_unit_step. exact Hq.
    + intros key Hkey.
      destruct (collect_only _ _ _ _ _ Hloop Hkey) as [Hin | (q & Hq & ->)].
      * rewrite lookup_empty in Hin. destruct Hin; discriminate.
      * exists q. split; [| reflexivity].
        apply elem_of_range_unit_step. exact Hq.
Qed.

(** X20: when [addYGateToTargetBackend] returns, the basis gates, the
    number of qubits and every gate entry of the target are as they were,
    and either the backend is unchanged or one entry for Y is added at the
    end whose properties are, on each qubit of the target, those of X on
    that qubit, and which has no other key. *)
Theorem y_gate_copies_x_properties (b b' : Backend Props) :
  addYGateToTargetBackend b = Ok b' ->
  basis_gates b' = basis_gates b /\
  t_num_qubits (target b') = t_num_qubits (target b) /\
  (b' = b \/
   exists ys,
     t_gate_map (target b') = t_gate_map (target b) ++ [("y", ys)] /\
     (forall q, 0 <= q < t_num_qubits (target b) ->
                exists xs p,
                  gate_props "x" (t_gate_map (target b)) = Ok xs /\
                  xs !! [q] = Some p /\ ys !! [q] = Some p) /\
     (forall key, is_Some (ys !! key) ->
                  exists q, 0 <= q < t_num_qubits (target b) /\ key = [q])).
Proof. apply addYGateToTargetBackend_returns. Qed.

Lemma y_listed_after_registration (b b' : Backend Props) :
  0 < t_num_qubits (target b) ->
  addYGateToTargetBackend b = Ok b' ->
  existsb (fun i => String.eqb (fst i) "y") (instructions (target b')) = true.
Proof.
  intros Hn Hadd.
  destruct (existsb (fun i => String.eqb (fst i) "y") (instructions (target b)))
    eqn:Hy.
  - unfold addYGateToTargetBackend in Hadd. rewrite Hy in Hadd. simpl in Hadd.
    injection Hadd as <-. exact Hy.
  - destruct (addYGateToTargetBackend_returns _ _ Hadd)
      as (_ & _ & [-> | (ys & Hgm & Hcopy & _)]).
    + unfold addYGateToTargetBackend in Hadd. rewrite Hy in Hadd.
      simpl in Hadd.
      destruct (for_each _ _ ∅) as [ys |]; [simpl in Hadd | discriminate].
      unfold add_instruction in Hadd.
      destruct (is_ok _); [discriminate |]. simpl in Hadd.
      injection Hadd as Hb. apply (f_equal (fun bk => length (t_gate_map (target bk)))) in Hb.
      simpl in Hb. rewrite length_app in Hb. simpl in Hb. lia.
    + destruct (Hcopy 0 ltac:(lia)) as (xs & p & _ & _ & Hys).
      apply existsb_exists. exists ("y", [0]). split; [| reflexivity].
      unfold instructions. rewrite Hgm. apply in_flat_map.
      exists ("y", ys). split; [apply in_or_app; right; left; reflexivity |].
      simpl. apply in_map_iff. exists ([0], p). split; [reflexivity |].
      apply list_elem_of_In, elem_of_map_to_list. exact Hys.
Qed.

(** X22: on a target with at least one qubit, registering the Y gate is
    idempotent: once [addYGateToTargetBackend] has returned, the target
    lists Y and a second call returns the backend unchanged. *)
Theorem y_gate_registration_idempotent (b b' : Backend Props) :
  0 < t_num_qubits (target b) ->
  addYGateToTargetBackend b = Ok b' ->
  existsb (fun i => String.eqb (fst i) "y") (instructions (target b')) = true /\
  addYGateToTargetBackend b' = Ok b'.
Proof.
  intros Hn Hadd. pose proof (y_listed_after_registration _ _ Hn Hadd) as Hy.
  split; [exact Hy |]. unfold addYGateToTargetBackend. rewrite Hy. reflexivity.
Qed.


(** X21: when the target lists no Y instruction and X has no properties on
    some qubit of the target, [addYGateToTargetBackend] raises [KeyError],
    and so does the constructor: no experiment is created. *)
Theorem missing_x_gate_raises_key_error
        (b : Backend Props) (q : Z)
        (numQubits : Z) (initialLayout initialLayoutWithBuffer : list Z)
        (initialState ddSequenceType : Z) :
  existsb (fun i => String.eqb (fst i) "y") (instructions (target b)) = false ->
  0 <= q < t_num_qubits (target b) ->
  (forall xs, gate_props "x" (t_gate_map (target b)) = Ok xs -> xs !! [q] = None) ->
  addYGateToTargetBackend b = Raise KeyError /\
  __init__ numQubits initialLayout initialLayoutWithBuffer b
           initialState ddSequenceType = Raise KeyError.
Proof.
  intros Hy Hq Hx.
  assert (addYGateToTargetBackend b = Raise KeyError) as Hadd.
  { unfold addYGateToTargetBackend. rewrite Hy. simpl.
    change (for_each (range 0 (t_num_qubits (target b)) 1) _ ∅)
      with (for_each (range 0 (t_num_qubits (target b)) 1)
                     (copy_x (t_gate_map (target b))) ∅).
    rewrite (collect_raises _ _ q); [reflexivity | |].
    - apply elem_of_range_unit_step. exact Hq.
    - intros props.
      destruct (copy_x (t_gate_map (target b)) q props) as [props' | e] eqn:Ec.
      + apply copy_x_ok in Ec as (xs & p & Ex & Hp & _).
        rewrite (Hx xs Ex) in Hp. discriminate.
      + apply copy_x_raises in Ec as ->. reflexivity. }
  split; [exact Hadd |]. unfold __init__. rewrite Hadd. reflexivity.
Qed.

End YGate.

Lemma y_gate_copies_x_properties_witness :
  exists b' : Backend unit,
    addYGateToTargetBackend Simulated.sim_backend = Ok b' /\
    basis_gates b' = basis_gates Simulated.sim_backend /\
    t_num_qubits (target b') = t_num_qubits (target Simulated.sim_backend) /\
    (b' = Simulated.sim_backend \/
     exists ys,
       t_gate_map (target b')
       = t_gate_map (target Simulated.sim_backend) ++ [("y", ys)] /\
       (forall q, 0 <= q < t_num_qubits (target Simulated.sim_backend) ->
                  exists xs p,
                    gate_props "x" (t_gate_map (target Simulated.sim_backend))
                    = Ok xs /\
                    xs !! [q] = Some p /\ ys !! [q] = Some p) /\
       (forall key, is_Some (ys !! key) ->
                    exists q,
                      0 <= q < t_num_qubits (target Simulated.sim_backend) /\
                      key = [q])).
Proof.
  destruct (addYGateToTargetBackend Simulated.sim_backend) as [b' |] eqn:Hadd;
    [| vm_compute in Hadd; discriminate Hadd].
  exists b'. split; [reflexivity |].
  exact (y_gate_copies_x_properties Simulated.sim_backend b' Hadd).
Defined.

Lemma missing_x_gate_raises_key_error_witness :
  addYGateToTargetBackend Simulated.partial_backend = Raise KeyError /\
  __init__ 9 [] [] Simulated.partial_backend 0 0 = Raise KeyError.
Proof.
  apply (missing_x_gate_raises_key_error Simulated.partial_backend 1).
  - vm_compute. reflexivity.
  - simpl. lia.
  - intros xs Hxs. vm_compute in Hxs. injection Hxs as <-.
    vm_compute. reflexivity.
Defined.

Lemma y_gate_registration_idempotent_witness :
  exists b' : Backend unit,
    addYGateToTargetBackend Simulated.sim_backend = Ok b' /\
    existsb (fun i => String.eqb (fst i) "y") (instructions (target b')) = true /\
    addYGateToTargetBackend b' = Ok b'.
Proof.
  destruct (addYGateToTargetBackend Simulated.sim_backend) as [b' |] eqn:Hadd;
    [| vm_compute in Hadd; discriminate Hadd].
  exists b'. split; [reflexivity |].
  apply (y_gate_registration_idempotent Simulated.sim_backend b');
    [simpl; lia | exact Hadd].
Defined.

(** ** The configuration *)

Section Configuration.
Context {Props : Type} {collaborators : Collaborators Props}.

Lemma same_configuration_refl (self : Experiment Props) :
  same_configuration self self.
Proof. repeat split. Qed.

Lemma same_configuration_trans (a b c : Experiment Props) :
  same_configuration a b -> same_configuration b c -> same_configuration a c.
Proof.
  unfold same_configuration.
  intros (H1 & H2 & H3 & H4 & H5 & H6 & H7) (G1 & G2 & G3 & G4 & G5 & G6 & G7).
  repeat split; congruence.
Qed.

Lemma do_call_same_configuration (c : call) (self : Experiment Props) :
  same_configuration self (snd (do_call c self)).
Proof.
  destruct (is_add c) eqn:Ha.
  - destruct (do_call_add_only_appends c self Ha)
      as (_ & _ & _ & H1 & H2 & H3 & H4 & H5 & H6 & H7).
    repeat split; assumption.
  - destruct c; try discriminate; simpl.
    + destruct (runAllCircuits_frame self) as (r & ->). repeat split.
    + destruct (calculateFidelityOfDataQubits_frame self) as (fs & ->).
      repeat split.
Qed.

Lemma after_same_configuration (calls : list call) (self : Experiment Props) :
  same_configuration self (after calls self).
Proof.
  revert self. induction calls as [| c rest IH]; intros self.
  - apply same_configuration_refl.
  - simpl. eapply same_configuration_trans;
      [apply do_call_same_configuration | apply IH].
Qed.

(** X23: the constructor stores the arguments it is given, replaces a zero
    [numQubits] by 9 and an empty layout by its default, and keeps the
    backend that [addYGateToTargetBackend] returns; after any sequence of
    method calls, returning or raising, every configuration field still has
    that value, so [numQubits] is never 0, the layouts are never empty and
    the Grover operator is the one created at construction. *)
Theorem configuration_fixed_at_construction
        (nq : Z) (il ilb : list Z) (b : Backend Props) (st dd : Z)
        (self : Experiment Props) (calls : list call) :
  __init__ nq il ilb b st dd = Ok self ->
  numQubits (after calls self) = (if nq =? 0 then 9 else nq) /\
  numQubits (after calls self) <> 0 /\
  initialLayout (after calls self)
  = (if len il =? 0 then [4; 3; 5; 15; 22; 2; 1; 6; 7] else il) /\
  initialLayout (after calls self) <> [] /\
  initialLayoutWithBuffer (after calls self)
  = (if len ilb =? 0 then [4; 3; 5; 22; 23; 1; 0; 7; 8] else ilb) /\
  initialLayoutWithBuffer (after calls self) <> [] /\
  initialState (after calls self) = st /\
  ddSequenceType (after calls self) = dd /\
  groverOperator (after calls self) = createGroverOperator /\
  addYGateToTargetBackend b = Ok (backend (after calls self)).
Proof.
  intros Hinit.
  destruct (after_same_configuration calls self)
    as (-> & -> & -> & -> & -> & -> & ->).
  unfold __init__ in Hinit.
  destruct (addYGateToTargetBackend b) as [b' |]; [simpl in Hinit | discriminate].
  injection Hinit as <-. simpl. unfold truthy.
  destruct (Z.eqb_spec nq 0) as [-> | Hnq]; simpl;
    destruct il as [| i0 il]; destruct ilb as [| j0 ilb]; simpl;
    repeat split; try discriminate; try assumption;
    try (unfold len; simpl length;
         destruct (Z.eqb_spec (Z.of_nat (S (length il))) 0); [lia | reflexivity]);
    try (unfold len; simpl length;
         destruct (Z.eqb_spec (Z.of_nat (S (length ilb))) 0); [lia | reflexivity]).
Qed.

End Configuration.

Lemma configuration_fixed_at_construction_witness :
  exists self : Experiment unit,
    __init__ 0 [] [5; 6] Simulated.sim_backend 1 1 = Ok self /\
    let final := after (collaborators := Simulated.sim)
                       [AddNoAttackCircuit; RunAllCircuits;
                        AddAttackWithSpacingCircuits] self in
    numQubits final = 9 /\
    numQubits final <> 0 /\
    initialLayout final = [4; 3; 5; 15; 22; 2; 1; 6; 7] /\
    initialLayout final <> [] /\
    initialLayoutWithBuffer final = [5; 6] /\
    initialLayoutWithBuffer final <> [] /\
    initialState final = 1 /\
    ddSequenceType final = 1 /\
    groverOperator final = createGroverOperator /\
    addYGateToTargetBackend Simulated.sim_backend = Ok (backend final).
Proof.
  destruct (__init__ 0 [] [5; 6] Simulated.sim_backend 1 1) as [self |] eqn:Hinit;
    [| vm_compute in Hinit; discriminate Hinit].
  exists self. split; [reflexivity |].
  exact (configuration_fixed_at_construction
           (collaborators := Simulated.sim)
           0 [] [5; 6] Simulated.sim_backend 1 1 self
           [AddNoAttackCircuit; RunAllCircuits; AddAttackWithSpacingCircuits]
           Hinit).
Defined.

(** * The score in binary64 *)

Ltac closed_le := apply Z.leb_le; vm_compute; reflexivity.

Section Binary64.
Import PrimFloat SpecFloat FloatOps FloatAxioms.
Import Double.

(** ** Digits and rounding *)

Lemma Zdigits2_log2 (m : Z) : 0 < m -> Zdigits2 m = Z.log2 m + 1.
Proof.
  destruct m as [| p | p]; try lia. intros _. simpl.
  induction p as [p IH | p IH |]; simpl; try reflexivity.
  - destruct p; simpl in *; lia.
  - destruct p; simpl in *; lia.
Qed.

Lemma Zdigits2_nonneg (m : Z) : 0 <= Zdigits2 m.
Proof. destruct m; simpl; lia. Qed.

Lemma Zdigits2_le (a b : Z) : 0 <= a <= b -> Zdigits2 a <= Zdigits2 b.
Proof.
  intros [Ha Hab]. destruct (Z.eq_dec a 0) as [-> | Hne].
  - apply Zdigits2_nonneg.
  - rewrite !Zdigits2_log2 by lia. pose proof (Z.log2_le_mono a b Hab). lia.
Qed.

Lemma Zdigits2_succ (a : Z) : 0 <= a -> Zdigits2 (a + 1) <= Zdigits2 a + 1.
Proof.
  intros Ha. destruct (Z.eq_dec a 0) as [-> | Hne]; [simpl; lia |].
  rewrite !Zdigits2_log2 by lia.
  pose proof (Z.log2_succ_le a). unfold Z.succ in *. lia.
Qed.

Lemma Zdigits2_lt_pow2 (a n : Z) : 0 <= n -> 0 <= a < 2 ^ n -> Zdigits2 a <= n.
Proof.
  intros Hn [Ha Hlt]. destruct (Z.eq_dec a 0) as [-> | Hne]; [simpl; lia |].
  rewrite Zdigits2_log2 by lia.
  pose proof (proj1 (Z.log2_lt_pow2 a n ltac:(lia)) Hlt). lia.
Qed.

Lemma Zdigits2_bounds (a : Z) : 0 < a -> 2 ^ (Zdigits2 a - 1) <= a < 2 ^ Zdigits2 a.
Proof.
  intros Ha. rewrite Zdigits2_log2 by lia.
  replace (Z.log2 a + 1 - 1) with (Z.log2 a) by lia.
  pose proof (Z.log2_spec a Ha). unfold Z.succ in *. lia.
Qed.

Lemma shr_1_m (mrs : shr_record) :
  0 <= shr_m mrs -> shr_m (shr_1 mrs) = Z.div2 (shr_m mrs).
Proof.
  destruct mrs as [m r s]. simpl. intros Hm.
  destruct m as [| [p | p |] | p]; try reflexivity; lia.
Qed.

Lemma iter_shr_1_m (p : positive) (mrs : shr_record) :
  0 <= shr_m mrs ->
  shr_m (iter_pos shr_1 p mrs) = Z.shiftr (shr_m mrs) (Zpos p).
Proof.
  revert mrs. induction p as [p IH | p IH |]; intros mrs Hm.
  - simpl iter_pos.
    assert (0 <= shr_m (shr_1 mrs)) as H1
        by (rewrite shr_1_m by exact Hm; rewrite Z.div2_div; apply Z.div_pos; lia).
    assert (0 <= shr_m (iter_pos shr_1 p (shr_1 mrs))) as H2
        by (rewrite IH by exact H1; apply Z.shiftr_nonneg; exact H1).
    rewrite IH by exact H2. rewrite IH by exact H1. rewrite shr_1_m by exact Hm.
    rewrite Z.div2_spec, !Z.shiftr_shiftr by lia. f_equal. lia.
  - simpl iter_pos.
    assert (0 <= shr_m (iter_pos shr_1 p mrs)) as H2
        by (rewrite IH by exact Hm; apply Z.shiftr_nonneg; exact Hm).
    rewrite IH by exact H2. rewrite IH by exact Hm.
    rewrite !Z.shiftr_shiftr by lia. f_equal. lia.
  - simpl. rewrite shr_1_m by exact Hm. apply Z.div2_spec.
Qed.

Lemma Zdigits2_shiftr (m n : Z) :
  0 <= m -> 0 < n -> Zdigits2 (Z.shiftr m n) <= Z.max (Zdigits2 m - n) 0.
Proof.
  intros Hm Hn. destruct (Z.eq_dec (Z.shiftr m n) 0) as [-> | Hne]; [simpl; lia |].
  assert (0 <= Z.shiftr m n) by (apply Z.shiftr_nonneg; exact Hm).
  assert (0 < m) as Hpos.
  { destruct (Z.eq_dec m 0) as [-> | ?]; [| lia]. rewrite Z.shiftr_0_l in Hne. lia. }
  destruct (Z_lt_le_dec (Z.log2 m) n) as [Hlt | Hge].
  { rewrite Z.shiftr_eq_0 in Hne by lia. lia. }
  rewrite !Zdigits2_log2 by lia.
  rewrite Z.log2_shiftr by exact Hpos. lia.
Qed.

(** The exponent function of binary64 *)
Lemma fexp_eq (x : Z) : fexp prec emax x = Z.max (x - 53) (-1074).
Proof. reflexivity. Qed.

Lemma shr_fexp_bounds (m e : Z) (l : location) :
  0 <= m ->
  let '(mrs, e') := shr_fexp prec emax m e l in
  0 <= shr_m mrs /\
  e <= e' /\
  e' <= Z.max e (fexp prec emax (Zdigits2 m + e)) /\
  Zdigits2 (shr_m mrs) + e' <= Z.max (Zdigits2 m + e) (-1074) /\
  (e' = e /\ shr_m mrs = m \/ e' = fexp prec emax (Zdigits2 m + e)).
Proof.
  intros Hm. unfold shr_fexp, shr. rewrite fexp_eq.
  assert (shr_m (shr_record_of_loc m l) = m) as Hrec by (destruct l as [| []]; reflexivity).
  destruct (Z.max (Zdigits2 m + e - 53) (-1074) - e) as [| p | p] eqn:Hn.
  - rewrite Hrec. repeat split; lia.
  - rewrite iter_shr_1_m by (rewrite Hrec; exact Hm). rewrite Hrec.
    pose proof (Zdigits2_shiftr m (Z.pos p) Hm ltac:(lia)).
    pose proof (Z.shiftr_nonneg m (Z.pos p)).
    repeat split; lia.
  - rewrite Hrec. repeat split; lia.
Qed.

Lemma round_nearest_even_bounds (m : Z) (l : location) :
  m <= round_nearest_even m l <= m + 1.
Proof.
  unfold round_nearest_even. destruct l as [| []]; try lia.
  destruct (Z.even m); lia.
Qed.

(** Rounding a non-negative number of small magnitude gives a zero or a
    finite double of the same sign, at most one binade up. *)
Lemma binary_round_aux_finite (s : bool) (m e : Z) (l : location) :
  0 <= m -> Zdigits2 m + e <= 1023 -> e <= 971 ->
  match binary_round_aux prec emax s m e l with
  | S754_zero s' => s' = s
  | S754_finite s' m' e' =>
      s' = s /\ e <= e' /\
      Zpos (digits2_pos m') + e' <= Z.max (Zdigits2 m + e) (-1074) + 1
  | _ => False
  end.
Proof.
  intros Hm HD He. unfold binary_round_aux.
  pose proof (shr_fexp_bounds m e l Hm) as H1.
  destruct (shr_fexp prec emax m e l) as [mrs1 e1].
  destruct H1 as (Hm1 & Hle1 & He1 & HD1 & _).
  set (mr := round_nearest_even (shr_m mrs1) (loc_of_shr_record mrs1)).
  pose proof (round_nearest_even_bounds (shr_m mrs1) (loc_of_shr_record mrs1)) as Hr.
  fold mr in Hr.
  assert (0 <= mr) as Hmr by lia.
  assert (Zdigits2 mr <= Zdigits2 (shr_m mrs1) + 1) as Hdr.
  { etransitivity; [apply (Zdigits2_le mr (shr_m mrs1 + 1)); lia |].
    apply Zdigits2_succ. exact Hm1. }
  pose proof (shr_fexp_bounds mr e1 loc_Exact Hmr) as H2.
  destruct (shr_fexp prec emax mr e1 loc_Exact) as [mrs2 e2].
  destruct H2 as (Hm2 & Hle2 & He2 & HD2 & _).
  rewrite !fexp_eq in *.
  destruct (shr_m mrs2) as [| p | p] eqn:Hp; [reflexivity | | lia].
  simpl Zdigits2 in HD2.
  destruct (Z.leb_spec e2 (emax - prec)) as [Hfin | Hinf].
  - split; [reflexivity |]. split; lia.
  - change (emax - prec) with 971 in Hinf. lia.
Qed.

(** What validity says of a finite double *)
Lemma valid_finite (x : float) (s : bool) (m : positive) (e : Z) :
  Prim2SF x = S754_finite s m e ->
  e = Z.max (Zpos (digits2_pos m) + e - 53) (-1074) /\ e <= 971.
Proof.
  intros Hx. pose proof (Prim2SF_valid x) as Hv. rewrite Hx in Hv.
  unfold SpecFloat.valid_binary, bounded, canonical_mantissa in Hv.
  apply andb_prop in Hv as [Hc He]. rewrite fexp_eq in Hc.
  apply Z.eqb_eq in Hc. apply Z.leb_le in He.
  change (emax - prec) with 971 in He. lia.
Qed.

Lemma below_le (B B' : Z) (x : float) : B <= B' -> below B x -> below B' x.
Proof.
  unfold below. intros Hle. destruct (Prim2SF x); try tauto. lia.
Qed.

Lemma below_finite (B : Z) (x : float) :
  below B x -> is_nan x = false /\ is_infinity x = false.
Proof.
  unfold below, is_nan, is_infinity. rewrite !eqb_spec, abs_spec.
  change (Prim2SF infinity) with (S754_infinity false).
  destruct (Prim2SF x) as [s | s | | s m e]; try contradiction; intros _.
  - split; reflexivity.
  - split; [| destruct s; reflexivity].
    unfold SFeqb, SFcompare. rewrite Z.compare_refl.
    destruct s; rewrite Pos.compare_cont_refl; reflexivity.
Qed.

Lemma below_is_finite (B : Z) (x : float) : below B x -> is_finite x = true.
Proof.
  intros H. apply below_finite in H as [H1 H2]. unfold is_finite.
  rewrite H1, H2. reflexivity.
Qed.


Lemma iter_xO (p d : positive) : Zpos (Pos.iter xO p d) = Zpos p * 2 ^ Zpos d.
Proof.
  induction d as [| d IH] using Pos.peano_ind.
  - simpl. lia.
  - rewrite Pos.iter_succ, Pos2Z.inj_succ, Z.pow_succ_r by lia.
    rewrite Pos2Z.inj_xO, IH. lia.
Qed.

Lemma Zdigits2_mul_pow2 (a k : Z) :
  0 < a -> 0 <= k -> Zdigits2 (a * 2 ^ k) = Zdigits2 a + k.
Proof.
  intros Ha Hk. rewrite !Zdigits2_log2 by (try apply Z.mul_pos_pos; lia).
  rewrite Z.log2_mul_pow2 by lia. lia.
Qed.

Lemma shl_align_spec (mx : positive) (ex ex' : Z) :
  let '(m, e) := shl_align mx ex ex' in
  e = Z.min ex ex' /\ Zpos m = Zpos mx * 2 ^ (ex - e) /\
  Zpos (digits2_pos m) + e = Zpos (digits2_pos mx) + ex.
Proof.
  unfold shl_align. destruct (ex' - ex) as [| d | d] eqn:Hd.
  - replace (Z.min ex ex') with ex by lia. rewrite Z.sub_diag. simpl. lia.
  - replace (Z.min ex ex') with ex by lia. rewrite Z.sub_diag. simpl. lia.
  - split; [lia |]. replace (ex - ex') with (Zpos d) by lia.
    rewrite iter_xO. split; [reflexivity |].
    change (Zpos (digits2_pos (Pos.iter xO mx d)))
      with (Zdigits2 (Zpos (Pos.iter xO mx d))).
    rewrite iter_xO, Zdigits2_mul_pow2 by lia. simpl. lia.
Qed.

(** Rounding a binary number of small magnitude *)
Lemma binary_round_finite (s : bool) (m : positive) (e : Z) :
  Zpos (digits2_pos m) + e <= 1023 -> e <= 971 ->
  match binary_round prec emax s m e with
  | S754_zero s' => s' = s
  | S754_finite s' m' e' =>
      s' = s /\
      Zpos (digits2_pos m') + e' <= Z.max (Zpos (digits2_pos m) + e) (-1074) + 1
  | _ => False
  end.
Proof.
  intros HD He. unfold binary_round.
  pose proof (shl_align_spec m e (fexp prec emax (Zpos (digits2_pos m) + e))) as Ha.
  destruct (shl_align _ _ _) as [mz ez]. destruct Ha as (Hez & _ & Hmag).
  pose proof (binary_round_aux_finite s (Zpos mz) ez loc_Exact
                ltac:(lia) ltac:(simpl; lia) ltac:(lia)) as H.
  destruct (binary_round_aux _ _ _ _ _ _) as [s' | s' | | s' m' e'];
    try exact H. simpl Zdigits2 in H. rewrite Hmag in H.
  destruct H as (-> & _ & H). split; [reflexivity | exact H].
Qed.

(** A number already in canonical form is left as it is. *)
Lemma binary_round_aux_canonical (s : bool) (m : positive) (e : Z) :
  fexp prec emax (Zpos (digits2_pos m) + e) = e -> e <= 971 ->
  binary_round_aux prec emax s (Zpos m) e loc_Exact = S754_finite s m e.
Proof.
  intros Hc He. unfold binary_round_aux, shr_fexp. simpl Zdigits2.
  rewrite Hc, Z.sub_diag. simpl. rewrite Hc, Z.sub_diag. simpl.
  destruct (Z.leb_spec e (emax - prec)) as [_ | H]; [reflexivity |].
  change (emax - prec) with 971 in H. lia.
Qed.

Lemma digits2_lt_pow2 (p : positive) (n : Z) :
  Zpos p < 2 ^ n -> 0 <= n -> Zpos (digits2_pos p) <= n.
Proof.
  intros Hp Hn. apply (Zdigits2_lt_pow2 (Zpos p) n Hn). lia.
Qed.

(** An integer below [2 ** 53] as a double *)
Lemma binary_normalize_small (p : positive) :
  Zpos p < 2 ^ 53 ->
  exists m,
    binary_normalize prec emax (Zpos p) 0 false
    = S754_finite false m (Zpos (digits2_pos p) - 53) /\
    Zpos (digits2_pos m) = 53.
Proof.
  intros Hp. pose proof (digits2_lt_pow2 p 53 Hp ltac:(lia)) as Hd.
  unfold binary_normalize, binary_round.
  pose proof (shl_align_spec p 0 (fexp prec emax (Zpos (digits2_pos p) + 0))) as Ha.
  destruct (shl_align _ _ _) as [mz ez]. destruct Ha as (Hez & _ & Hmag).
  rewrite fexp_eq in Hez.
  assert (ez = Zpos (digits2_pos p) - 53) as -> by lia.
  exists mz. split; [| lia].
  apply binary_round_aux_canonical; [rewrite fexp_eq |]; lia.
Qed.

Lemma of_int_pos (c : Z) :
  0 < c < 2 ^ 53 ->
  exists m,
    Prim2SF (of_int c) = S754_finite false m (Zdigits2 c - 53) /\
    Zpos (digits2_pos m) = 53.
Proof.
  intros Hc. unfold of_int. destruct (Z.ltb_spec c 0); [lia |].
  rewrite of_uint63_spec, Uint63.of_Z_spec.
  rewrite Z.mod_small by (change Uint63Axioms.wB with (2 ^ 63); lia).
  destruct c as [| p | p]; try lia.
  apply binary_normalize_small. lia.
Qed.

Lemma of_int_magnitude (c : Z) :
  0 <= c < 2 ^ 53 ->
  nonneg (of_int c) /\ below 53 (of_int c) /\ (0 < c -> above 1 (of_int c)).
Proof.
  intros Hc. destruct (Z.eq_dec c 0) as [-> | Hne].
  { unfold nonneg, below, above.
    change (Prim2SF (of_int 0)) with (S754_zero false). repeat split. lia. }
  destruct (of_int_pos c ltac:(lia)) as (m & Hm & Hd).
  unfold nonneg, below, above. rewrite Hm, Hd.
  pose proof (Zdigits2_lt_pow2 c 53 ltac:(lia) ltac:(lia)).
  assert (1 <= Zdigits2 c) by (rewrite Zdigits2_log2 by lia; pose proof (Z.log2_nonneg c); lia).
  repeat split; lia.
Qed.

Lemma digits2_bounds (p : positive) :
  2 ^ (Zpos (digits2_pos p) - 1) <= Zpos p < 2 ^ Zpos (digits2_pos p).
Proof. exact (Zdigits2_bounds (Zpos p) ltac:(lia)). Qed.

(** *** Square root *)

Lemma SFsqrt_core_bounds (m : positive) (e : Z) :
  e <= 971 ->
  let '(q, e', l) := SFsqrt_core_binary prec emax (Zpos m) e in
  0 <= q /\ e' <= 971 /\ Zdigits2 q + e' <= (Zpos (digits2_pos m) + e + 1) / 2.
Proof.
  intros He. unfold SFsqrt_core_binary. simpl Zdigits2.
  set (d := Zpos (digits2_pos m)).
  set (e' := Z.min (fexp prec emax (Z.div2 (d + e + 1))) (Z.div2 e)).
  assert (e' <= Z.div2 e) as He' by (unfold e'; lia).
  rewrite Z.div2_div in He'.
  set (s := e - 2 * e').
  assert (0 <= s) as Hs by (unfold s; Z.div_mod_to_equations; lia).
  set (m' := match s with
             | 0 => Zpos m
             | Zpos _ => Z.shiftl (Zpos m) s
             | Zneg _ => 0
             end).
  assert (m' = Zpos m * 2 ^ s) as Hm'.
  { unfold m'. destruct s as [| p | p] eqn:Es; [simpl; lia | | lia].
    apply Z.shiftl_mul_pow2. lia. }
  assert (0 < m') as Hpos
    by (rewrite Hm'; apply Z.mul_pos_pos; [lia | apply Z.pow_pos_nonneg; lia]).
  pose proof (Z.sqrtrem_spec m' ltac:(lia)) as Hsq.
  destruct (Z.sqrtrem m') as [q r]. destruct Hsq as [Hq Hr].
  assert (0 <= q) as Hq0 by lia.
  split; [exact Hq0 |]. split; [Z.div_mod_to_equations; lia |].
  pose proof (digits2_bounds m) as [_ Hm]. fold d in Hm.
  assert (m' < 2 ^ (d + s)) as Hlt.
  { rewrite Hm', Z.pow_add_r by (unfold d; lia).
    apply Z.mul_lt_mono_pos_r; [apply Z.pow_pos_nonneg; lia | exact Hm]. }
  set (n := (d + s + 1) / 2).
  assert (0 <= n) as Hn by (unfold n, d; Z.div_mod_to_equations; lia).
  assert (q < 2 ^ n) as Hqn.
  { destruct (Z_lt_le_dec q (2 ^ n)) as [? | Hge]; [assumption | exfalso].
    assert (2 ^ (d + s) <= 2 ^ n * 2 ^ n) as Hpow.
    { rewrite <- Z.pow_add_r by lia. apply Z.pow_le_mono_r; [lia |].
      unfold n. Z.div_mod_to_equations. lia. }
    assert (0 < 2 ^ n) by (apply Z.pow_pos_nonneg; lia). nia. }
  pose proof (Zdigits2_lt_pow2 q n Hn ltac:(lia)) as Hd.
  unfold n, s in Hd. Z.div_mod_to_equations. lia.
Qed.

Lemma sqrt_magnitude (B : Z) (x : float) :
  nonneg x -> below B x ->
  nonneg (sqrt x) /\ below (Z.max ((B + 1) / 2) (-1074) + 1) (sqrt x).
Proof.
  unfold nonneg, below. rewrite sqrt_spec.
  destruct (Prim2SF x) as [s | s | | s m e] eqn:Hx; try contradiction.
  - intros _ _. simpl. split; exact I.
  - intros -> HB. destruct (valid_finite x _ _ _ Hx) as [Hcan He].
    unfold SF64sqrt, SFsqrt.
    pose proof (SFsqrt_core_bounds m e He) as Hc.
    destruct (SFsqrt_core_binary prec emax (Zpos m) e) as [[q e'] l].
    destruct Hc as (Hq & He' & HD).
    assert ((Zpos (digits2_pos m) + e + 1) / 2 <= 1023) as Hsmall
        by (Z.div_mod_to_equations; lia).
    pose proof (binary_round_aux_finite false q e' l Hq ltac:(lia) He') as H.
    destruct (binary_round_aux _ _ _ _ _ _) as [s' | s' | | s' m' e''];
      try contradiction; [split; exact I |].
    destruct H as (-> & _ & H). split; [reflexivity |].
    Z.div_mod_to_equations. lia.
Qed.

Lemma math_sqrt_ok (B : Z) (x : float) :
  nonneg x -> below B x -> math_sqrt x = Ok (sqrt x).
Proof.
  intros Hn Hb. destruct (sqrt_magnitude B x Hn Hb) as [_ Hs].
  apply below_finite in Hs as [H1 H2]. unfold math_sqrt.
  rewrite H1, H2. reflexivity.
Qed.

(** *** Division *)

Lemma SFdiv_core_bounds (m1 m2 : positive) (e1 e2 : Z) :
  let X := Zpos (digits2_pos m1) + e1 - (Zpos (digits2_pos m2) + e2) in
  let '(q, e', l) := SFdiv_core_binary prec emax (Zpos m1) e1 (Zpos m2) e2 in
  0 <= q /\ e' <= fexp prec emax X /\ Zdigits2 q + e' <= Z.max (X + 1) e'.
Proof.
  intros X. unfold SFdiv_core_binary. simpl Zdigits2.
  change (Zpos (digits2_pos m1) + e1 - (Zpos (digits2_pos m2) + e2)) with X.
  set (d1 := Zpos (digits2_pos m1)) in *. set (d2 := Zpos (digits2_pos m2)) in *.
  set (e' := Z.min (fexp prec emax X) (e1 - e2)).
  set (s := e1 - e2 - e').
  assert (0 <= s) as Hs by (unfold s, e'; lia).
  set (m' := match s with
             | 0 => Zpos m1
             | Zpos _ => Z.shiftl (Zpos m1) s
             | Zneg _ => 0
             end).
  assert (m' = Zpos m1 * 2 ^ s) as Hm'.
  { unfold m'. destruct s as [| p | p] eqn:Es; [simpl; lia | | lia].
    apply Z.shiftl_mul_pow2. lia. }
  assert (0 < 2 ^ s) as Hps by (apply Z.pow_pos_nonneg; lia).
  assert (0 < m') as Hpos by (rewrite Hm'; apply Z.mul_pos_pos; lia).
  pose proof (Z.div_eucl_eq m' (Zpos m2) ltac:(lia)) as Heq.
  pose proof (Z.mod_pos_bound m' (Zpos m2) ltac:(lia)) as Hmod.
  unfold Z.modulo in Hmod.
  destruct (Z.div_eucl m' (Zpos m2)) as [q r].
  assert (0 <= q) as Hq0 by nia.
  split; [exact Hq0 |]. split; [unfold e'; lia |].
  pose proof (digits2_bounds m1) as [_ Hm1]. fold d1 in Hm1.
  pose proof (digits2_bounds m2) as [Hm2 _]. fold d2 in Hm2.
  assert (m' < 2 ^ (d1 + s)) as Hlt.
  { rewrite Hm', Z.pow_add_r by (unfold d1; lia).
    apply Z.mul_lt_mono_pos_r; assumption. }
  assert (0 < 2 ^ (d2 - 1)) as Hp2 by (apply Z.pow_pos_nonneg; unfold d2; lia).
  set (n := d1 + s - d2 + 1).
  assert (Zdigits2 q <= Z.max n 0) as Hd.
  { destruct (Z_lt_le_dec n 0) as [Hneg | Hnn].
    - assert (q = 0) as ->; [| simpl; lia].
      assert (2 ^ (d1 + s) <= 2 ^ (d2 - 1))
        by (apply Z.pow_le_mono_r; unfold n in Hneg; unfold d1; lia).
      nia.
    - rewrite Z.max_l by lia. apply Zdigits2_lt_pow2; [exact Hnn |].
      split; [exact Hq0 |].
      destruct (Z_lt_le_dec q (2 ^ n)) as [? | Hge]; [assumption | exfalso].
      assert (2 ^ (d1 + s) = 2 ^ n * 2 ^ (d2 - 1)) as Hsplit.
      { rewrite <- Z.pow_add_r by (unfold d2; lia). f_equal. unfold n. lia. }
      assert (0 < 2 ^ n) by (apply Z.pow_pos_nonneg; lia). nia. }
  unfold n, s, X in *. lia.
Qed.

Lemma div_magnitude (B L : Z) (x y : float) :
  below B x -> above L y -> B - L <= 1022 ->
  below (Z.max (B - L + 1) (-1074) + 1) (x / y) /\
  (nonneg x -> nonneg y -> nonneg (x / y)).
Proof.
  unfold below, above, nonneg. rewrite div_spec.
  destruct (Prim2SF y) as [sy | sy | | sy my ey] eqn:Hy; try contradiction.
  destruct (Prim2SF x) as [sx | sx | | sx mx ex] eqn:Hx; try contradiction.
  - intros _ _ _. simpl. split; [exact I | intros _ _; exact I].
  - intros HB HL Hsmall. unfold SF64div, SFdiv.
    pose proof (SFdiv_core_bounds mx my ex ey) as Hc. simpl in Hc.
    destruct (SFdiv_core_binary prec emax (Zpos mx) ex (Zpos my) ey) as [[q e'] l].
    destruct Hc as (Hq & He' & HD). rewrite fexp_eq in He'.
    pose proof (binary_round_aux_finite (xorb sx sy) q e' l Hq ltac:(lia) ltac:(lia)) as H.
    destruct (binary_round_aux _ _ _ _ _ _) as [s' | s' | | s' m' e''];
      try contradiction.
    + split; [exact I | intros _ _; exact I].
    + destruct H as (-> & _ & H). split; [lia |]. intros -> ->. reflexivity.
Qed.

(** *** Multiplication *)

Lemma mul_magnitude (Bx By : Z) (x y : float) :
  below Bx x -> below By y -> Bx + By <= 1023 ->
  below (Z.max (Bx + By) (-1074) + 1) (x * y).
Proof.
  unfold below. rewrite mul_spec.
  destruct (Prim2SF x) as [sx | sx | | sx mx ex] eqn:Hx; try contradiction;
    destruct (Prim2SF y) as [sy | sy | | sy my ey] eqn:Hy; try contradiction;
    try (intros; exact I).
  intros HBx HBy Hsmall. unfold SF64mul, SFmul.
  destruct (valid_finite x _ _ _ Hx) as [Hcx Hex].
  destruct (valid_finite y _ _ _ Hy) as [Hcy Hey].
  pose proof (digits2_bounds mx) as [_ Hmx].
  pose proof (digits2_bounds my) as [_ Hmy].
  assert (Zdigits2 (Zpos (mx * my))
          <= Zpos (digits2_pos mx) + Zpos (digits2_pos my)) as Hd.
  { apply Zdigits2_lt_pow2; [lia |]. split; [lia |].
    rewrite Z.pow_add_r, Pos2Z.inj_mul by lia. nia. }
  pose proof (binary_round_aux_finite (xorb sx sy) (Zpos (mx * my)) (ex + ey)
                loc_Exact ltac:(lia) ltac:(lia) ltac:(lia)) as H.
  destruct (binary_round_aux _ _ _ _ _ _) as [s' | s' | | s' m' e''];
    try contradiction; [exact I |].
  destruct H as (_ & _ & H). lia.
Qed.

Lemma square_nonneg (B : Z) (x : float) :
  below B x -> 2 * B <= 1023 -> nonneg (x * x).
Proof.
  intros HB Hsmall. pose proof (mul_magnitude B B x x HB HB ltac:(lia)) as Hm.
  revert HB Hm. unfold below, nonneg. rewrite mul_spec.
  destruct (Prim2SF x) as [sx | sx | | sx mx ex] eqn:Hx; try contradiction.
  - intros _ _. exact I.
  - intros HB. unfold SF64mul, SFmul. rewrite xorb_nilpotent.
    destruct (valid_finite x _ _ _ Hx) as [Hcx Hex].
    pose proof (digits2_bounds mx) as [_ Hmx].
    assert (Zdigits2 (Zpos (mx * mx))
            <= Zpos (digits2_pos mx) + Zpos (digits2_pos mx)) as Hd.
    { apply Zdigits2_lt_pow2; [lia |]. split; [lia |].
      rewrite Z.pow_add_r, Pos2Z.inj_mul by lia. nia. }
    pose proof (binary_round_aux_finite false (Zpos (mx * mx)) (ex + ex)
                  loc_Exact ltac:(lia) ltac:(lia) ltac:(lia)) as H.
    destruct (binary_round_aux _ _ _ _ _ _) as [s' | s' | | s' m' e''];
      try contradiction; [intros _; exact I |].
    destruct H as (-> & _). intros _. reflexivity.
Qed.

(** *** Addition and subtraction *)

Lemma binary_normalize_finite (z e : Z) (szero : bool) :
  Zdigits2 z + e <= 1023 -> e <= 971 ->
  match binary_normalize prec emax z e szero with
  | S754_zero _ => True
  | S754_finite s' m' e' =>
      s' = (z <? 0) /\
      Zpos (digits2_pos m') + e' <= Z.max (Zdigits2 z + e) (-1074) + 1
  | _ => False
  end.
Proof.
  intros HD He. destruct z as [| p | p]; simpl; [exact I | |].
  - pose proof (binary_round_finite false p e HD He) as H.
    destruct (binary_round _ _ _ _ _); try contradiction; [exact I | exact H].
  - pose proof (binary_round_finite true p e HD He) as H.
    destruct (binary_round _ _ _ _ _); try contradiction; [exact I | exact H].
Qed.

Lemma Zdigits2_abs (z : Z) : Zdigits2 z = Zdigits2 (Z.abs z).
Proof. destruct z; reflexivity. Qed.

(** The aligned mantissas of two finite doubles and the digits of their sum
    or difference *)
Lemma aligned_digits (mx my : positive) (ex ey : Z) (z : Z) :
  let ez := Z.min ex ey in
  Z.abs z <= Zpos (fst (shl_align mx ex ez)) + Zpos (fst (shl_align my ey ez)) ->
  Zdigits2 z + ez
  <= Z.max (Zpos (digits2_pos mx) + ex) (Zpos (digits2_pos my) + ey) + 1.
Proof.
  intros ez Hz.
  pose proof (shl_align_spec mx ex ez) as Hx.
  pose proof (shl_align_spec my ey ez) as Hy.
  destruct (shl_align mx ex ez) as [mx' ex'], (shl_align my ey ez) as [my' ey'].
  simpl in Hz. destruct Hx as (Hex & _ & Hdx), Hy as (Hey & _ & Hdy).
  assert (ex' = ez) as -> by (unfold ez in *; lia).
  assert (ey' = ez) as -> by (unfold ez in *; lia).
  pose proof (digits2_bounds mx') as [_ Hmx]. pose proof (digits2_bounds my') as [_ Hmy].
  set (M := Z.max (Zpos (digits2_pos mx) + ex) (Zpos (digits2_pos my) + ey)).
  assert (Zpos (digits2_pos mx') <= M - ez) as Hlx by (unfold M; lia).
  assert (Zpos (digits2_pos my') <= M - ez) as Hly by (unfold M; lia).
  assert (0 <= M - ez) as Hn by lia.
  assert (2 ^ Zpos (digits2_pos mx') <= 2 ^ (M - ez)) by (apply Z.pow_le_mono_r; lia).
  assert (2 ^ Zpos (digits2_pos my') <= 2 ^ (M - ez)) by (apply Z.pow_le_mono_r; lia).
  rewrite Zdigits2_abs.
  assert (Zdigits2 (Z.abs z) <= M - ez + 1); [| lia].
  apply Zdigits2_lt_pow2; [lia |]. split; [lia |].
  rewrite Z.pow_add_r by lia. lia.
Qed.

Lemma add_magnitude (Bx By : Z) (x y : float) :
  below Bx x -> below By y -> Z.max Bx By <= 1021 ->
  below (Z.max Bx By + 2) (x + y) /\
  (nonneg x -> nonneg y -> nonneg (x + y)).
Proof.
  unfold below, nonneg. rewrite add_spec.
  destruct (Prim2SF x) as [sx | sx | | sx mx ex] eqn:Hx; try contradiction;
    destruct (Prim2SF y) as [sy | sy | | sy my ey] eqn:Hy; try contradiction.
  - intros _ _ _. destruct sx, sy; simpl; split; try exact I; intros; exact I.
  - intros _ HB _. simpl. split; [lia | intros _ H; exact H].
  - intros HB _ _. simpl. split; [lia | intros H _; exact H].
  - intros HBx HBy Hsmall. unfold SF64add, SFadd.
    destruct (valid_finite x _ _ _ Hx) as [Hcx Hex].
    destruct (valid_finite y _ _ _ Hy) as [Hcy Hey].
    set (ez := Z.min ex ey).
    set (z := cond_Zopp sx (Zpos (fst (shl_align mx ex ez)))
              + cond_Zopp sy (Zpos (fst (shl_align my ey ez)))).
    assert (Z.abs z <= Zpos (fst (shl_align mx ex ez))
                       + Zpos (fst (shl_align my ey ez))) as Hz
        by (unfold z; destruct sx, sy; simpl; lia).
    pose proof (aligned_digits mx my ex ey z Hz) as HD. fold ez in HD.
    pose proof (binary_normalize_finite z ez false ltac:(lia) ltac:(lia)) as H.
    destruct (binary_normalize _ _ _ _ _) as [s' | s' | | s' m' e''];
      try contradiction.
    + split; [exact I | intros _ _; exact I].
    + destruct H as (Hs & H). split; [lia |]. intros -> ->.
      rewrite Hs. unfold z. simpl. apply Z.ltb_ge. lia.
Qed.

Lemma sub_magnitude (Bx By : Z) (x y : float) :
  below Bx x -> below By y -> Z.max Bx By <= 1021 ->
  below (Z.max Bx By + 2) (x - y).
Proof.
  unfold below. rewrite sub_spec.
  destruct (Prim2SF x) as [sx | sx | | sx mx ex] eqn:Hx; try contradiction;
    destruct (Prim2SF y) as [sy | sy | | sy my ey] eqn:Hy; try contradiction.
  - intros _ _ _. destruct sx, sy; simpl; exact I.
  - intros _ HB _. simpl. lia.
  - intros HB _ _. simpl. lia.
  - intros HBx HBy Hsmall. unfold SF64sub, SFsub.
    destruct (valid_finite x _ _ _ Hx) as [Hcx Hex].
    destruct (valid_finite y _ _ _ Hy) as [Hcy Hey].
    set (ez := Z.min ex ey).
    set (z := cond_Zopp sx (Zpos (fst (shl_align mx ex ez)))
              - cond_Zopp sy (Zpos (fst (shl_align my ey ez)))).
    assert (Z.abs z <= Zpos (fst (shl_align mx ex ez))
                       + Zpos (fst (shl_align my ey ez))) as Hz
        by (unfold z; destruct sx, sy; simpl; lia).
    pose proof (aligned_digits mx my ex ey z Hz) as HD. fold ez in HD.
    pose proof (binary_normalize_finite z ez false ltac:(lia) ltac:(lia)) as H.
    destruct (binary_normalize _ _ _ _ _) as [s' | s' | | s' m' e''];
      try contradiction; [exact I |].
    destruct H as (_ & H). lia.
Qed.

Lemma abs_magnitude (B : Z) (x : float) :
  below B x -> below B (abs x) /\ nonneg (abs x).
Proof.
  unfold below, nonneg. rewrite abs_spec.
  destruct (Prim2SF x); try contradiction; simpl; intros H; split;
    try exact I; try exact H; reflexivity.
Qed.

(** *** Dicts in insertion order *)

Lemma int_sum_from (d : dict Z) (a : Z) :
  fold_left (fun acc kv => acc + kv.2) d a = a + int_sum d.
Proof.
  unfold int_sum. revert a. induction d as [| kv d IH]; intros a; simpl; [lia |].
  rewrite (IH (a + kv.2)), (IH (0 + kv.2)). lia.
Qed.

Lemma int_sum_cons (kv : string * Z) (d : dict Z) :
  int_sum (kv :: d) = kv.2 + int_sum d.
Proof. unfold int_sum at 1. simpl. rewrite int_sum_from. lia. Qed.

Lemma int_sum_app (d d' : dict Z) : int_sum (d ++ d') = int_sum d + int_sum d'.
Proof.
  induction d as [| kv d IH]; [reflexivity |].
  simpl. rewrite !int_sum_cons, IH. lia.
Qed.

Lemma int_sum_nonneg (d : dict Z) :
  Forall (fun item => 0 <= item.2) d -> 0 <= int_sum d.
Proof.
  induction 1 as [| kv d Hkv _ IH]; [reflexivity |].
  rewrite int_sum_cons. lia.
Qed.

Lemma int_sum_item (d : dict Z) (kv : string * Z) :
  Forall (fun item => 0 <= item.2) d -> kv ∈ d -> kv.2 <= int_sum d.
Proof.
  induction 1 as [| kv' d Hkv Hd IH]; intros Hin; [inversion Hin |].
  rewrite int_sum_cons. pose proof (int_sum_nonneg d Hd).
  apply elem_of_cons in Hin as [-> | Hin]; [lia |]. specialize (IH Hin). lia.
Qed.

Lemma get_None {V} (d : dict V) (key : string) : key ∉ d.*1 -> get d key = None.
Proof.
  induction d as [| [k v] d IH]; [reflexivity |]. simpl. intros Hnot.
  apply not_elem_of_cons in Hnot as [Hne Hnot].
  destruct (String.eqb_spec k key) as [-> | _]; [contradiction |]. exact (IH Hnot).
Qed.

Lemma get_Some {V} (d : dict V) (key : string) (v : V) :
  get d key = Some v -> (key, v) ∈ d.
Proof.
  induction d as [| [k w] d IH]; [discriminate |]. simpl.
  destruct (String.eqb_spec k key) as [-> | _].
  - intros [= ->]. apply elem_of_cons. left. reflexivity.
  - intros H. apply elem_of_cons. right. apply IH, H.
Qed.

Lemma set_fresh {V} (d : dict V) (key : string) (v : V) :
  key ∉ d.*1 -> set d key v = d ++ [(key, v)].
Proof.
  induction d as [| [k w] d IH]; [reflexivity |]. simpl. intros Hnot.
  apply not_elem_of_cons in Hnot as [Hne Hnot].
  destruct (String.eqb_spec k key) as [-> | _]; [contradiction |].
  rewrite (IH Hnot). reflexivity.
Qed.

(** *** Normalization *)

Lemma long_true_divide_small (a b : Z) :
  b <> 0 -> Z.abs a < 2 ^ 53 -> Z.abs b < 2 ^ 53 ->
  long_true_divide a b = Ok (of_int a / of_int b)%float.
Proof.
  intros Hb Ha Hb'. unfold long_true_divide.
  destruct (Z.eqb_spec b 0); [contradiction |].
  destruct (Z.ltb_spec (Z.abs a) (2 ^ 53)); [| lia].
  destruct (Z.ltb_spec (Z.abs b) (2 ^ 53)); [| lia]. reflexivity.
Qed.

(** The normalized values of counts that doubles hold exactly *)
Lemma normalize_small (dist : dict Z) :
  NoDup dist.*1 ->
  Forall (fun item => Z.abs item.2 < 2 ^ 53) dist ->
  Z.abs (int_sum dist) < 2 ^ 53 ->
  dist = [] \/ int_sum dist <> 0 ->
  normalize dist
  = Ok (map (fun item => (item.1, (of_int item.2 / of_int (int_sum dist))%float))
            dist).
Proof.
  intros Hnd Hsmall Htot Hne. unfold normalize.
  set (total := int_sum dist) in *.
  set (f := fun item : string * Z => (item.1, (of_int item.2 / of_int total)%float)).
  assert (forall rest done,
             NoDup (done.*1 ++ rest.*1) ->
             Forall (fun item => Z.abs item.2 < 2 ^ 53) rest ->
             rest = [] \/ total <> 0 ->
             for_each rest
               (fun item normed =>
                  quotient ← long_true_divide item.2 total;
                  Ok (set normed item.1 quotient))
               (map f done)
             = Ok (map f (done ++ rest))) as Hloop.
  { induction rest as [| [k c] rest IH]; intros done Hd Hs Hz.
    - rewrite app_nil_r. reflexivity.
    - simpl. apply Forall_cons in Hs as [Hc Hs].
      destruct Hz as [? | Hz]; [discriminate |].
      rewrite long_true_divide_small by (simpl in Hc; lia). simpl.
      rewrite set_fresh.
      2:{ apply NoDup_app in Hd as (_ & Hd & _).
          assert ((map f done).*1 = done.*1) as ->.
          { clear. induction done as [| [? ?] done IH]; [reflexivity |].
            simpl. f_equal. exact IH. }
          intros Hin. apply (Hd k Hin). simpl. apply elem_of_cons. left.
          reflexivity. }
      change [(k, (of_int c / of_int total)%float)] with (map f [(k, c)]).
      rewrite <- map_app.
      rewrite (IH (done ++ [(k, c)])).
      + rewrite <- app_assoc. reflexivity.
      + rewrite fmap_app, <- app_assoc. exact Hd.
      + exact Hs.
      + right. exact Hz. }
  apply (Hloop dist []); [exact Hnd | exact Hsmall | exact Hne].
Qed.

Lemma normalized_magnitude (c total : Z) :
  0 <= c < 2 ^ 53 -> 0 < total < 2 ^ 53 ->
  nonneg (of_int c / of_int total) /\ below 54 (of_int c / of_int total).
Proof.
  intros Hc Ht.
  destruct (of_int_magnitude c Hc) as (Hn & Hb & _).
  destruct (of_int_magnitude total ltac:(lia)) as (Hn' & _ & Ha).
  destruct (div_magnitude 53 1 _ _ Hb (Ha ltac:(lia)) ltac:(lia)) as [H1 H2].
  split; [exact (H2 Hn Hn') | exact H1].
Qed.



(** *** More on dicts *)

Lemma get_key {V} (d : dict V) (key : string) :
  get d key = None <-> key ∉ d.*1.
Proof.
  split; [| apply get_None].
  induction d as [| [k v] d IH]; simpl; [intros _ H; inversion H |].
  destruct (String.eqb_spec k key) as [-> | Hne]; [discriminate |].
  intros H. apply not_elem_of_cons. split; [congruence | exact (IH H)].
Qed.

Lemma get_set {V} (d : dict V) (key key' : string) (v : V) :
  get (set d key v) key' = if String.eqb key key' then Some v else get d key'.
Proof.
  induction d as [| [k w] d IH]; simpl.
  - reflexivity.
  - destruct (String.eqb_spec k key) as [-> | Hne]; simpl.
    + destruct (String.eqb_spec key key'); reflexivity.
    + rewrite IH. destruct (String.eqb_spec k key') as [-> | ?]; [| reflexivity].
      destruct (String.eqb_spec key key'); [congruence | reflexivity].
Qed.

Lemma set_set {V} (d : dict V) (key : string) (v w : V) :
  set (set d key v) key w = set d key w.
Proof.
  induction d as [| [k u] d IH]; simpl.
  - rewrite String.eqb_refl. reflexivity.
  - destruct (String.eqb_spec k key) as [-> | Hne]; simpl.
    + rewrite String.eqb_refl. reflexivity.
    + destruct (String.eqb_spec k key); [contradiction |]. rewrite IH. reflexivity.
Qed.

Lemma set_Forall {V} (P : string * V -> Prop) (d : dict V) (key : string) (v : V) :
  Forall P d -> P (key, v) -> (forall w, P (key, w) -> P (key, v)) ->
  Forall P (set d key v).
Proof.
  intros Hd Hv _. induction Hd as [| [k w] d Hk Hd IH]; simpl.
  - constructor; [exact Hv | constructor].
  - destruct (String.eqb_spec k key) as [-> | Hne]; constructor; assumption.
Qed.

Lemma set_keys {V} (d : dict V) (key : string) (v : V) :
  NoDup d.*1 -> NoDup (set d key v).*1 /\
  (forall k, k ∈ (set d key v).*1 <-> k = key \/ k ∈ d.*1).
Proof.
  induction d as [| [k w] d IH]; simpl; intros Hnd.
  - split; [apply NoDup_singleton |]. intros k. rewrite list_elem_of_singleton.
    split; [intros ->; left; reflexivity | intros [-> | H]; [reflexivity | inversion H]].
  - apply NoDup_cons in Hnd as [Hk Hnd]. destruct (IH Hnd) as [IH1 IH2].
    destruct (String.eqb_spec k key) as [-> | Hne]; simpl.
    + split; [apply NoDup_cons; split; assumption |].
      intros k. rewrite elem_of_cons. tauto.
    + split.
      * apply NoDup_cons. split; [| exact IH1]. rewrite IH2. tauto.
      * intros k'. rewrite !elem_of_cons, IH2. tauto.
Qed.

Lemma int_sum_set (d : dict Z) (key : string) (v : Z) :
  int_sum (set d key v) = int_sum d - default 0 (get d key) + v.
Proof.
  induction d as [| [k w] d IH]; simpl.
  - rewrite int_sum_cons. simpl. unfold int_sum. simpl. lia.
  - destruct (String.eqb_spec k key) as [-> | Hne]; rewrite !int_sum_cons; simpl.
    + lia.
    + rewrite IH. lia.
Qed.

Lemma del_Forall {V} (P : string * V -> Prop) (d : dict V) (key : string) :
  Forall P d -> Forall P (del d key).
Proof.
  induction 1 as [| [k w] d Hk Hd IH]; simpl; [constructor |].
  destruct (String.eqb k key); [exact Hd | constructor; assumption].
Qed.

Lemma del_keys {V} (d : dict V) (key : string) :
  NoDup d.*1 ->
  NoDup (del d key).*1 /\
  (forall k, k ∈ (del d key).*1 <-> k <> key /\ k ∈ d.*1).
Proof.
  induction d as [| [k w] d IH]; simpl; intros Hnd.
  - split; [constructor |]. intros k. split; [intros H; inversion H | intros [_ H]; inversion H].
  - apply NoDup_cons in Hnd as [Hk Hnd]. destruct (IH Hnd) as [IH1 IH2].
    destruct (String.eqb_spec k key) as [-> | Hne]; simpl.
    + split; [exact Hnd |]. intros k. rewrite elem_of_cons. split.
      * intros H. split; [intros -> ; contradiction | right; exact H].
      * intros [H1 [H2 | H2]]; [contradiction | exact H2].
    + split.
      * apply NoDup_cons. split; [| exact IH1]. rewrite IH2. tauto.
      * intros k'. rewrite !elem_of_cons, IH2. split.
        -- intros [-> | [H1 H2]]; [split; [congruence | left; reflexivity] | tauto].
        -- intros [H1 [-> | H2]]; [left; reflexivity | right; tauto].
Qed.

(** *** The reduction to the data qubits *)

Lemma reduce_step_eq (finalState : dict Z) (item : string * Z) :
  reduce_step finalState item
  = set finalState (last3 item.1)
        (default 0 (get finalState (last3 item.1)) + item.2).
Proof.
  unfold reduce_step. destruct (get finalState (last3 item.1)) as [v |] eqn:Hg.
  - rewrite Hg. reflexivity.
  - rewrite get_set, String.eqb_refl, set_set. reflexivity.
Qed.

Lemma reduce_from (counts finalState : dict Z) :
  NoDup finalState.*1 ->
  let reduced := fold_left reduce_step counts finalState in
  NoDup reduced.*1 /\
  int_sum reduced = int_sum finalState + int_sum counts /\
  (reduced = [] <-> finalState = [] /\ counts = []) /\
  (Forall (fun item => 0 <= item.2) finalState ->
   Forall (fun item => 0 <= item.2) counts ->
   Forall (fun item => 0 <= item.2) reduced) /\
  (forall k, k ∈ reduced.*1 ->
             k ∈ finalState.*1 \/ exists item, item ∈ counts /\ k = last3 item.1).
Proof.
  revert finalState. induction counts as [| item counts IH]; intros fs Hnd; simpl.
  - split; [exact Hnd |]. split; [unfold int_sum at 3; simpl; lia |].
    split; [tauto |]. split; [intros H _; exact H |].
    intros k Hk. left. exact Hk.
  - rewrite reduce_step_eq.
    set (kp := last3 item.1). set (v := default 0 (get fs kp) + item.2).
    destruct (set_keys fs kp v Hnd) as [Hnd' Hkeys].
    destruct (IH (set fs kp v) Hnd') as (H1 & H2 & H3 & H4 & H5).
    split; [exact H1 |]. split; [| split; [| split]].
    + rewrite H2, int_sum_set, int_sum_cons. unfold v. lia.
    + rewrite H3. split; [| intros [_ ?]; discriminate].
      intros [Hset _]. destruct fs as [| [? ?] ?]; simpl in Hset;
        [discriminate | destruct (String.eqb _ _); discriminate].
    + intros Hfs Hc. apply Forall_cons in Hc as [Hi Hc]. apply H4; [| exact Hc].
      apply set_Forall; [exact Hfs | | intros; simpl; unfold v].
      * simpl. unfold v. destruct (get fs kp) as [w |] eqn:Hg; simpl; [| lia].
        apply get_Some in Hg.
        pose proof (proj1 (Forall_forall _ _) Hfs _ Hg) as Hw. simpl in Hw. lia.
      * destruct (get fs kp) as [w' |] eqn:Hg; simpl; [| lia].
        apply get_Some in Hg.
        pose proof (proj1 (Forall_forall _ _) Hfs _ Hg) as Hw. simpl in Hw. lia.
    + intros k Hk. destruct (H5 k Hk) as [Hin | (it & Hit & ->)].
      * apply Hkeys in Hin as [-> | Hin]; [right | left; exact Hin].
        exists item. split; [apply elem_of_cons; left; reflexivity | reflexivity].
      * right. exists it. split; [apply elem_of_cons; right; exact Hit | reflexivity].
Qed.

Lemma reduceToDataQubits_facts (counts : dict Z) :
  let reduced := reduceToDataQubits counts in
  NoDup reduced.*1 /\
  int_sum reduced = int_sum counts /\
  (reduced = [] <-> counts = []) /\
  (Forall (fun item => 0 <= item.2) counts ->
   Forall (fun item => 0 <= item.2) reduced) /\
  (bitstring_keys counts -> forall k, k ∈ reduced.*1 -> k ∈ initialState.*1).
Proof.
  destruct (reduce_from counts [] ltac:(constructor)) as (H1 & H2 & H3 & H4 & H5).
  unfold reduceToDataQubits. split; [exact H1 |]. split; [| split; [| split]].
  - rewrite H2. reflexivity.
  - rewrite H3. tauto.
  - intros Hc. apply H4; [constructor | exact Hc].
  - intros Hb k Hk. destruct (H5 k Hk) as [Hin | (it & Hit & ->)]; [inversion Hin |].
    exact (proj1 (Forall_forall _ _) Hb it Hit).
Qed.

(** *** What the scoring function can raise *)

Lemma obind_raises {A B} (o : outcome A) (k : A -> outcome B) (e : exn) :
  obind o k = Raise e -> o = Raise e \/ exists a, o = Ok a /\ k a = Raise e.
Proof.
  destruct o as [a | e']; simpl; [intros H; right; exists a; auto |].
  intros [= <-]. left. reflexivity.
Qed.

Lemma for_each_raises {A S} (l : list A) (body : A -> S -> outcome S) (s : S)
      (e : exn) :
  for_each l body s = Raise e -> exists x s', x ∈ l /\ body x s' = Raise e.
Proof.
  revert s. induction l as [| x l IH]; intros s; simpl; [discriminate |].
  intros H. apply obind_raises in H as [H | (s' & _ & H)].
  - exists x, s. split; [apply elem_of_cons; left; reflexivity | exact H].
  - destruct (IH _ H) as (y & s'' & Hy & Hb). exists y, s''.
    split; [apply elem_of_cons; right; exact Hy | exact Hb].
Qed.

Lemma long_true_divide_raises (a b : Z) (e : exn) :
  long_true_divide a b = Raise e ->
  e = ZeroDivisionError /\ b = 0 \/ e = OverflowError.
Proof.
  unfold long_true_divide. destruct (Z.eqb_spec b 0) as [-> | _].
  - intros [= <-]. left. split; reflexivity.
  - destruct (_ && _); [discriminate |].
    destruct (SFdiv _ _ _ _); try discriminate. intros [= <-]. right. reflexivity.
Qed.

Lemma math_sqrt_raises (x : float) (e : exn) :
  math_sqrt x = Raise e -> e = ValueError.
Proof.
  unfold math_sqrt. destruct (_ && _); [intros [= <-]; reflexivity |].
  destruct (_ && _); [intros [= <-]; reflexivity | discriminate].
Qed.

Lemma float_pow2_raises (libm_pow2 : float -> float) (x : float) (e : exn) :
  float_pow2 libm_pow2 x = Raise e -> e = OverflowError.
Proof.
  unfold float_pow2. destruct (is_nan x); [discriminate |].
  destruct (is_infinity x); [discriminate |].
  destruct (x =? 0)%float; [discriminate |].
  destruct (abs x =? 1)%float; [discriminate |].
  destruct (is_infinity _); [intros [= <-]; reflexivity | discriminate].
Qed.

Lemma normalize_raises (dist : dict Z) (e : exn) :
  normalize dist = Raise e ->
  e = ZeroDivisionError /\ dist <> [] /\ int_sum dist = 0 \/ e = OverflowError.
Proof.
  unfold normalize. intros H.
  apply for_each_raises in H as (item & normed & Hin & H).
  apply obind_raises in H as [H | (q & _ & H)]; [| discriminate].
  apply long_true_divide_raises in H as [[-> Hz] | ->]; [left | right; reflexivity].
  split; [reflexivity |]. split; [| exact Hz]. intros ->. inversion Hin.
Qed.

Lemma normalize_no_shots (dist : dict Z) :
  dist <> [] -> int_sum dist = 0 -> normalize dist = Raise ZeroDivisionError.
Proof.
  intros Hne Hz. unfold normalize. rewrite Hz.
  destruct dist as [| item dist]; [contradiction | reflexivity].
Qed.

Lemma hellinger_step_raises (libm_pow2 : float -> float) (item : string * float)
      (st : float * dict float) (e : exn) :
  hellinger_step libm_pow2 item st = Raise e ->
  e = ValueError \/ e = OverflowError.
Proof.
  unfold hellinger_step. destruct st as [total q_normed].
  destruct (get q_normed item.1) as [q |]; [| discriminate].
  intros H. apply obind_raises in H as [H | (a & _ & H)];
    [left; exact (math_sqrt_raises _ _ H) |].
  apply obind_raises in H as [H | (b & _ & H)];
    [left; exact (math_sqrt_raises _ _ H) |].
  apply obind_raises in H as [H | (sq & _ & H)]; [| discriminate].
  right. exact (float_pow2_raises _ _ _ H).
Qed.

Lemma hellinger_fidelity_raises (libm_pow2 : float -> float) (compensated_sum : bool)
      (dist_p dist_q : dict Z) (e : exn) :
  hellinger_fidelity libm_pow2 compensated_sum dist_p dist_q = Raise e ->
  e = ZeroDivisionError /\
  (dist_p <> [] /\ int_sum dist_p = 0 \/
   exists p_normed, normalize dist_p = Ok p_normed /\
                    dist_q <> [] /\ int_sum dist_q = 0) \/
  e = ValueError \/ e = OverflowError.
Proof.
  unfold hellinger_fidelity, hellinger_distance. intros H.
  apply obind_raises in H as [H | (dist & _ & H)].
  2:{ apply obind_raises in H as [H | (sq & _ & H)];
        right; right; exact (float_pow2_raises _ _ _ H). }
  apply obind_raises in H as [H | (p_normed & Hp & H)].
  { apply normalize_raises in H as [(-> & Hne & Hz) | ->]; [| tauto].
    left. split; [reflexivity |]. left. split; assumption. }
  apply obind_raises in H as [H | (q_normed & _ & H)].
  { apply normalize_raises in H as [(-> & Hne & Hz) | ->]; [| tauto].
    left. split; [reflexivity |]. right. exists p_normed. tauto. }
  apply obind_raises in H as [H | ([total left] & _ & H)].
  { apply for_each_raises in H as (item & st & _ & H).
    right. exact (hellinger_step_raises _ _ _ _ H). }
  apply obind_raises in H as [H | (root & _ & H)];
    [right; left; exact (math_sqrt_raises _ _ H) |].
  apply obind_raises in H as [H | (root_2 & _ & H)];
    [right; left; exact (math_sqrt_raises _ _ H) | discriminate].
Qed.

(** *** When the score exists *)

Lemma float_pow2_ok (libm_pow2 : float -> float) (B : Z) (x : float) :
  pow2_in_range libm_pow2 -> 0 <= B <= 500 -> below B x ->
  exists r, float_pow2 libm_pow2 x = Ok r /\ nonneg r /\ below (2 * B + 1) r.
Proof.
  intros Hlibm HB Hx. destruct (below_finite B x Hx) as [Hnan Hinf].
  unfold float_pow2. rewrite Hnan, Hinf.
  destruct (x =? 0)%float.
  { exists 0%float. split; [reflexivity |]. split; exact I. }
  destruct (abs x =? 1)%float.
  { exists 1%float. split; [reflexivity |]. split; [reflexivity |].
    unfold below. change (Prim2SF 1) with (S754_finite false 4503599627370496 (-52)).
    simpl. lia. }
  destruct (abs_magnitude B x Hx) as [Hb Hn].
  destruct (Hlibm B (abs x) HB Hn Hb) as [Hrn Hrb].
  destruct (below_finite _ _ Hrb) as [_ Hrinf]. rewrite Hrinf.
  eexists. split; [reflexivity |]. split; assumption.
Qed.

Lemma rounded_square_in_range : pow2_in_range rounded_square.
Proof.
  intros B x HB Hn Hb. unfold rounded_square. split.
  - apply (square_nonneg B x Hb). lia.
  - pose proof (mul_magnitude B B x x Hb Hb ltac:(lia)) as H.
    replace (Z.max (B + B) (-1074) + 1) with (2 * B + 1) in H by lia. exact H.
Qed.

Lemma hellinger_loop_ok (libm_pow2 : float -> float) (l : dict float) :
  pow2_in_range libm_pow2 ->
  Forall (fun item => nonneg item.2 /\ below 54 item.2) l ->
  forall (total : float) (q : dict float) (B : Z),
    nonneg total -> below B total ->
    Forall (fun item => nonneg item.2 /\ below 54 item.2) q ->
    NoDup q.*1 ->
    Z.max B 61 + 2 * Z.of_nat (length l) <= 1021 ->
    exists total' q',
      for_each l (hellinger_step libm_pow2) (total, q) = Ok (total', q') /\
      nonneg total' /\
      below (Z.max B 61 + 2 * Z.of_nat (length l)) total' /\
      (forall k, k ∈ q'.*1 -> k ∈ q.*1 /\ k ∉ l.*1).
Proof.
  intros Hlibm. induction 1 as [| [k v] l [Hvn Hvb] _ IH];
    intros total q B Htn Htb Hq Hnd Hsmall.
  - exists total, q. split; [reflexivity |]. split; [exact Htn |].
    split; [apply (below_le B); [simpl; lia | exact Htb] |].
    intros k Hk. split; [exact Hk | apply not_elem_of_nil].
  - simpl in Hvn, Hvb. simpl for_each. unfold hellinger_step at 1. simpl fst. simpl snd.
    rewrite length_cons, Nat2Z.inj_succ in Hsmall.
    rewrite length_cons, Nat2Z.inj_succ.
    destruct (get q k) as [w |] eqn:Hg.
    + pose proof (proj1 (Forall_forall _ _) Hq _ (get_Some _ _ _ Hg)) as [Hwn Hwb].
      simpl in Hwn, Hwb.
      rewrite (math_sqrt_ok 54 v Hvn Hvb), (math_sqrt_ok 54 w Hwn Hwb).
      destruct (sqrt_magnitude 54 v Hvn Hvb) as [_ Ha].
      destruct (sqrt_magnitude 54 w Hwn Hwb) as [_ Hb].
      pose proof (sub_magnitude _ _ _ _ Ha Hb ltac:(closed_le)) as Hd.
      apply (below_le _ 30) in Hd; [| closed_le].
      destruct (float_pow2_ok libm_pow2 30 _ Hlibm ltac:(lia) Hd) as (r & Hr & Hrn & Hrb).
      simpl. rewrite Hr. simpl.
      destruct (add_magnitude B 61 total r Htb Hrb ltac:(lia)) as [Hsb Hsn].
      destruct (del_keys q k Hnd) as [Hnd' Hkeys].
      destruct (IH (total + r)%float (del q k) (Z.max B 61 + 2)
                   (Hsn Htn Hrn) Hsb (del_Forall _ _ _ Hq) Hnd' ltac:(lia))
        as (total' & q' & Hloop & Hn' & Hb' & Hk').
      exists total', q'. split; [exact Hloop |]. split; [exact Hn' |].
      split; [eapply below_le; [| exact Hb']; lia |].
      intros k' Hin. destruct (Hk' k' Hin) as [H1 H2].
      apply Hkeys in H1 as [Hne H1]. split; [exact H1 |].
      simpl. apply not_elem_of_cons. split; assumption.
    + destruct (add_magnitude B 54 total v Htb Hvb ltac:(lia)) as [Hsb Hsn].
      apply (below_le _ (Z.max B 61 + 2)) in Hsb; [| lia].
      destruct (IH (total + v)%float q (Z.max B 61 + 2)
                   (Hsn Htn Hvn) Hsb Hq Hnd ltac:(lia))
        as (total' & q' & Hloop & Hn' & Hb' & Hk').
      exists total', q'. split; [exact Hloop |]. split; [exact Hn' |].
      split; [eapply below_le; [| exact Hb']; lia |].
      intros k' Hin. destruct (Hk' k' Hin) as [H1 H2]. split; [exact H1 |].
      simpl. apply not_elem_of_cons. split; [| exact H2].
      intros ->. apply get_key in Hg. contradiction.
Qed.

Lemma keys_map_values {V W} (f : string * V -> W) (d : dict V) :
  (map (fun item => (item.1, f item)) d).*1 = d.*1.
Proof.
  induction d as [| [k v] d IH]; [reflexivity |]. simpl. f_equal. exact IH.
Qed.

(** Normalizing counts without a negative one, with a total that a double
    holds exactly *)
Lemma normalize_counts (dist : dict Z) :
  NoDup dist.*1 ->
  Forall (fun item => 0 <= item.2) dist ->
  int_sum dist < 2 ^ 53 ->
  dist = [] \/ int_sum dist <> 0 ->
  exists normed,
    normalize dist = Ok normed /\
    normed.*1 = dist.*1 /\
    Forall (fun item => nonneg item.2 /\ below 54 item.2) normed.
Proof.
  intros Hnd Hnn Hsmall Hne.
  pose proof (int_sum_nonneg dist Hnn) as Htot.
  assert (Forall (fun item => 0 <= item.2 <= int_sum dist) dist) as Hitems.
  { apply Forall_forall. intros kv Hin. split.
    - exact (proj1 (Forall_forall _ _) Hnn kv Hin).
    - exact (int_sum_item dist kv Hnn Hin). }
  eexists. split; [| split].
  - apply normalize_small; [exact Hnd | | lia | exact Hne].
    eapply Forall_impl; [exact Hitems | cbn beta; intros; lia].
  - apply (keys_map_values (fun item => (of_int item.2 / of_int (int_sum dist))%float)).
  - apply Forall_map, Forall_forall. intros kv Hin. simpl.
    pose proof (proj1 (Forall_forall _ _) Hitems kv Hin) as Hkv. cbn beta in Hkv.
    destruct Hne as [-> | Hne]; [inversion Hin |].
    apply normalized_magnitude; lia.
Qed.

Lemma initialState_normalized :
  exists p_normed,
    normalize initialState = Ok p_normed /\
    p_normed.*1 = initialState.*1 /\
    Forall (fun item => nonneg item.2 /\ below 54 item.2) p_normed.
Proof.
  apply normalize_counts.
  - apply (bool_decide_unpack _). vm_compute. reflexivity.
  - repeat constructor; simpl; lia.
  - vm_compute. reflexivity.
  - right. vm_compute. discriminate.
Qed.

Lemma find_fidelity_returns (libm_pow2 : float -> float) (compensated_sum : bool)
      (counts : dict Z) :
  pow2_in_range libm_pow2 ->
  bitstring_keys counts ->
  Forall (fun item => 0 <= item.2) counts ->
  int_sum counts < 2 ^ 53 ->
  counts = [] \/ int_sum counts <> 0 ->
  exists f,
    find_fidelity libm_pow2 compensated_sum counts = Ok f /\
    nonneg f /\ is_finite f = true.
Proof.
  intros Hlibm Hkeys Hnn Hsmall Hne.
  destruct (reduceToDataQubits_facts counts) as (Hnd & Hsum & Hnil & Hred & Hsub).
  specialize (Hred Hnn). specialize (Hsub Hkeys).
  set (finalState := reduceToDataQubits counts) in *.
  destruct initialState_normalized as (p_normed & Hp & Hpk & Hpg).
  destruct (normalize_counts finalState Hnd Hred ltac:(lia)
              ltac:(rewrite Hnil, Hsum; exact Hne))
    as (q_normed & Hq & Hqk & Hqg).
  assert (length p_normed = 8%nat) as Hlen.
  { rewrite <- (length_fmap fst), Hpk. reflexivity. }
  destruct (hellinger_loop_ok libm_pow2 p_normed Hlibm Hpg 0%float q_normed 0
              I I Hqg ltac:(rewrite Hqk; exact Hnd)
              ltac:(rewrite Hlen; closed_le))
    as (total & left & Hloop & Htn & Htb & Hleft).
  rewrite Hlen in Htb. apply (below_le _ 77) in Htb; [| closed_le].
  assert (left = []) as ->.
  { destruct left as [| [k v] left]; [reflexivity | exfalso].
    destruct (Hleft k ltac:(simpl; apply elem_of_cons; left; reflexivity))
      as [Hin Hout].
    apply Hout. rewrite Hpk. apply Hsub. rewrite <- Hqk. exact Hin. }
  unfold find_fidelity, hellinger_fidelity, hellinger_distance.
  fold finalState. rewrite Hp.
  cbn [mbind outcome_bind obind fmap list_fmap snd]. rewrite Hq.
  cbn [mbind outcome_bind obind fmap list_fmap snd]. rewrite Hloop.
  cbn [mbind outcome_bind obind fmap list_fmap snd].
  destruct (add_magnitude 77 0 total 0%float Htb I ltac:(closed_le)) as [Hsb Hsn].
  specialize (Hsn Htn I). apply (below_le _ 79) in Hsb; [| closed_le].
  change (builtin_sum compensated_sum []) with 0%float.
  rewrite (math_sqrt_ok 79 _ Hsn Hsb). cbn [mbind outcome_bind obind fmap list_fmap snd].
  destruct (sqrt_magnitude 79 _ Hsn Hsb) as [Hrn Hrb].
  apply (below_le _ 41) in Hrb; [| closed_le].
  assert (above 1 (sqrt 2)) as H2a by (unfold above; vm_compute; discriminate).
  assert (nonneg (sqrt 2)) as H2n by (unfold nonneg; vm_compute; reflexivity).
  destruct (div_magnitude 41 1 _ (sqrt 2) Hrb H2a ltac:(closed_le)) as [Hdb Hdn].
  specialize (Hdn Hrn H2n). apply (below_le _ 42) in Hdb; [| closed_le].
  change (math_sqrt 2) with (Ok (sqrt 2)). cbn [mbind outcome_bind obind fmap list_fmap snd].
  destruct (float_pow2_ok libm_pow2 42 _ Hlibm ltac:(lia) Hdb) as (sq & Hsq & Hqn & Hqb).
  rewrite Hsq. cbn [mbind outcome_bind obind fmap list_fmap snd].
  assert (below 1 1%float) as H1 by (unfold below; vm_compute; discriminate).
  pose proof (sub_magnitude 1 85 1%float sq H1 Hqb ltac:(closed_le)) as Hone.
  apply (below_le _ 87) in Hone; [| closed_le].
  destruct (float_pow2_ok libm_pow2 87 _ Hlibm ltac:(lia) Hone) as (f & Hf & Hfn & Hfb).
  exists f. split; [exact Hf |]. split; [exact Hfn |].
  exact (below_is_finite _ _ Hfb).
Qed.

Lemma find_fidelity_no_shots (libm_pow2 : float -> float) (compensated_sum : bool)
      (counts : dict Z) :
  find_fidelity libm_pow2 compensated_sum counts = Raise ZeroDivisionError
  <-> counts <> [] /\ int_sum counts = 0.
Proof.
  destruct (reduceToDataQubits_facts counts) as (_ & Hsum & Hnil & _ & _).
  unfold find_fidelity. split.
  - intros H. apply hellinger_fidelity_raises in H
      as [[_ [[_ H] | (_ & _ & Hne & Hz)]] | [H | H]]; try discriminate.
    split; [rewrite <- Hnil; exact Hne | rewrite <- Hsum; exact Hz].
  - intros [Hne Hz]. destruct initialState_normalized as (p_normed & Hp & _).
    unfold hellinger_fidelity, hellinger_distance. rewrite Hp. simpl.
    rewrite normalize_no_shots; [reflexivity | rewrite Hnil; exact Hne |].
    rewrite Hsum. exact Hz.
Qed.

(** ** Where the score is exact *)

(** *** A count divided by itself *)



(** *** Swapping the operands of a difference *)













(** ** The claims on the executed score *)

(** X15: in binary64, [find_fidelity] raises [ZeroDivisionError] exactly
    when the raw result has keys and no shots at all; whatever it raises is
    [ZeroDivisionError], [ValueError] (the square root of a negative
    normalized count or total) or [OverflowError] (a quotient or a square
    beyond the doubles); and on a raw result without negative counts, with
    keys that end in three bits and a total below [2 ** 53] that is not
    zero (or with no key at all), it returns a finite fidelity, given a C
    library whose [pow] stays in range. *)
Theorem find_fidelity_raises_iff_no_shots
        (libm_pow2 : float -> float) (compensated_sum : bool)
        (counts : Double.dict Z) :
  (Double.find_fidelity libm_pow2 compensated_sum counts = Raise ZeroDivisionError
   <-> counts <> [] /\ Double.int_sum counts = 0) /\
  (forall e,
      Double.find_fidelity libm_pow2 compensated_sum counts = Raise e ->
      e = ZeroDivisionError \/ e = ValueError \/ e = OverflowError) /\
  (Double.pow2_in_range libm_pow2 ->
   Double.bitstring_keys counts ->
   Forall (fun item => 0 <= item.2) counts ->
   Double.int_sum counts < 2 ^ 53 ->
   counts = [] \/ Double.int_sum counts <> 0 ->
   exists f,
     Double.find_fidelity libm_pow2 compensated_sum counts = Ok f /\
     is_finite f = true).
Proof.
  split; [apply find_fidelity_no_shots |]. split.
  - intros e H. unfold Double.find_fidelity in H.
    apply hellinger_fidelity_raises in H as [[-> _] | H]; tauto.
  - intros Hlibm Hkeys Hnn Hsmall Hne.
    destruct (find_fidelity_returns libm_pow2 compensated_sum counts
                Hlibm Hkeys Hnn Hsmall Hne) as (f & Hf & _ & Hfin).
    exists f. split; assumption.
Qed.

Lemma find_fidelity_raises_iff_no_shots_witness :
  Double.find_fidelity Double.rounded_square false [("000000000", 0)]
  = Raise ZeroDivisionError /\
  Double.find_fidelity Double.rounded_square false [("111", -5); ("000", 10)]
  = Raise ValueError /\
  exists f,
    Double.find_fidelity Double.rounded_square false
                         [("110000111", 1000); ("000000101", 24)] = Ok f /\
    is_finite f = true.
Proof.
  split; [| split].
  - apply (find_fidelity_raises_iff_no_shots
             Double.rounded_square false [("000000000", 0)]).
    split; [discriminate | reflexivity].
  - vm_compute. reflexivity.
  - apply (find_fidelity_raises_iff_no_shots
             Double.rounded_square false
             [("110000111", 1000); ("000000101", 24)]).
    + exact rounded_square_in_range.
    + apply (bool_decide_unpack _). vm_compute. reflexivity.
    + repeat constructor; simpl; lia.
    + vm_compute. reflexivity.
    + right. vm_compute. discriminate.
Defined.

(** X18: a raw result with no outcome at all is not an error: its reduced
    distribution is empty, the distance of the ideal distribution to it is
    the double [sqrt(1.0) / sqrt(2)] whatever the C library, and with
    correctly rounded squares the fidelity is [0x1.0000000000002p-2]
    (0.2500000000000001), two units in the last place above a quarter. *)
Theorem empty_result_scores_just_above_a_quarter
        (libm_pow2 : float -> float) (compensated_sum : bool) :
  Double.reduceToDataQubits [] = [] /\
  Double.hellinger_distance libm_pow2 compensated_sum Double.initialState []
  = Ok 0x1.6a09e667f3bccp-1%float /\
  Double.find_fidelity Double.rounded_square compensated_sum []
  = Ok 0x1.0000000000002p-2%float /\
  (0x1p-2 <? 0x1.0000000000002p-2)%float = true.
Proof.
  split; [reflexivity |]. split; [| split].
  - vm_compute. reflexivity.
  - vm_compute. reflexivity.
  - reflexivity.
Qed.




End Binary64.
